(** * A decoder-only Transformer with a key/value cache

    Shallow embedding of [llm_with_kv_cache.ipynb]: the modules
    [LayerNorm], [SingleHeadSelfAttention], [MLP], [DecoderBlock] and
    [Transformer], and the two decoding loops [greedy_decode] and
    [greedy_decode_with_kv_cache].

    Modelling choices.
    - Numbers.  The notebook computes in floating point.  Here the scalars
      are an abstract structure [Scalar] (the operations the code calls,
      with no law assumed); the three laws the cache argument needs are
      collected in [ScalarLaws] and hold in the real numbers, which give
      the instance [RScalar].  Rounding is therefore abstracted: the
      equalities proved below are exact, in ideal arithmetic.  The laws do
      not hold in IEEE floating point, where [0 * inf] and [0 / 0] are nan:
      a theorem that assumes [ScalarLaws] is a theorem of ideal arithmetic,
      and the instance [FloatScalar], the double-precision floats of the
      kernel, shows what an overflow changes.
    - Tensors.  A tensor of shape (seq_len, width) is a list of rows, and
      the rows of a tensor have one width.  Every operation of the notebook
      acts on each element of the batch by itself (the mask and the position
      ids broadcast along the batch axis), and every call in the notebook
      has batch size 1: the embedding follows one element of the batch.
      A tensor without rows carries no width here, and a token id is a
      natural number: a negative id, on which [nn.Embedding] raises as
      well, is outside the embedding.
    - Modules are in inference mode ([model.eval()]): every [nn.Dropout]
      is the identity.
    - Exceptions.  A call that raises returns [None]: the index errors of
      the embedding lookups and of [past_kvs[i]], the assertion on the
      hidden size, and the shape errors of [torch.cat], [masked_fill] and
      [attn @ v].  The parameters of a module have the shapes its
      constructor gives them ([wf_Transformer]). *)

From Stdlib Require Import PrimFloat.
From Stdlib Require Import List Arith Bool Lia.
From Stdlib Require Import Reals Lra.
Import ListNotations.

Set Implicit Arguments.

(** ** Scalars *)

Class Scalar : Type := {
  scalar : Type;
  zero : scalar;
  add : scalar -> scalar -> scalar;
  sub : scalar -> scalar -> scalar;
  mul : scalar -> scalar -> scalar;
  div : scalar -> scalar -> scalar;
  sqrt : scalar -> scalar;          (* math.sqrt, and the root inside std *)
  exp : scalar -> scalar;           (* the exponential inside softmax *)
  of_nat : nat -> scalar;           (* an integer count used as a number *)
  ltb : scalar -> scalar -> bool    (* the comparison inside argmax *)
}.

(** The laws of ideal arithmetic that the proofs use: adding a zero term,
    multiplying by a zero weight and dividing a zero numerator.  The real
    numbers have them; IEEE floats do not ([0 * inf] and [0 / 0] are nan). *)
Class ScalarLaws (Sc : Scalar) : Prop := {
  add_zero_r : forall x : scalar, add x zero = x;
  mul_zero_l : forall x : scalar, mul zero x = zero;
  div_zero_l : forall x : scalar, div zero x = zero
}.

(** ** The error monad: [None] is a raised exception *)

Definition bind {A B : Type} (m : option A) (k : A -> option B) : option B :=
  match m with
  | Some a => k a
  | None => None
  end.

Notation "x <- m ;; k" := (bind m (fun x => k))
  (at level 61, m at next level, right associativity).
Notation "' p <- m ;; k" := (bind m (fun p => k))
  (at level 61, p pattern, m at next level, right associativity).

Fixpoint traverse {A B : Type} (f : A -> option B) (l : list A) : option (list B) :=
  match l with
  | [] => Some []
  | a :: l' => b <- f a ;; bs <- traverse f l' ;; Some (b :: bs)
  end.

(** ** Lists as tensors *)

Fixpoint zip_with {A B C : Type} (f : A -> B -> C) (l1 : list A) (l2 : list B) : list C :=
  match l1, l2 with
  | a :: l1', b :: l2' => f a b :: zip_with f l1' l2'
  | _, _ => []
  end.

(** [l[-n:]]: the last [n] elements; Python reads [-0] as [0], so [n = 0]
    gives the whole list, and so does an [n] beyond the length. *)
Definition last_rows {A : Type} (n : nat) (l : list A) : list A :=
  if n =? 0 then l else skipn (length l - n) l.

(** [torch.tril(torch.ones(n, n))], as the boolean [mask != 0]. *)
Definition tril_row (n r : nat) : list bool := map (fun c => c <=? r) (seq 0 n).
Definition tril (n : nat) : list (list bool) := map (tril_row n) (seq 0 n).

(** [torch.tril(torch.ones(1, total_len, total_len))[:, -seq_len:, :]] *)
Definition causal_mask (total_len seq_len : nat) : list (list bool) :=
  last_rows seq_len (tril total_len).

(** ** Config: the dataclass of the notebook ([dropout_rate] plays no part
    in inference mode). *)
Record Config : Type := {
  cfg_hidden_size : nat;
  cfg_ff_hidden_size : nat;
  cfg_num_hidden_layers : nat;
  cfg_vocab_size : nat;
  cfg_max_seq_len : nat
}.

(** ** Tensor types: a row, a (seq_len, width) tensor, the key/value pair
    of one layer and the cache of all layers. *)
Abbreviation vec := (list scalar) (only parsing).
Abbreviation mat := (list (list scalar)) (only parsing).
Abbreviation kv := (list (list scalar) * list (list scalar))%type (only parsing).
Abbreviation cache := (list (list (list scalar) * list (list scalar))) (only parsing).

Section Model.

Context {Sc : Scalar}.

Definition sum (l : vec) : scalar := fold_right add zero l.
Definition dot (a b : vec) : scalar := sum (zip_with mul a b).
Definition column (h : nat) (m : mat) : vec := map (fun r => nth h r zero) m.
Definition tensor_add (a b : mat) : mat := zip_with (zip_with add) a b.

(** *** nn.Linear: [y = x @ weight.T + bias], [weight] of shape (out, in) *)

Record Linear : Type := {
  weight : mat;
  bias : vec
}.

Definition Linear_forward (l : Linear) (x : vec) : vec :=
  zip_with (fun w b => add (dot x w) b) (weight l) (bias l).

(** *** LayerNorm, the notebook's own class *)

Record LayerNorm : Type := {
  gamma : vec;
  beta : vec;
  eps : scalar
}.

(** [x.mean(dim=-1)] *)
Definition mean (x : vec) : scalar := div (sum x) (of_nat (length x)).

Definition sq_dev (x : vec) : scalar :=
  let m := mean x in sum (map (fun a => mul (sub a m) (sub a m)) x).

(** [x.std(dim=-1)]: torch's default is the unbiased estimator, dividing by
    [hidden_size - 1]. *)
Definition std (x : vec) : scalar := sqrt (div (sq_dev x) (of_nat (length x - 1))).

Definition LayerNorm_row (ln : LayerNorm) (x : vec) : vec :=
  let mean := mean x in
  let std := std x in
  zip_with add
    (zip_with mul (map (fun a => div (sub a mean) (add std (eps ln))) x) (gamma ln))
    (beta ln).

Definition LayerNorm_forward (ln : LayerNorm) (x : mat) : mat :=
  map (LayerNorm_row ln) x.

(** *** torch.nn.LayerNorm, used for [ln_f]:
    [(x - E[x]) / sqrt(Var[x] + eps) * weight + bias], the variance being the
    biased estimator (it divides by [hidden_size]). *)

Record nn_LayerNorm : Type := {
  nn_weight : vec;
  nn_bias : vec;
  nn_eps : scalar
}.

Definition var_biased (x : vec) : scalar := div (sq_dev x) (of_nat (length x)).

Definition nn_LayerNorm_row (ln : nn_LayerNorm) (x : vec) : vec :=
  let mean := mean x in
  let var := var_biased x in
  zip_with add
    (zip_with mul (map (fun a => div (sub a mean) (sqrt (add var (nn_eps ln)))) x)
                  (nn_weight ln))
    (nn_bias ln).

Definition nn_LayerNorm_forward (ln : nn_LayerNorm) (x : mat) : mat :=
  map (nn_LayerNorm_row ln) x.

(** *** SingleHeadSelfAttention *)

Record SingleHeadSelfAttention : Type := {
  hidden_size : nat;
  c_attn : Linear;
  c_proj : Linear
}.

(** [torch.cat([past, new], dim=1)]: the widths have to agree.  The width
    of [past] is read off its rows: a tensor without rows is taken to have
    the width asked for. *)
Definition cat_rows (w : nat) (past new : mat) : option mat :=
  if forallb (fun r => length r =? w) past then Some (past ++ new) else None.

(** [(q @ k.transpose(-2, -1)) / math.sqrt(hidden_size)] *)
Definition scores (h : nat) (q k : mat) : mat :=
  map (fun qi => map (fun kj => div (dot qi kj) (sqrt (of_nat h))) k) q.

(** A score after masking: [None] is [float('-inf')]. *)
Definition fill_row (a : vec) (m : list bool) : list (option scalar) :=
  zip_with (fun s (b : bool) => if b then Some s else None) a m.

(** [attn.masked_fill(mask == 0, float('-inf'))]: the mask has to broadcast
    to the shape of [attn], so it has as many rows as [attn] or one row. *)
Definition masked_fill (attn : mat) (mask : list (list bool))
  : option (list (list (option scalar))) :=
  if length mask =? length attn then Some (zip_with fill_row attn mask)
  else match mask with
       | [m] => Some (map (fun a => fill_row a m) attn)
       | _ => None
       end.

(** [torch.softmax(attn, dim=-1)]: [exp(x_i) / sum_j exp(x_j)], with
    [exp(-inf) = 0]. *)
Definition exp_ext (o : option scalar) : scalar :=
  match o with
  | Some a => exp a
  | None => zero
  end.

Definition softmax (row : list (option scalar)) : vec :=
  let e := map exp_ext row in
  let s := sum e in
  map (fun a => div a s) e.

(** [attn @ v], for [attn] of shape (seq_len, total_len) and [v] of shape
    (len_v, w): the inner dimensions have to agree. *)
Definition matmul (total_len : nat) (attn : mat) (w : nat) (v : mat) : option mat :=
  if total_len =? length v
  then Some (map (fun a => map (fun h => dot a (column h v)) (seq 0 w)) attn)
  else None.

(** [forward(self, x, past_kv=None, use_cache=False)].  With
    [use_cache = True] the result is the pair [(proj_output, new_kv)],
    otherwise [proj_output] alone: the second component is [None] then.
    [c_attn] has [3 * hidden_size] outputs, so [split] gives exactly the
    three blocks [q], [k], [v], each of width [hidden_size]; after
    [torch.cat] has compared the widths, [q @ k.transpose(-2, -1)] cannot
    raise. *)
Definition SingleHeadSelfAttention_forward (self : SingleHeadSelfAttention)
    (x : mat) (past_kv : option kv) (use_cache : bool)
  : option (mat * option kv) :=
  let seq_len := length x in
  (* assert self.hidden_size == hidden_size_in_data *)
  if negb (forallb (fun r => length r =? hidden_size self) x) then None else
  let c_attn_output := map (Linear_forward (c_attn self)) x in
  (* q, k, v = c_attn_output.split(self.hidden_size, dim=-1) *)
  let q := map (firstn (hidden_size self)) c_attn_output in
  let k := map (fun r => firstn (hidden_size self) (skipn (hidden_size self) r))
               c_attn_output in
  let v := map (fun r => skipn (2 * hidden_size self) r) c_attn_output in
  '(k, v) <- match past_kv with
             | Some (past_k, past_v) =>
                 k' <- cat_rows (hidden_size self) past_k k ;;
                 v' <- cat_rows (hidden_size self) past_v v ;;
                 Some (k', v')
             | None => Some (k, v)
             end ;;
  let attn := scores (hidden_size self) q k in
  let total_len := length k in
  let mask := causal_mask total_len seq_len in
  attn <- masked_fill attn mask ;;
  let attn := map softmax attn in
  attn_output <- matmul total_len attn (hidden_size self) v ;;
  let proj_output := map (Linear_forward (c_proj self)) attn_output in
  if use_cache then Some (proj_output, Some (k, v)) else Some (proj_output, None).

(** *** MLP: Linear, activation, Linear.  [act] is the activation module
    held by the instance ([nn.GELU()] in the constructor); it acts on each
    number by itself. *)

Record MLP : Type := {
  c_fc : Linear;
  act : scalar -> scalar;
  mlp_c_proj : Linear
}.

Definition MLP_forward (self : MLP) (x : mat) : mat :=
  let x := map (Linear_forward (c_fc self)) x in
  let x := map (map (act self)) x in
  let x := map (Linear_forward (mlp_c_proj self)) x in
  x.

(** *** DecoderBlock *)

Record DecoderBlock : Type := {
  ln_1 : LayerNorm;
  attn : SingleHeadSelfAttention;
  ln_2 : LayerNorm;
  mlp : MLP
}.

(** [forward(self, x, past_kv=None, use_cache=False)]; the stateless branch
    calls [self.attn(x)], without the entry. *)
Definition DecoderBlock_forward (self : DecoderBlock)
    (x : mat) (past_kv : option kv) (use_cache : bool)
  : option (mat * option kv) :=
  (* Layer norm 1 *)
  let x := LayerNorm_forward (ln_1 self) x in
  (* Self attention + residual *)
  '(x, new_kv) <-
     (if use_cache
      then '(attn_output, new_kv) <-
              SingleHeadSelfAttention_forward (attn self) x past_kv true ;;
           Some (tensor_add x attn_output, new_kv)
      else '(attn_output, _) <-
              SingleHeadSelfAttention_forward (attn self) x None false ;;
           Some (tensor_add x attn_output, None)) ;;
  (* Layer norm 2 *)
  let x := LayerNorm_forward (ln_2 self) x in
  (* MLP + residual *)
  let x := tensor_add x (MLP_forward (mlp self) x) in
  Some (x, new_kv).

(** *** Transformer *)

Record Transformer : Type := {
  token_embed : mat;        (* nn.Embedding(vocab_size, hidden_size) *)
  position_embed : mat;     (* nn.Embedding(max_seq_len, hidden_size) *)
  hidden_layers : list DecoderBlock;
  ln_f : nn_LayerNorm;      (* nn.LayerNorm(hidden_size) *)
  language_head : Linear    (* nn.Linear(hidden_size, vocab_size) *)
}.

(** An embedding lookup raises on an index outside the table.  The ids
    are natural numbers: a negative id is outside the embedding. *)
Definition embedding (table : mat) (ids : list nat) : option mat :=
  traverse (nth_error table) ids.

(** [past_kvs[0][0].shape[1]] when [past_kvs] is truthy (a non-empty list),
    and 0 otherwise. *)
Definition past_length (past_kvs : option cache) : nat :=
  match past_kvs with
  | Some ((past_k, _) :: _) => length past_k
  | _ => 0
  end.

(** [past_kvs[i] if past_kvs is not None else None] *)
Definition past_kv_at (past_kvs : option cache) (i : nat) : option (option kv) :=
  match past_kvs with
  | Some kvs => match nth_error kvs i with
                | Some e => Some (Some e)
                | None => None        (* IndexError *)
                end
  | None => Some None
  end.

(** The loop over [enumerate(self.hidden_layers)], from layer [i] on; the
    result carries the entries appended to [new_kvs]. *)
Fixpoint run_layers (layers : list DecoderBlock) (i : nat) (x : mat)
    (past_kvs : option cache) (use_cache : bool) : option (mat * cache) :=
  match layers with
  | [] => Some (x, [])
  | layer :: layers' =>
      past_kv <- past_kv_at past_kvs i ;;
      '(x, new_kv) <-
         (if use_cache
          then DecoderBlock_forward layer x past_kv true
          else DecoderBlock_forward layer x None false) ;;
      '(x, new_kvs) <- run_layers layers' (S i) x past_kvs use_cache ;;
      Some (x, match new_kv with
               | Some e => e :: new_kvs
               | None => new_kvs
               end)
  end.

(** [torch.arange(start, end)] *)
Definition arange (start stop : nat) : list nat := seq start (stop - start).

(** Create position ids (past_len, past_len + 1, ..) *)
Definition position_ids (past_kvs : option cache) (seq_len : nat) : list nat :=
  let past_len := past_length past_kvs in
  arange past_len (past_len + seq_len).

(** [forward(self, input_ids, past_kvs=None, use_cache=False)]: the logits,
    and with [use_cache = True] the list [new_kvs] as well. *)
Definition Transformer_forward (self : Transformer) (input_ids : list nat)
    (past_kvs : option cache) (use_cache : bool) : option (mat * option cache) :=
  let seq_len := length input_ids in
  let position_ids := position_ids past_kvs seq_len in
  (* Embed tokens and positions *)
  tok <- embedding (token_embed self) input_ids ;;
  pos <- embedding (position_embed self) position_ids ;;
  let x := tensor_add tok pos in
  (* Transformer blocks *)
  '(x, new_kvs) <- run_layers (hidden_layers self) 0 x past_kvs use_cache ;;
  (* Final layer norm *)
  let x := nn_LayerNorm_forward (ln_f self) x in
  (* Project to vocabulary *)
  let logits := map (Linear_forward (language_head self)) x in
  if use_cache then Some (logits, Some new_kvs) else Some (logits, None).

(** ** Greedy decoding *)

(** [torch.argmax] over one row: the index of the first maximal value; it
    raises on an empty row. *)
Fixpoint argmax_from (best : nat) (bv : scalar) (i : nat) (l : vec) : nat :=
  match l with
  | [] => best
  | a :: l' => if ltb bv a then argmax_from i a (S i) l'
               else argmax_from best bv (S i) l'
  end.

Definition argmax (l : vec) : option nat :=
  match l with
  | [] => None
  | a :: l' => Some (argmax_from 0 a 1 l')
  end.

(** [torch.argmax(logits[:, -1, :], dim=-1)]; indexing the last position
    raises when there is none. *)
Definition next_token (logits : mat) : option nat :=
  match rev logits with
  | [] => None
  | last :: _ => argmax last
  end.

(** [n] iterations of the loop of [greedy_decode]. *)
Fixpoint greedy_decode_loop (n : nat) (model : Transformer) (input_ids : list nat)
  : option (list nat) :=
  match n with
  | 0 => Some input_ids
  | S n' =>
      '(logits, _) <- Transformer_forward model input_ids None false ;;
      next_tokens <- next_token logits ;;
      greedy_decode_loop n' model (input_ids ++ [next_tokens])
  end.

Definition greedy_decode (model : Transformer) (input_ids : list nat) (max_len : nat)
  : option (list nat) :=
  greedy_decode_loop (max_len - length input_ids) model input_ids.

(** [n] iterations of the loop of [greedy_decode_with_kv_cache]. *)
Fixpoint greedy_decode_with_kv_cache_loop (n : nat) (model : Transformer)
    (input_ids : list nat) (past_kvs : option cache) (generated : list nat)
  : option (list nat) :=
  match n with
  | 0 => Some generated
  | S n' =>
      '(logits, past_kvs) <- Transformer_forward model input_ids past_kvs true ;;
      next_token <- next_token logits ;;
      greedy_decode_with_kv_cache_loop n' model [next_token] past_kvs
        (generated ++ [next_token])
  end.

Definition greedy_decode_with_kv_cache (model : Transformer) (input_ids : list nat)
    (max_len : nat) : option (list nat) :=
  greedy_decode_with_kv_cache_loop (max_len - length input_ids) model input_ids
    None input_ids.

(** ** Running the model incrementally, as the notebook's tests do:
    [logits_step, past_kvs = model(chunk, past_kvs=past_kvs, use_cache=True)]
    for each chunk in turn, the logits collected with [torch.cat(.., dim=1)]. *)
Fixpoint incremental (model : Transformer) (chunks : list (list nat))
    (past_kvs : option cache) : option (mat * option cache) :=
  match chunks with
  | [] => Some ([], past_kvs)
  | chunk :: chunks' =>
      '(logits_step, past_kvs) <- Transformer_forward model chunk past_kvs true ;;
      '(logits_rest, past_kvs) <- incremental model chunks' past_kvs ;;
      Some (logits_step ++ logits_rest, past_kvs)
  end.

(** ** Shapes fixed by the constructors

    [Transformer(hidden_size, ff_hidden_size, vocab_size, max_seq_len,
    num_hidden_layers)] allocates every parameter with the shape below, and
    [load_state_dict] refuses a checkpoint of another shape. *)

Definition has_width (w : nat) (m : mat) : bool :=
  forallb (fun r => length r =? w) m.

Definition wf_Linear (n_in n_out : nat) (l : Linear) : bool :=
  (length (weight l) =? n_out) && has_width n_in (weight l)
  && (length (bias l) =? n_out).

Definition wf_LayerNorm (h : nat) (ln : LayerNorm) : bool :=
  (length (gamma ln) =? h) && (length (beta ln) =? h).

Definition wf_nn_LayerNorm (h : nat) (ln : nn_LayerNorm) : bool :=
  (length (nn_weight ln) =? h) && (length (nn_bias ln) =? h).

Definition wf_SingleHeadSelfAttention (h : nat) (a : SingleHeadSelfAttention) : bool :=
  (hidden_size a =? h) && wf_Linear h (3 * h) (c_attn a) && wf_Linear h h (c_proj a).

Definition wf_MLP (h ff : nat) (m : MLP) : bool :=
  wf_Linear h ff (c_fc m) && wf_Linear ff h (mlp_c_proj m).

Definition wf_DecoderBlock (h ff : nat) (b : DecoderBlock) : bool :=
  wf_LayerNorm h (ln_1 b) && wf_SingleHeadSelfAttention h (attn b)
  && wf_LayerNorm h (ln_2 b) && wf_MLP h ff (mlp b).

Definition wf_Transformer (cfg : Config) (m : Transformer) : bool :=
  let h := cfg_hidden_size cfg in
  (length (token_embed m) =? cfg_vocab_size cfg) && has_width h (token_embed m)
  && (length (position_embed m) =? cfg_max_seq_len cfg)
  && has_width h (position_embed m)
  && (length (hidden_layers m) =? cfg_num_hidden_layers cfg)
  && forallb (wf_DecoderBlock h (cfg_ff_hidden_size cfg)) (hidden_layers m)
  && wf_nn_LayerNorm h (ln_f m)
  && wf_Linear h (cfg_vocab_size cfg) (language_head m).

(** ** The contracts as the specification words them *)

(** Normalizer: [(x - mean) / (std + eps) * scale + shift], entry [i] of a
    row [x]. *)
Definition Normalizer_spec (scale shift : vec) (eps : scalar) (x : vec) (i : nat)
  : scalar :=
  add (mul (div (sub (nth i x zero) (mean x)) (add (std x) eps)) (nth i scale zero))
      (nth i shift zero).

(** The formula of [torch.nn.LayerNorm]:
    [(x - mean) / sqrt(var + eps) * weight + bias], entry [i]. *)
Definition nn_LayerNorm_spec (w b : vec) (eps : scalar) (x : vec) (i : nat) : scalar :=
  add (mul (div (sub (nth i x zero) (mean x)) (sqrt (add (var_biased x) eps)))
           (nth i w zero))
      (nth i b zero).

(** DecoderLayer: [x1 = Normalize(x)]; [a = Attention(x1, cache)];
    [x2 = x1 + a]; [x3 = Normalize(x2)]; [out = x3 + FeedForward(x3)];
    the updated cache entry is returned alongside. *)
Definition DecoderLayer_spec (self : DecoderBlock) (x : mat) (past_kv : option kv)
  : option (mat * option kv) :=
  let x1 := LayerNorm_forward (ln_1 self) x in
  '(a, entry) <- SingleHeadSelfAttention_forward (attn self) x1 past_kv true ;;
  let x2 := tensor_add x1 a in
  let x3 := LayerNorm_forward (ln_2 self) x2 in
  Some (tensor_add x3 (MLP_forward (mlp self) x3), entry).

(** The lengths of a cache: every entry holds [n] key rows and [n] value
    rows. *)
Definition total_length (n : nat) (kvs : cache) : Prop :=
  Forall (fun e : kv => length (fst e) = n /\ length (snd e) = n) kvs.

End Model.

(** ** The real numbers as scalars *)

Definition Rltb (a b : R) : bool := if Rlt_dec a b then true else false.

#[export] Instance RScalar : Scalar := {|
  scalar := R;
  zero := 0%R;
  add := Rplus;
  sub := Rminus;
  mul := Rmult;
  div := Rdiv;
  sqrt := R_sqrt.sqrt;
  exp := Rtrigo_def.exp;
  of_nat := INR;
  ltb := Rltb
|}.

(** ** Definitions used by the proofs *)

Section ProofDefinitions.

Context {Sc : Scalar}.

(** The three blocks of the combined projection, for all rows of [x]. *)
Definition q_rows (self : SingleHeadSelfAttention) (x : mat) : mat :=
  map (firstn (hidden_size self)) (map (Linear_forward (c_attn self)) x).
Definition k_rows (self : SingleHeadSelfAttention) (x : mat) : mat :=
  map (fun r => firstn (hidden_size self) (skipn (hidden_size self) r))
      (map (Linear_forward (c_attn self)) x).
Definition v_rows (self : SingleHeadSelfAttention) (x : mat) : mat :=
  map (fun r => skipn (2 * hidden_size self) r) (map (Linear_forward (c_attn self)) x).

(** The keys and the values of a supplied entry; none when there is no
    entry. *)
Definition past_keys (past_kv : option kv) : mat :=
  match past_kv with Some (k, _) => k | None => [] end.
Definition past_values (past_kv : option kv) : mat :=
  match past_kv with Some (_, v) => v | None => [] end.

(** What the tensor operations of the attention layer ask of a supplied
    entry: rows of width [h] ([torch.cat]) and as many keys as values
    ([attn @ v]). *)
Definition past_ok (h : nat) (past_kv : option kv) : bool :=
  match past_kv with
  | Some (k, v) => has_width h k && has_width h v && (length k =? length v)
  | None => true
  end.

(** The output row of a query [q] at absolute position [r], against the keys
    [K] and the values [V]. *)
Definition attend_row (h : nat) (K V : mat) (q : vec) (r : nat) : vec :=
  let w := softmax (fill_row (map (fun kj => div (dot q kj) (sqrt (of_nat h))) K)
                             (tril_row (length K) r)) in
  map (fun c => dot w (column c V)) (seq 0 h).

(** The projected output for the rows of [x], which sit at the positions
    [p, p + 1, ..]. *)
Definition attend (self : SingleHeadSelfAttention) (K V : mat) (x : mat) (p : nat)
  : mat :=
  map (Linear_forward (c_proj self))
      (zip_with (attend_row (hidden_size self) K V) (q_rows self x) (seq p (length x))).

(** The second half of a block: layer norm 2, then MLP + residual. *)
Definition block_post (self : DecoderBlock) (x : mat) : mat :=
  let x := LayerNorm_forward (ln_2 self) x in
  tensor_add x (MLP_forward (mlp self) x).

(** [Transformer_forward] with the past length as a parameter. *)
Definition Transformer_forward_at (past_len : nat) (self : Transformer)
    (input_ids : list nat) (past_kvs : option cache) (use_cache : bool)
  : option (mat * option cache) :=
  tok <- embedding (token_embed self) input_ids ;;
  pos <- embedding (position_embed self) (seq past_len (length input_ids)) ;;
  '(x, new_kvs) <- run_layers (hidden_layers self) 0 (tensor_add tok pos)
                     past_kvs use_cache ;;
  let logits := map (Linear_forward (language_head self))
                    (nn_LayerNorm_forward (ln_f self) x) in
  if use_cache then Some (logits, Some new_kvs) else Some (logits, None).

(** Every entry of a cache holds [n] positions; no cache stands for no
    position. *)
Definition cache_lengths (n : nat) (past_kvs : option cache) : Prop :=
  match past_kvs with
  | Some kvs => total_length n kvs
  | None => n = 0
  end.

(** The invariant of the cache after [n] positions: one entry per layer,
    each with [n] key rows and [n] value rows. *)
Definition cache_inv (m : Transformer) (n : nat) (past_kvs : option cache) : Prop :=
  match past_kvs with
  | Some kvs => length kvs = length (hidden_layers m) /\ total_length n kvs
  | None => n = 0
  end.

(** The state of the cached decoding loop: [generated] is what was fed so
    far ([pre]) followed by [input_ids], and [past_kvs] is the cache of
    [pre]. *)
Definition synced (m : Transformer) (input_ids : list nat) (past_kvs : option cache)
    (generated : list nat) : Prop :=
  input_ids <> [] /\
  exists pre, generated = pre ++ input_ids
    /\ ((pre = [] /\ past_kvs = None)
        \/ (pre <> [] /\ exists lp, Transformer_forward m pre None true = Some (lp, past_kvs))).

End ProofDefinitions.

(** ** Concrete models over the reals *)

Section RealModels.

Local Open Scope R_scope.

(** The default [eps] of both layer norms, [1e-5]. *)
Definition eps_default : R := 1 / 100000.

(** The sigmoid form of GELU, [x * sigmoid(1.702 x)], standing in for
    [nn.GELU()] in concrete models: the error function is not part of the
    Standard Library's reals. *)
Definition gelu_sigmoid (x : R) : R := x / (1 + Rtrigo_def.exp (- (1702 / 1000 * x))).

(** A model with [num_hidden_layers = 0]: two tokens, three positions,
    hidden size 2, the language head reading the hidden state off. *)
Definition zero_layer_cfg : Config := {|
  cfg_hidden_size := 2;
  cfg_ff_hidden_size := 8;
  cfg_num_hidden_layers := 0;
  cfg_vocab_size := 2;
  cfg_max_seq_len := 3
|}.

Definition zero_layer_model : Transformer := {|
  token_embed := [[0; 0]; [0; 0]];
  position_embed := [[1; 0]; [0; 1]; [1; 0]];
  hidden_layers := [];
  ln_f := {| nn_weight := [1; 1]; nn_bias := [0; 0]; nn_eps := eps_default |};
  language_head := {| weight := [[1; 0]; [0; 1]]; bias := [0; 0] |}
|}.

(** The value the final layer norm of [zero_layer_model] gives the larger
    of the two features. *)
Definition zl_d : R := (1 / 2) / R_sqrt.sqrt (1 / 4 + eps_default).

(** Decoder blocks of hidden size 2 with the activation [act]. *)
Definition small_LayerNorm : LayerNorm :=
  {| gamma := [1; 1]; beta := [0; 0]; eps := eps_default |}.

Definition small_attn : SingleHeadSelfAttention := {|
  hidden_size := 2;
  c_attn := {| weight := [[1; 0]; [0; 1]; [1; 1]; [0; 1]; [1; 0]; [1; -1]];
               bias := [0; 0; 0; 0; 0; 0] |};
  c_proj := {| weight := [[1; 0]; [0; 1]]; bias := [0; 0] |}
|}.

Definition small_block (act : R -> R) : DecoderBlock := {|
  ln_1 := small_LayerNorm;
  attn := small_attn;
  ln_2 := small_LayerNorm;
  mlp := {| c_fc := {| weight := [[1; 0]; [0; 1]; [1; 1]]; bias := [0; 0; 0] |};
            act := act;
            mlp_c_proj := {| weight := [[1; 0; 1]; [0; 1; 1]]; bias := [0; 0] |} |}
|}.

Definition small_cfg (layers : nat) : Config := {|
  cfg_hidden_size := 2;
  cfg_ff_hidden_size := 3;
  cfg_num_hidden_layers := layers;
  cfg_vocab_size := 2;
  cfg_max_seq_len := 4
|}.

Definition small_model (layers : nat) (act : R -> R) : Transformer := {|
  token_embed := [[1; 0]; [0; 1]];
  position_embed := [[0; 0]; [1; 0]; [0; 1]; [1; 1]];
  hidden_layers := repeat (small_block act) layers;
  ln_f := {| nn_weight := [1; 1]; nn_bias := [0; 0]; nn_eps := eps_default |};
  language_head := {| weight := [[1; 0]; [0; 1]]; bias := [0; 0] |}
|}.


End RealModels.

(** Normalising the argument of the square root in a goal about
    [zero_layer_model], and naming the root. *)
Ltac norm_sqrt :=
  repeat match goal with
         | |- context [R_sqrt.sqrt ?a] =>
             tryif constr_eq a (1 / 4 + eps_default)%R then fail
             else replace a with (1 / 4 + eps_default)%R by (unfold eps_default; lra)
         end.

(** Equality of two explicit logits tensors, entry by entry. *)
Ltac rows_eq :=
  apply f_equal; apply (f_equal2 (@pair _ _)); [|reflexivity];
  repeat (apply (f_equal2 (@cons _)); [|try reflexivity]);
  try reflexivity;
  unfold zl_d, Rdiv; lra.

(** ** Double-precision floats as scalars

    The numbers of IEEE 754 binary64, as the kernel of Rocq computes them,
    with their infinities and their nan ([model.double()]; single precision
    treats the special values alike).  The exponential is not a primitive
    operation: it is a parameter [fexp], of which the statements below use
    [fexp 0 = 1] alone. *)

(** An integer count as a float (exact below 2^53). *)
Fixpoint float_of_nat (n : nat) : PrimFloat.float :=
  match n with
  | O => 0%float
  | S n' => PrimFloat.add (float_of_nat n') 1%float
  end.

Definition FloatScalar (fexp : PrimFloat.float -> PrimFloat.float) : Scalar := {|
  scalar := PrimFloat.float;
  zero := 0%float;
  add := PrimFloat.add;
  sub := PrimFloat.sub;
  mul := PrimFloat.mul;
  div := PrimFloat.div;
  sqrt := PrimFloat.sqrt;
  exp := fexp;
  of_nat := float_of_nat;
  ltb := PrimFloat.ltb
|}.

Section FloatModels.

Local Open Scope float_scope.

(** [fexp] stands for the exponential and [gelu] for [nn.GELU()]. *)
Variables fexp gelu : PrimFloat.float -> PrimFloat.float.

#[local] Instance float_scalar : Scalar := FloatScalar fexp.

(** The default [eps = 1e-5] of both layer norms (its nearest double). *)
Definition float_eps : PrimFloat.float := 0x1.4f8b588e368f1p-17.

(** A finite weight, about 1.74e308; the largest double is about
    1.80e308. *)
Definition large_weight : PrimFloat.float := 0x1.fp1023.

Definition overflow_cfg : Config := {|
  cfg_hidden_size := 2;
  cfg_ff_hidden_size := 2;
  cfg_num_hidden_layers := 1;
  cfg_vocab_size := 2;
  cfg_max_seq_len := 2
|}.

(** A block whose queries and keys are 0 and whose first value feature is
    [large_weight * (x_0 - x_1)]: finite on the normalized row of token 0,
    which is [0, 0], and an overflow to [inf] on that of token 1. *)
Definition overflow_block : DecoderBlock := {|
  ln_1 := {| gamma := [1; 1]; beta := [0; 0]; eps := float_eps |};
  attn := {| hidden_size := 2;
             c_attn := {| weight := [[0; 0]; [0; 0]; [0; 0]; [0; 0];
                                     [large_weight; PrimFloat.opp large_weight]; [0; 0]];
                          bias := [0; 0; 0; 0; 0; 0] |};
             c_proj := {| weight := [[1; 0]; [0; 1]]; bias := [0; 0] |} |};
  ln_2 := {| gamma := [1; 1]; beta := [0; 0]; eps := float_eps |};
  mlp := {| c_fc := {| weight := [[0; 0]; [0; 0]]; bias := [0; 0] |};
            act := gelu;
            mlp_c_proj := {| weight := [[0; 0]; [0; 0]]; bias := [0; 0] |} |}
|}.

(** A one-layer model with finite parameters. *)
Definition overflow_model : Transformer := {|
  token_embed := [[0; 0]; [1; 0]];
  position_embed := [[0; 0]; [0; 0]];
  hidden_layers := [overflow_block];
  ln_f := {| nn_weight := [1; 1]; nn_bias := [0; 0]; nn_eps := float_eps |};
  language_head := {| weight := [[1; 0]; [0; 1]]; bias := [0; 1] |}
|}.

End FloatModels.

(** ** The cache tests of the notebook

    After each of the classes [SingleHeadSelfAttention] and [DecoderBlock]
    the notebook runs the module once on a whole input and once row by row
    with the cache, and compares the two outputs. *)

(** [l[i:j]] *)
Definition slice {A : Type} (i j : nat) (l : list A) : list A :=
  firstn (j - i) (skipn i l).

Section CacheTests.

Context {Sc : Scalar}.

(** [torch.cat(tensors, dim=1)]: it raises on an empty list, and when the
    rows of the tensors do not have one width.  (A tensor without rows
    carries no width here.) *)
Definition torch_cat (tensors : list mat) : option mat :=
  match tensors with
  | [] => None
  | _ => let rows := concat tensors in
         match rows with
         | [] => Some []
         | r :: _ => if has_width (length r) rows then Some rows else None
         end
  end.

(** [out_no_cache = self_attention(x, use_cache=False)] *)
Definition attention_out_no_cache (self_attention : SingleHeadSelfAttention) (x : mat)
  : option mat :=
  '(out_no_cache, _) <- SingleHeadSelfAttention_forward self_attention x None false ;;
  Some out_no_cache.

(** The body of [for i in range(x.size(1))], for the indices [idx] in turn:
    [token = x[:, i:i+1]],
    [out, past_kv = self_attention(token, past_kv=past_kv, use_cache=True)],
    [outputs.append(out)]. *)
Fixpoint attention_cache_loop (self_attention : SingleHeadSelfAttention) (x : mat)
    (idx : list nat) (past_kv : option kv) (outputs : list mat)
  : option (list mat * option kv) :=
  match idx with
  | [] => Some (outputs, past_kv)
  | i :: idx' =>
      let token := slice i (i + 1) x in
      '(out, past_kv) <- SingleHeadSelfAttention_forward self_attention token past_kv true ;;
      attention_cache_loop self_attention x idx' past_kv (outputs ++ [out])
  end.

(** [past_kv = None], [outputs = []], the loop, then
    [out_with_cache = torch.cat(outputs, dim=1)]. *)
Definition attention_out_with_cache (self_attention : SingleHeadSelfAttention) (x : mat)
  : option mat :=
  '(outputs, _) <- attention_cache_loop self_attention x (seq 0 (length x)) None [] ;;
  torch_cat outputs.

(** [out_full = decoder(x, use_cache=False)] *)
Definition decoder_out_full (decoder : DecoderBlock) (x : mat) : option mat :=
  '(out_full, _) <- DecoderBlock_forward decoder x None false ;;
  Some out_full.

(** The body of the loop of the decoder test:
    [token = x[:, i:i+1]],
    [out_step, past_kv = decoder(token, past_kv=past_kv, use_cache=True)],
    [outputs.append(out_step)]. *)
Fixpoint decoder_cache_loop (decoder : DecoderBlock) (x : mat)
    (idx : list nat) (past_kv : option kv) (outputs : list mat)
  : option (list mat * option kv) :=
  match idx with
  | [] => Some (outputs, past_kv)
  | i :: idx' =>
      let token := slice i (i + 1) x in
      '(out_step, past_kv) <- DecoderBlock_forward decoder token past_kv true ;;
      decoder_cache_loop decoder x idx' past_kv (outputs ++ [out_step])
  end.

(** [out_cached = torch.cat(outputs, dim=1)] after the loop. *)
Definition decoder_out_cached (decoder : DecoderBlock) (x : mat) : option mat :=
  '(outputs, _) <- decoder_cache_loop decoder x (seq 0 (length x)) None [] ;;
  torch_cat outputs.

(** A row-by-row run of a module [f] with a cache, from the row of index
    [i] on: the shape shared by the two loops above. *)
Fixpoint stepwise (f : mat -> option kv -> option (mat * option kv)) (x : mat)
    (idx : list nat) (past_kv : option kv) (outputs : list mat)
  : option (list mat * option kv) :=
  match idx with
  | [] => Some (outputs, past_kv)
  | i :: idx' =>
      '(out, past_kv) <- f (slice i (i + 1) x) past_kv ;;
      stepwise f x idx' past_kv (outputs ++ [out])
  end.

End CacheTests.

(** Reading the operations of [RScalar] as the operations of [R]. *)
Ltac reals :=
  unfold std, var_biased, sq_dev, mean, dot, sum in *;
  cbn [fold_right scalar zero add sub mul div sqrt exp of_nat ltb RScalar] in *.

(** * Theorems *)

(** ** The definitions on small inputs *)

(** The mask drawn in the comment of [SingleHeadSelfAttention.forward]:
    with [seq_len = 2] its rows are [1, 1, .., 1, 0] and [1, 1, .., 1, 1]. *)
Example causal_mask_4_2 :
  causal_mask 4 2 = [[true; true; true; false]; [true; true; true; true]].
Proof. reflexivity. Qed.

(** Without a past the mask is the whole lower triangle. *)
Example causal_mask_3_3 :
  causal_mask 3 3 = [[true; false; false]; [true; true; false]; [true; true; true]].
Proof. reflexivity. Qed.

(** [x[-0:]] is the whole of [x]. *)
Example last_rows_0 : last_rows 0 [1; 2; 3] = [1; 2; 3].
Proof. reflexivity. Qed.

Example arange_2_5 : arange 2 5 = [2; 3; 4].
Proof. reflexivity. Qed.

(** The position ids of two new tokens behind a cache of three positions. *)
Example position_ids_3_2 :
  position_ids (Sc := RScalar)
    (Some [([[0; 0]; [0; 0]; [0; 0]], [[0; 0]; [0; 0]; [0; 0]])%R]) 2 = [3; 4].
Proof. reflexivity. Qed.

(** [torch.argmax] returns the first of several maximal values. *)
Example argmax_first : argmax (Sc := RScalar) [1; 2; 2]%R = Some 1.
Proof.
  cbn. unfold Rltb.
  destruct (Rlt_dec 1 2) as [_|H]; [|exfalso; apply H; lra].
  destruct (Rlt_dec 2 2) as [H|_]; [lra | reflexivity].
Qed.

(** An out-of-range token id raises. *)
Example embedding_out_of_range :
  Transformer_forward (small_model 1 gelu_sigmoid) [0; 2] None false = None.
Proof. reflexivity. Qed.

(** So does a sequence longer than [max_seq_len]. *)
Example position_out_of_range :
  Transformer_forward (small_model 1 gelu_sigmoid) [0; 1; 0; 1; 0] None false = None.
Proof. reflexivity. Qed.

(** ** Lists *)

Section Lists.

Variables A B C : Type.

Lemma zip_with_length (f : A -> B -> C) (l1 : list A) (l2 : list B) :
  length (zip_with f l1 l2) = Nat.min (length l1) (length l2).
Proof.
  revert l2; induction l1 as [|a l1 IH]; intros [|b l2]; simpl; auto.
Qed.

Lemma zip_with_app (f : A -> B -> C) (l1 l2 : list A) (m1 m2 : list B) :
  length l1 = length m1 ->
  zip_with f (l1 ++ l2) (m1 ++ m2) = zip_with f l1 m1 ++ zip_with f l2 m2.
Proof.
  revert m1; induction l1 as [|a l1 IH]; intros [|b m1] H; simpl in *;
    try discriminate; auto.
  f_equal; apply IH; lia.
Qed.

Lemma zip_with_nil_r (f : A -> B -> C) (l : list A) : zip_with f l [] = [].
Proof. destruct l; reflexivity. Qed.

Lemma zip_with_map_l (D : Type) (f : A -> B -> C) (g : D -> A) l1 l2 :
  zip_with f (map g l1) l2 = zip_with (fun d b => f (g d) b) l1 l2.
Proof.
  revert l2; induction l1 as [|a l1 IH]; intros [|b l2]; simpl; auto.
  f_equal; apply IH.
Qed.

Lemma zip_with_map_r (D : Type) (f : A -> B -> C) (g : D -> B) l1 l2 :
  zip_with f l1 (map g l2) = zip_with (fun a d => f a (g d)) l1 l2.
Proof.
  revert l2; induction l1 as [|a l1 IH]; intros [|b l2]; simpl; auto.
  f_equal; apply IH.
Qed.

Lemma map_zip_with (D : Type) (g : C -> D) (f : A -> B -> C) l1 l2 :
  map g (zip_with f l1 l2) = zip_with (fun a b => g (f a b)) l1 l2.
Proof.
  revert l2; induction l1 as [|a l1 IH]; intros [|b l2]; simpl; auto.
  f_equal; apply IH.
Qed.

Lemma zip_with_ext_in (f g : A -> B -> C) l1 l2 :
  (forall a b, In (a, b) (combine l1 l2) -> f a b = g a b) ->
  zip_with f l1 l2 = zip_with g l1 l2.
Proof.
  revert l2; induction l1 as [|a l1 IH]; intros [|b l2] H; simpl; auto.
  f_equal; [apply H; left; reflexivity | apply IH; intros; apply H; right; assumption].
Qed.

Lemma traverse_app (f : A -> option B) (l1 l2 : list A) :
  traverse f (l1 ++ l2)
  = (b1 <- traverse f l1 ;; b2 <- traverse f l2 ;; Some (b1 ++ b2)).
Proof.
  induction l1 as [|a l1 IH]; simpl.
  - destruct (traverse f l2); reflexivity.
  - destruct (f a); simpl; auto. rewrite IH.
    destruct (traverse f l1); simpl; auto.
    destruct (traverse f l2); reflexivity.
Qed.

Lemma traverse_length (f : A -> option B) (l : list A) (bs : list B) :
  traverse f l = Some bs -> length bs = length l.
Proof.
  revert bs; induction l as [|a l IH]; simpl; intros bs H.
  - injection H as <-; reflexivity.
  - destruct (f a); simpl in H; try discriminate.
    destruct (traverse f l); simpl in H; try discriminate.
    injection H as <-; simpl; f_equal; auto.
Qed.

End Lists.

(** ** The causal mask *)

Lemma tril_row_length n r : length (tril_row n r) = n.
Proof. unfold tril_row; rewrite length_map, length_seq; reflexivity. Qed.

Lemma causal_mask_rows p s :
  1 <= s -> causal_mask (p + s) s = map (tril_row (p + s)) (seq p s).
Proof.
  intros Hs. unfold causal_mask, last_rows, tril.
  destruct (Nat.eqb_spec s 0) as [->|_]; [lia|].
  rewrite length_map, length_seq, skipn_map, skipn_seq.
  do 2 f_equal; lia.
Qed.

Lemma tril_row_app n1 n2 r :
  tril_row (n1 + n2) r = tril_row n1 r ++ map (fun c => c <=? r) (seq n1 n2).
Proof. unfold tril_row. rewrite seq_app, map_app. reflexivity. Qed.

Lemma tril_row_masked n1 n2 r :
  r < n1 -> map (fun c => c <=? r) (seq n1 n2) = repeat false n2.
Proof.
  intros Hr. revert n1 Hr; induction n2 as [|n2 IH]; intros n1 Hr; simpl; auto.
  f_equal; [apply Nat.leb_gt; lia | apply IH; lia].
Qed.

Section Attention.

Context {Sc : Scalar}.

Lemma masked_fill_rows (a : mat) (m : list (list bool)) :
  length m = length a -> masked_fill a m = Some (zip_with fill_row a m).
Proof. intros H. unfold masked_fill. rewrite H, Nat.eqb_refl. reflexivity. Qed.

Lemma scores_length h (q k : mat) : length (scores h q k) = length q.
Proof. unfold scores. apply length_map. Qed.

Lemma attention_rows (h : nat) (q K V : mat) (p n s : nat) :
  n = length K ->
  map (fun a => map (fun c => dot a (column c V)) (seq 0 h))
      (map softmax (zip_with fill_row (scores h q K) (map (tril_row n) (seq p s))))
  = zip_with (attend_row h K V) q (seq p s).
Proof.
  intros ->. unfold scores.
  rewrite map_map, map_zip_with, zip_with_map_l, zip_with_map_r.
  reflexivity.
Qed.

(** The attention layer in closed form, for a non-empty input. *)
Lemma attention_char (self : SingleHeadSelfAttention) (x : mat) (past_kv : option kv)
    (use_cache : bool) :
  x <> [] ->
  SingleHeadSelfAttention_forward self x past_kv use_cache
  = if has_width (hidden_size self) x && past_ok (hidden_size self) past_kv
    then let K := past_keys past_kv ++ k_rows self x in
         let V := past_values past_kv ++ v_rows self x in
         Some (attend self K V x (length (past_keys past_kv)),
               if use_cache then Some (K, V) else None)
    else None.
Proof.
  intros Hx.
  assert (Hs : 1 <= length x) by (destruct x; simpl; [congruence | lia]).
  unfold SingleHeadSelfAttention_forward, has_width.
  destruct (forallb (fun r => length r =? hidden_size self) x);
    cbn [bind negb andb]; [|reflexivity].
  fold (k_rows self x) (v_rows self x) (q_rows self x).
  assert (Hk : length (k_rows self x) = length x)
    by (unfold k_rows; rewrite !length_map; reflexivity).
  assert (Hv : length (v_rows self x) = length x)
    by (unfold v_rows; rewrite !length_map; reflexivity).
  assert (Hq : length (q_rows self x) = length x)
    by (unfold q_rows; rewrite !length_map; reflexivity).
  destruct past_kv as [[pk pv]|]; cbn [bind past_ok past_keys past_values andb app length].
  - unfold cat_rows, has_width.
    destruct (forallb (fun r => length r =? hidden_size self) pk);
      cbn [bind negb andb]; [|reflexivity].
    destruct (forallb (fun r => length r =? hidden_size self) pv);
      cbn [bind negb andb]; [|reflexivity].
    rewrite length_app, Hk, causal_mask_rows by assumption.
    rewrite masked_fill_rows
      by (rewrite length_map, length_seq, scores_length; congruence).
    cbn [bind]. unfold matmul. rewrite length_app, Hv.
    replace (length pk + length x =? length pv + length x)
      with (length pk =? length pv)
      by (destruct (Nat.eqb_spec (length pk) (length pv));
          symmetry; [apply Nat.eqb_eq | apply Nat.eqb_neq]; lia).
    destruct (length pk =? length pv); cbn [bind]; [|reflexivity].
    unfold attend.
    rewrite attention_rows by (rewrite length_app, Hk; reflexivity).
    destruct use_cache; reflexivity.
  - rewrite Hk. change (length x) with (0 + length x) at 1 2.
    rewrite causal_mask_rows by assumption.
    rewrite masked_fill_rows
      by (rewrite length_map, length_seq, scores_length; simpl; congruence).
    cbn [bind]. unfold matmul. cbn [plus]. rewrite Hv, Nat.eqb_refl. cbn [bind].
    unfold attend.
    rewrite attention_rows by (rewrite Hk; reflexivity).
    destruct use_cache; reflexivity.
Qed.

End Attention.

Section MaskedTail.

Context {Sc : Scalar} {Laws : ScalarLaws Sc}.

Lemma sum_zeros n : sum (repeat zero n) = zero.
Proof.
  induction n as [|n IH]; [reflexivity|].
  change (add zero (sum (repeat zero n)) = zero).
  rewrite IH. apply add_zero_r.
Qed.

Lemma sum_app_zeros (l : vec) n : sum (l ++ repeat zero n) = sum l.
Proof.
  unfold sum. rewrite fold_right_app.
  change (fold_right add zero (repeat zero n)) with (sum (repeat zero n)).
  rewrite sum_zeros. reflexivity.
Qed.

Lemma zip_mul_zeros n (c : vec) :
  zip_with mul (repeat zero n) c = repeat zero (Nat.min n (length c)).
Proof.
  revert c; induction n as [|n IH]; intros [|a c]; simpl; auto.
  rewrite mul_zero_l, IH. reflexivity.
Qed.

Lemma dot_app_zeros (w c1 c2 : vec) n :
  length w = length c1 -> dot (w ++ repeat zero n) (c1 ++ c2) = dot w c1.
Proof.
  intros H. unfold dot. rewrite zip_with_app by assumption.
  rewrite zip_mul_zeros. apply sum_app_zeros.
Qed.

Lemma fill_row_masked (s : vec) :
  fill_row s (repeat false (length s)) = repeat None (length s).
Proof.
  unfold fill_row. induction s as [|a s IH]; simpl; [reflexivity|].
  f_equal. apply IH.
Qed.

Lemma softmax_app_masked (row : list (option scalar)) n :
  softmax (row ++ repeat None n) = softmax row ++ repeat zero n.
Proof.
  unfold softmax. rewrite map_app.
  replace (map exp_ext (repeat None n)) with (repeat zero n)
    by (induction n; simpl; congruence).
  rewrite sum_app_zeros, map_app. f_equal.
  induction n as [|n IH]; simpl; [reflexivity|].
  rewrite div_zero_l, IH. reflexivity.
Qed.

Lemma fill_row_length (s : vec) (m : list bool) :
  length (fill_row s m) = Nat.min (length s) (length m).
Proof. apply zip_with_length. Qed.

Lemma softmax_length (row : list (option scalar)) : length (softmax row) = length row.
Proof. unfold softmax. rewrite !length_map. reflexivity. Qed.

(** A query at position [r] gives no weight to keys at positions beyond
    [r]: appending them to the keys and values changes nothing. *)
Lemma attend_row_app (h : nat) (K1 K2 V1 V2 : mat) (q : vec) (r : nat) :
  r < length K1 -> length K1 = length V1 ->
  attend_row h (K1 ++ K2) (V1 ++ V2) q r = attend_row h K1 V1 q r.
Proof.
  intros Hr Hkv. unfold attend_row.
  rewrite length_app, tril_row_app, tril_row_masked by assumption.
  rewrite map_app. unfold fill_row at 1.
  rewrite zip_with_app by (rewrite length_map, tril_row_length; reflexivity).
  fold (fill_row (map (fun kj => div (dot q kj) (sqrt (of_nat h))) K1)
                 (tril_row (length K1) r)).
  replace (length K2)
    with (length (map (fun kj => div (dot q kj) (sqrt (of_nat h))) K2))
    by apply length_map.
  fold (fill_row (map (fun kj => div (dot q kj) (sqrt (of_nat h))) K2)
          (repeat false (length (map (fun kj => div (dot q kj) (sqrt (of_nat h))) K2)))).
  rewrite fill_row_masked, softmax_app_masked.
  apply map_ext; intros c. unfold column. rewrite map_app.
  apply dot_app_zeros.
  rewrite softmax_length, fill_row_length, !length_map, tril_row_length.
  rewrite Nat.min_id. exact Hkv.
Qed.

End MaskedTail.

Section AttentionSplit.

Context {Sc : Scalar}.

Lemma has_width_app w (a b : mat) :
  has_width w (a ++ b) = has_width w a && has_width w b.
Proof. apply forallb_app. Qed.

Lemma has_width_map (A : Type) w (f : A -> vec) (l : list A) :
  (forall a, length (f a) = w) -> has_width w (map f l) = true.
Proof.
  intros H. unfold has_width. rewrite forallb_forall. intros r Hr.
  apply in_map_iff in Hr as (a & <- & _). apply Nat.eqb_eq, H.
Qed.

Lemma wf_Linear_length n_in n_out (l : Linear) (x : vec) :
  wf_Linear n_in n_out l = true -> length (Linear_forward l x) = n_out.
Proof.
  unfold wf_Linear. rewrite !andb_true_iff, !Nat.eqb_eq. intros [[Hw _] Hb].
  unfold Linear_forward. rewrite zip_with_length, Hw, Hb. apply Nat.min_id.
Qed.

Section Layer.

Variables (h : nat) (self : SingleHeadSelfAttention).
Hypothesis wf : wf_SingleHeadSelfAttention h self = true.

Lemma wf_hidden_size : hidden_size self = h.
Proof.
  unfold wf_SingleHeadSelfAttention in wf.
  rewrite !andb_true_iff, Nat.eqb_eq in wf. tauto.
Qed.

Lemma wf_c_attn x : length (Linear_forward (c_attn self) x) = 3 * hidden_size self.
Proof.
  rewrite wf_hidden_size. apply wf_Linear_length with (n_in := h).
  unfold wf_SingleHeadSelfAttention in wf. rewrite !andb_true_iff in wf. tauto.
Qed.

Lemma wf_c_proj x : length (Linear_forward (c_proj self) x) = hidden_size self.
Proof.
  rewrite wf_hidden_size. apply wf_Linear_length with (n_in := h).
  unfold wf_SingleHeadSelfAttention in wf. rewrite !andb_true_iff in wf. tauto.
Qed.

Lemma k_rows_width x : has_width (hidden_size self) (k_rows self x) = true.
Proof.
  unfold k_rows. rewrite map_map. apply has_width_map. intros a.
  rewrite length_firstn, length_skipn, wf_c_attn. lia.
Qed.

Lemma v_rows_width x : has_width (hidden_size self) (v_rows self x) = true.
Proof.
  unfold v_rows. rewrite map_map. apply has_width_map. intros a.
  rewrite length_skipn, wf_c_attn. lia.
Qed.

Lemma k_rows_length x : length (k_rows self x) = length x.
Proof. unfold k_rows. rewrite !length_map. reflexivity. Qed.

Lemma v_rows_length x : length (v_rows self x) = length x.
Proof. unfold v_rows. rewrite !length_map. reflexivity. Qed.

Lemma q_rows_length x : length (q_rows self x) = length x.
Proof. unfold q_rows. rewrite !length_map. reflexivity. Qed.

Lemma q_rows_app x1 x2 : q_rows self (x1 ++ x2) = q_rows self x1 ++ q_rows self x2.
Proof. unfold q_rows. rewrite !map_app. reflexivity. Qed.

Lemma k_rows_app x1 x2 : k_rows self (x1 ++ x2) = k_rows self x1 ++ k_rows self x2.
Proof. unfold k_rows. rewrite !map_app. reflexivity. Qed.

Lemma v_rows_app x1 x2 : v_rows self (x1 ++ x2) = v_rows self x1 ++ v_rows self x2.
Proof. unfold v_rows. rewrite !map_app. reflexivity. Qed.

Lemma attend_length K V x p : length (attend self K V x p) = length x.
Proof.
  unfold attend. rewrite length_map, zip_with_length, q_rows_length, length_seq.
  apply Nat.min_id.
Qed.

Lemma past_ok_lengths past_kv :
  past_ok (hidden_size self) past_kv = true ->
  length (past_keys past_kv) = length (past_values past_kv).
Proof.
  destruct past_kv as [[pk pv]|]; simpl; [|reflexivity].
  rewrite !andb_true_iff, Nat.eqb_eq. tauto.
Qed.

(** The entry returned by a call passes the checks of the next call. *)
Lemma past_ok_next past_kv x :
  past_ok (hidden_size self) past_kv = true ->
  past_ok (hidden_size self)
    (Some (past_keys past_kv ++ k_rows self x, past_values past_kv ++ v_rows self x)) = true.
Proof.
  intros Hok. pose proof (past_ok_lengths _ Hok) as Hlen.
  cbn [past_ok]. rewrite !has_width_app, k_rows_width, v_rows_width.
  rewrite !length_app, k_rows_length, v_rows_length, Hlen, Nat.eqb_refl.
  destruct past_kv as [[pk pv]|]; simpl in *; [|reflexivity].
  rewrite !andb_true_iff in Hok. destruct Hok as [[-> ->] _]. reflexivity.
Qed.

Context {Laws : ScalarLaws Sc}.

Lemma attend_app (K1 V1 : mat) (x1 x2 : mat) :
  length K1 = length V1 ->
  let p1 := length K1 in
  attend self (K1 ++ k_rows self x1 ++ k_rows self x2)
              (V1 ++ v_rows self x1 ++ v_rows self x2) (x1 ++ x2) p1
  = attend self (K1 ++ k_rows self x1) (V1 ++ v_rows self x1) x1 p1
    ++ attend self ((K1 ++ k_rows self x1) ++ k_rows self x2)
                   ((V1 ++ v_rows self x1) ++ v_rows self x2) x2
                   (length (K1 ++ k_rows self x1)).
Proof.
  intros Hlen p1. unfold attend.
  rewrite <- map_app. f_equal.
  rewrite q_rows_app.
  rewrite length_app, seq_app.
  rewrite zip_with_app by (rewrite q_rows_length, length_seq; reflexivity).
  rewrite !app_assoc. f_equal.
  - apply zip_with_ext_in. intros q r Hin.
    apply in_combine_r in Hin. apply in_seq in Hin.
    apply attend_row_app.
    + rewrite length_app, k_rows_length. subst p1. lia.
    + rewrite !length_app, k_rows_length, v_rows_length. lia.
  - rewrite length_app, k_rows_length. reflexivity.
Qed.

(** One call on [x1 ++ x2] is a call on [x1] followed by a call on [x2]
    that is given the entry the first call returned. *)
Lemma attention_split (x1 x2 : mat) (past_kv : option kv) :
  x1 <> [] -> x2 <> [] ->
  SingleHeadSelfAttention_forward self (x1 ++ x2) past_kv true
  = ('(o1, kv1) <- SingleHeadSelfAttention_forward self x1 past_kv true ;;
     '(o2, kv2) <- SingleHeadSelfAttention_forward self x2 kv1 true ;;
     Some (o1 ++ o2, kv2)).
Proof.
  intros H1 H2.
  rewrite !attention_char by (try assumption; destruct x1; simpl; congruence).
  rewrite has_width_app.
  destruct (has_width (hidden_size self) x1); cbn [andb bind]; [|reflexivity].
  destruct (past_ok (hidden_size self) past_kv) eqn:Hok;
    [|rewrite andb_false_r; reflexivity].
  rewrite andb_true_r. cbn [bind].
  rewrite attention_char by assumption.
  rewrite past_ok_next by assumption. rewrite andb_true_r.
  destruct (has_width (hidden_size self) x2); cbn [bind]; [|reflexivity].
  cbn [past_keys past_values].
  rewrite k_rows_app, v_rows_app.
  rewrite attend_app by (apply past_ok_lengths; assumption).
  rewrite !app_assoc. reflexivity.
Qed.

End Layer.

End AttentionSplit.

Section BlockSplit.

Context {Sc : Scalar}.

Lemma tensor_add_app (a1 a2 b1 b2 : mat) :
  length a1 = length b1 ->
  tensor_add (a1 ++ a2) (b1 ++ b2) = tensor_add a1 b1 ++ tensor_add a2 b2.
Proof. apply zip_with_app. Qed.

Lemma tensor_add_length (a b : mat) :
  length a = length b -> length (tensor_add a b) = length a.
Proof. intros H. unfold tensor_add. rewrite zip_with_length, H. apply Nat.min_id. Qed.

Lemma MLP_forward_length (m : MLP) (x : mat) : length (MLP_forward m x) = length x.
Proof. unfold MLP_forward. rewrite !length_map. reflexivity. Qed.

Lemma MLP_forward_app (m : MLP) (x1 x2 : mat) :
  MLP_forward m (x1 ++ x2) = MLP_forward m x1 ++ MLP_forward m x2.
Proof. unfold MLP_forward. rewrite !map_app. reflexivity. Qed.

Lemma block_post_app self x1 x2 :
  block_post self (x1 ++ x2) = block_post self x1 ++ block_post self x2.
Proof.
  unfold block_post, LayerNorm_forward. rewrite map_app, MLP_forward_app.
  apply tensor_add_app. rewrite MLP_forward_length. reflexivity.
Qed.

Lemma block_post_length self x : length (block_post self x) = length x.
Proof.
  unfold block_post, LayerNorm_forward.
  rewrite tensor_add_length; rewrite ?MLP_forward_length, ?length_map; reflexivity.
Qed.

Lemma DecoderBlock_forward_cached (self : DecoderBlock) (x : mat) (past_kv : option kv) :
  DecoderBlock_forward self x past_kv true
  = ('(o, e) <- SingleHeadSelfAttention_forward (attn self)
                  (LayerNorm_forward (ln_1 self) x) past_kv true ;;
     Some (block_post self (tensor_add (LayerNorm_forward (ln_1 self) x) o), e)).
Proof.
  unfold DecoderBlock_forward, block_post.
  destruct (SingleHeadSelfAttention_forward _ _ _ _) as [[o e]|]; reflexivity.
Qed.

Lemma masked_fill_length (a : list (list scalar)) mask r :
  masked_fill a mask = Some r -> length r = length a.
Proof.
  unfold masked_fill. destruct (Nat.eqb_spec (length mask) (length a)) as [E|_].
  - intros H; injection H as <-. rewrite zip_with_length, E. apply Nat.min_id.
  - destruct mask as [|m [|? ?]]; try discriminate.
    intros H; injection H as <-. apply length_map.
Qed.

(** What a cached call of the attention layer returns, whatever the input:
    as many output rows as input rows, and the supplied entry followed by
    the new keys and values. *)
Lemma attention_shape (self : SingleHeadSelfAttention) x past_kv o e :
  SingleHeadSelfAttention_forward self x past_kv true = Some (o, e) ->
  length o = length x
  /\ e = Some (past_keys past_kv ++ k_rows self x, past_values past_kv ++ v_rows self x).
Proof.
  unfold SingleHeadSelfAttention_forward.
  destruct (negb _); [discriminate|].
  fold (k_rows self x) (v_rows self x) (q_rows self x).
  assert (E : match past_kv with
              | Some (pk, pv) =>
                  k' <- cat_rows (hidden_size self) pk (k_rows self x) ;;
                  v' <- cat_rows (hidden_size self) pv (v_rows self x) ;;
                  Some (k', v')
              | None => Some (k_rows self x, v_rows self x)
              end = None
              \/ match past_kv with
                 | Some (pk, pv) =>
                     k' <- cat_rows (hidden_size self) pk (k_rows self x) ;;
                     v' <- cat_rows (hidden_size self) pv (v_rows self x) ;;
                     Some (k', v')
                 | None => Some (k_rows self x, v_rows self x)
                 end = Some (past_keys past_kv ++ k_rows self x,
                             past_values past_kv ++ v_rows self x)).
  { destruct past_kv as [[pk pv]|]; [|right; reflexivity].
    unfold cat_rows. destruct (forallb _ pk); [|left; reflexivity].
    destruct (forallb _ pv); [right|left]; reflexivity. }
  destruct E as [-> | ->]; cbn [bind]; [discriminate|].
  destruct (masked_fill _ _) as [a|] eqn:Hm; cbn [bind]; [|discriminate].
  apply masked_fill_length in Hm. rewrite scores_length in Hm.
  unfold matmul. destruct (_ =? _); cbn [bind]; [|discriminate].
  intros H; injection H as <- <-. split; [|reflexivity].
  rewrite !length_map, Hm. unfold q_rows. rewrite !length_map. reflexivity.
Qed.

Lemma DecoderBlock_shape (self : DecoderBlock) x past_kv y e :
  DecoderBlock_forward self x past_kv true = Some (y, e) ->
  length y = length x
  /\ e = Some (past_keys past_kv ++ k_rows (attn self) (LayerNorm_forward (ln_1 self) x),
               past_values past_kv ++ v_rows (attn self) (LayerNorm_forward (ln_1 self) x)).
Proof.
  rewrite DecoderBlock_forward_cached.
  destruct (SingleHeadSelfAttention_forward _ _ _ _) as [[o e']|] eqn:Ha;
    [|discriminate].
  cbn [bind]. intros H; injection H as <- <-.
  apply attention_shape in Ha as [Hlen He]. split; [|exact He].
  unfold LayerNorm_forward in *. rewrite length_map in Hlen.
  rewrite block_post_length, tensor_add_length; rewrite ?length_map; auto.
Qed.

Lemma nonempty_length (A B : Type) (l : list A) (l' : list B) :
  l <> [] -> length l' = length l -> l' <> [].
Proof. destruct l, l'; simpl; congruence. Qed.

Context {Laws : ScalarLaws Sc}.

Variables (h ff : nat).

Lemma DecoderBlock_split (self : DecoderBlock) (x1 x2 : mat) (past_kv : option kv) :
  wf_DecoderBlock h ff self = true ->
  x1 <> [] -> x2 <> [] ->
  DecoderBlock_forward self (x1 ++ x2) past_kv true
  = ('(y1, kv1) <- DecoderBlock_forward self x1 past_kv true ;;
     '(y2, kv2) <- DecoderBlock_forward self x2 kv1 true ;;
     Some (y1 ++ y2, kv2)).
Proof.
  intros wf H1 H2.
  assert (wfa : wf_SingleHeadSelfAttention h (attn self) = true)
    by (unfold wf_DecoderBlock in wf; rewrite !andb_true_iff in wf; tauto).
  rewrite !DecoderBlock_forward_cached.
  unfold LayerNorm_forward at 1 2. rewrite map_app.
  fold (LayerNorm_forward (ln_1 self) x1) (LayerNorm_forward (ln_1 self) x2).
  assert (N1 : LayerNorm_forward (ln_1 self) x1 <> [])
    by (apply nonempty_length with (l := x1); [assumption | apply length_map]).
  assert (N2 : LayerNorm_forward (ln_1 self) x2 <> [])
    by (apply nonempty_length with (l := x2); [assumption | apply length_map]).
  rewrite (attention_split _ _ wfa) by assumption.
  destruct (SingleHeadSelfAttention_forward (attn self) (LayerNorm_forward (ln_1 self) x1)
              past_kv true) as [[o1 e1]|] eqn:Ha1; cbn [bind]; [|reflexivity].
  rewrite DecoderBlock_forward_cached.
  destruct (SingleHeadSelfAttention_forward (attn self) (LayerNorm_forward (ln_1 self) x2)
              e1 true) as [[o2 e2]|] eqn:Ha2; cbn [bind]; [|reflexivity].
  apply attention_shape in Ha1 as [L1 _].
  rewrite tensor_add_app by congruence.
  rewrite block_post_app. reflexivity.
Qed.

End BlockSplit.

Section LayersSplit.

Context {Sc : Scalar}.

Lemma position_ids_seq (past_kvs : option cache) seq_len :
  position_ids past_kvs seq_len = seq (past_length past_kvs) seq_len.
Proof. unfold position_ids, arange. f_equal. lia. Qed.

Lemma Transformer_forward_at_eq self input_ids past_kvs use_cache :
  Transformer_forward self input_ids past_kvs use_cache
  = Transformer_forward_at (past_length past_kvs) self input_ids past_kvs use_cache.
Proof. unfold Transformer_forward. rewrite position_ids_seq. reflexivity. Qed.

Lemma run_layers_rows (layers : list DecoderBlock) :
  forall i x past_kvs y c,
  run_layers layers i x past_kvs true = Some (y, c) -> length y = length x.
Proof.
  induction layers as [|l ls IH]; intros i x past_kvs y c; cbn [run_layers].
  - intros H; injection H as <- _. reflexivity.
  - destruct (past_kv_at past_kvs i) as [pkv|]; cbn [bind]; [|discriminate].
    destruct (DecoderBlock_forward l x pkv true) as [[x' e]|] eqn:Hb;
      cbn [bind]; [|discriminate].
    apply DecoderBlock_shape in Hb as [Hlen _].
    destruct (run_layers ls (S i) x' past_kvs true) as [[z c']|] eqn:Hr;
      cbn [bind]; [|discriminate].
    intros H; injection H as <- _. apply IH in Hr. congruence.
Qed.

Context {Laws : ScalarLaws Sc}.

Variables (h ff : nat).

Lemma run_layers_split (layers : list DecoderBlock) :
  forallb (wf_DecoderBlock h ff) layers = true ->
  forall (i : nat) (x1 x2 : list (list scalar)) (past_kvs : option cache) (pre : cache),
  length pre = i -> x1 <> [] -> x2 <> [] ->
  run_layers layers i (x1 ++ x2) past_kvs true
  = ('(y1, c1) <- run_layers layers i x1 past_kvs true ;;
     '(y2, c2) <- run_layers layers i x2 (Some (pre ++ c1)) true ;;
     Some (y1 ++ y2, c2)).
Proof.
  induction layers as [|l ls IH]; intros wf i x1 x2 past_kvs pre Hpre H1 H2.
  - reflexivity.
  - simpl in wf. apply andb_true_iff in wf as [wfl wfls].
    cbn [run_layers].
    destruct (past_kv_at past_kvs i) as [pkv|]; cbn [bind]; [|reflexivity].
    rewrite DecoderBlock_split with (h := h) (ff := ff) by assumption.
    destruct (DecoderBlock_forward l x1 pkv true) as [[y1 e1]|] eqn:Hb1;
      cbn [bind]; [|reflexivity].
    pose proof (DecoderBlock_shape _ _ _ Hb1) as [L1 He1].
    destruct e1 as [kv1|]; [|discriminate].
    assert (N1 : y1 <> []) by (apply nonempty_length with (l := x1); assumption).
    destruct (run_layers ls (S i) y1 past_kvs true) as [[z1 c1]|] eqn:Hr1;
      cbn [bind].
    + assert (Hat : past_kv_at (Some (pre ++ kv1 :: c1)) i = Some (Some kv1)).
      { unfold past_kv_at. rewrite nth_error_app2 by lia.
        rewrite Hpre, Nat.sub_diag. reflexivity. }
      rewrite Hat. cbn [bind].
      destruct (DecoderBlock_forward l x2 (Some kv1) true) as [[y2 e2]|] eqn:Hb2;
        cbn [bind]; [|reflexivity].
      pose proof (DecoderBlock_shape _ _ _ Hb2) as [L2 He2].
      assert (N2 : y2 <> []) by (apply nonempty_length with (l := x2); assumption).
      rewrite (IH wfls (S i) y1 y2 past_kvs (pre ++ [kv1]))
        by (try assumption; rewrite length_app; simpl; lia).
      rewrite Hr1. cbn [bind]. rewrite <- app_assoc. cbn [app].
      destruct (run_layers ls (S i) y2 (Some (pre ++ kv1 :: c1)) true)
        as [[z2 c2]|]; cbn [bind]; [|reflexivity].
      subst e2. reflexivity.
    + destruct (DecoderBlock_forward l x2 (Some kv1) true) as [[y2 e2]|] eqn:Hb2;
        cbn [bind]; [|reflexivity].
      pose proof (DecoderBlock_shape _ _ _ Hb2) as [L2 He2].
      assert (N2 : y2 <> []) by (apply nonempty_length with (l := x2); assumption).
      rewrite (IH wfls (S i) y1 y2 past_kvs (pre ++ [kv1]))
        by (try assumption; rewrite length_app; simpl; lia).
      rewrite Hr1. reflexivity.
Qed.

End LayersSplit.

Section TransformerSplit.

Context {Sc : Scalar}.

Lemma wf_layers cfg (m : Transformer) :
  wf_Transformer cfg m = true ->
  forallb (wf_DecoderBlock (cfg_hidden_size cfg) (cfg_ff_hidden_size cfg))
          (hidden_layers m) = true.
Proof. unfold wf_Transformer. rewrite !andb_true_iff. tauto. Qed.

Lemma embedding_length (table : list (list scalar)) ids x :
  embedding table ids = Some x -> length x = length ids.
Proof. apply traverse_length. Qed.

(** With at least one layer, the first entry of the returned cache tells
    how many positions have been processed. *)
Lemma past_length_next (m : Transformer) p x past_kvs logits c :
  hidden_layers m <> [] -> x <> [] ->
  Transformer_forward_at p m x past_kvs true = Some (logits, c) ->
  past_length c = past_length past_kvs + length x.
Proof.
  intros Hl Hx. unfold Transformer_forward_at.
  destruct (embedding (token_embed m) x) as [tok|] eqn:Ht; cbn [bind]; [|discriminate].
  destruct (embedding (position_embed m) (seq p (length x))) as [pos|] eqn:Hp;
    cbn [bind]; [|discriminate].
  apply embedding_length in Ht, Hp. rewrite length_seq in Hp.
  assert (La : length (tensor_add tok pos) = length x)
    by (rewrite tensor_add_length; congruence).
  assert (Na : tensor_add tok pos <> [])
    by (apply nonempty_length with (l := x); assumption).
  revert La Na. generalize (tensor_add tok pos) as a. intros a La Na.
  destruct (hidden_layers m) as [|l ls]; [congruence|].
  cbn [run_layers].
  destruct (past_kv_at past_kvs 0) as [pkv|] eqn:Hat; cbn [bind]; [|discriminate].
  destruct (DecoderBlock_forward l a pkv true) as [[y e]|] eqn:Hb;
    cbn [bind]; [|discriminate].
  apply DecoderBlock_shape in Hb as [_ ->].
  destruct (run_layers ls 1 y past_kvs true) as [[z c']|]; cbn [bind]; [|discriminate].
  intros H; injection H as _ <-. cbn [past_length].
  rewrite length_app, k_rows_length. unfold LayerNorm_forward. rewrite length_map, La.
  f_equal. unfold past_kv_at in Hat.
  destruct past_kvs as [[|[k v] kvs]|]; simpl in Hat; try discriminate;
    injection Hat as <-; reflexivity.
Qed.

Context {Laws : ScalarLaws Sc}.

Lemma Transformer_forward_at_split cfg (m : Transformer) p (x1 x2 : list nat) past_kvs :
  wf_Transformer cfg m = true -> x1 <> [] -> x2 <> [] ->
  Transformer_forward_at p m (x1 ++ x2) past_kvs true
  = ('(l1, c1) <- Transformer_forward_at p m x1 past_kvs true ;;
     '(l2, c2) <- Transformer_forward_at (p + length x1) m x2 c1 true ;;
     Some (l1 ++ l2, c2)).
Proof.
  intros wf H1 H2. apply wf_layers in wf.
  unfold Transformer_forward_at, embedding.
  rewrite length_app, seq_app, !traverse_app.
  destruct (traverse (nth_error (token_embed m)) x1) as [t1|] eqn:Ht1;
    cbn [bind]; [|reflexivity].
  destruct (traverse (nth_error (position_embed m)) (seq p (length x1))) as [p1|] eqn:Hp1;
    cbn [bind].
  2:{ destruct (traverse (nth_error (token_embed m)) x2); reflexivity. }
  apply traverse_length in Ht1, Hp1. rewrite length_seq in Hp1.
  assert (N1 : tensor_add t1 p1 <> []).
  { apply nonempty_length with (l := x1); [assumption|].
    rewrite tensor_add_length; congruence. }
  destruct (traverse (nth_error (token_embed m)) x2) as [t2|] eqn:Ht2; cbn [bind].
  2:{ destruct (run_layers (hidden_layers m) 0 (tensor_add t1 p1) past_kvs true)
        as [[y1 c1]|]; reflexivity. }
  destruct (traverse (nth_error (position_embed m)) (seq (p + length x1) (length x2)))
    as [p2|] eqn:Hp2; cbn [bind].
  2:{ destruct (run_layers (hidden_layers m) 0 (tensor_add t1 p1) past_kvs true)
        as [[y1 c1]|]; reflexivity. }
  apply traverse_length in Ht2, Hp2. rewrite length_seq in Hp2.
  assert (N2 : tensor_add t2 p2 <> []).
  { apply nonempty_length with (l := x2); [assumption|].
    rewrite tensor_add_length; congruence. }
  rewrite tensor_add_app by congruence.
  rewrite run_layers_split with (h := cfg_hidden_size cfg) (ff := cfg_ff_hidden_size cfg)
                                (pre := []) by (assumption || reflexivity).
  destruct (run_layers (hidden_layers m) 0 (tensor_add t1 p1) past_kvs true)
    as [[y1 c1]|]; cbn [bind app]; [|reflexivity].
  destruct (run_layers (hidden_layers m) 0 (tensor_add t2 p2) (Some c1) true)
    as [[y2 c2]|]; cbn [bind]; [|reflexivity].
  unfold nn_LayerNorm_forward. rewrite !map_app. reflexivity.
Qed.

(** A call on [x1 ++ x2] is a call on [x1] followed by a call on [x2] that
    is given the cache the first call returned. *)
Lemma Transformer_forward_split cfg (m : Transformer) (x1 x2 : list nat) past_kvs :
  wf_Transformer cfg m = true -> hidden_layers m <> [] -> x1 <> [] -> x2 <> [] ->
  Transformer_forward m (x1 ++ x2) past_kvs true
  = ('(l1, c1) <- Transformer_forward m x1 past_kvs true ;;
     '(l2, c2) <- Transformer_forward m x2 c1 true ;;
     Some (l1 ++ l2, c2)).
Proof.
  intros wf Hl H1 H2. rewrite !Transformer_forward_at_eq.
  rewrite Transformer_forward_at_split with (cfg := cfg) by assumption.
  destruct (Transformer_forward_at (past_length past_kvs) m x1 past_kvs true)
    as [[l1 c1]|] eqn:Hf; cbn [bind]; [|reflexivity].
  rewrite Transformer_forward_at_eq.
  rewrite (past_length_next _ _ _ Hl H1 Hf). reflexivity.
Qed.

Lemma incremental_forward cfg (m : Transformer) (chunks : list (list nat)) :
  wf_Transformer cfg m = true -> hidden_layers m <> [] ->
  chunks <> [] -> Forall (fun chunk => chunk <> []) chunks ->
  forall past_kvs,
  incremental m chunks past_kvs = Transformer_forward m (concat chunks) past_kvs true.
Proof.
  intros wf Hl Hne Hall.
  induction chunks as [|c cs IH]; [congruence|]. intros past_kvs.
  inversion Hall as [|? ? Hc Hcs]; subst.
  destruct cs as [|c' cs].
  - simpl. rewrite app_nil_r.
    destruct (Transformer_forward m c past_kvs true) as [[l p]|]; cbn [bind];
      [rewrite app_nil_r|]; reflexivity.
  - assert (Hcat : concat (c' :: cs) <> []).
    { inversion Hcs; subst. simpl. destruct c'; simpl; congruence. }
    change (concat (c :: c' :: cs)) with (c ++ concat (c' :: cs)).
    rewrite Transformer_forward_split with (cfg := cfg) by assumption.
    cbn [incremental].
    destruct (Transformer_forward m c past_kvs true) as [[l p]|]; cbn [bind];
      [|reflexivity].
    rewrite <- IH by (assumption || discriminate). reflexivity.
Qed.

End TransformerSplit.

Section Stateless.

Context {Sc : Scalar}.

(** [use_cache] only selects what is returned. *)
Lemma attention_use_cache (self : SingleHeadSelfAttention) x past_kv :
  SingleHeadSelfAttention_forward self x past_kv false
  = ('(o, _) <- SingleHeadSelfAttention_forward self x past_kv true ;; Some (o, None)).
Proof.
  unfold SingleHeadSelfAttention_forward.
  destruct (negb _); [reflexivity|].
  destruct (match past_kv with Some _ => _ | None => _ end) as [[k v]|];
    cbn [bind]; [|reflexivity].
  destruct (masked_fill _ _); cbn [bind]; [|reflexivity].
  destruct (matmul _ _ _ _); reflexivity.
Qed.

Lemma DecoderBlock_use_cache (self : DecoderBlock) x :
  DecoderBlock_forward self x None false
  = ('(y, _) <- DecoderBlock_forward self x None true ;; Some (y, None)).
Proof.
  unfold DecoderBlock_forward. rewrite attention_use_cache.
  destruct (SingleHeadSelfAttention_forward _ _ _ true) as [[o e]|]; reflexivity.
Qed.

Lemma DecoderBlock_cached_entry (self : DecoderBlock) x past_kv y e :
  DecoderBlock_forward self x past_kv true = Some (y, e) -> exists k v, e = Some (k, v).
Proof.
  unfold DecoderBlock_forward, SingleHeadSelfAttention_forward.
  destruct (negb _); [discriminate|].
  destruct (match past_kv with Some _ => _ | None => _ end) as [[k v]|];
    cbn [bind]; [|discriminate].
  destruct (masked_fill _ _); cbn [bind]; [|discriminate].
  destruct (matmul _ _ _ _); cbn [bind]; [|discriminate].
  intros H; injection H as _ <-. eauto.
Qed.

Lemma run_layers_use_cache (layers : list DecoderBlock) :
  forall i x,
  run_layers layers i x None false
  = ('(y, _) <- run_layers layers i x None true ;; Some (y, [])).
Proof.
  induction layers as [|l ls IH]; intros i x; [reflexivity|].
  cbn [run_layers past_kv_at bind]. rewrite DecoderBlock_use_cache.
  destruct (DecoderBlock_forward l x None true) as [[y e]|]; cbn [bind]; [|reflexivity].
  rewrite IH.
  destruct (run_layers ls (S i) y None true) as [[z c]|]; reflexivity.
Qed.

(** The stateless call returns the logits of the call that also returns the
    keys and values. *)
Lemma Transformer_forward_stateless (m : Transformer) input_ids :
  Transformer_forward m input_ids None false
  = ('(logits, _) <- Transformer_forward m input_ids None true ;; Some (logits, None)).
Proof.
  unfold Transformer_forward.
  destruct (embedding (token_embed m) input_ids); cbn [bind]; [|reflexivity].
  destruct (embedding (position_embed m) _); cbn [bind]; [|reflexivity].
  rewrite run_layers_use_cache.
  destruct (run_layers _ _ _ None true) as [[y c]|]; reflexivity.
Qed.

End Stateless.

Section Shapes.

Context {Sc : Scalar}.

Lemma past_kv_at_lengths n past_kvs i pkv :
  cache_lengths n past_kvs -> past_kv_at past_kvs i = Some pkv ->
  length (past_keys pkv) = n /\ length (past_values pkv) = n.
Proof.
  unfold past_kv_at, cache_lengths. destruct past_kvs as [kvs|].
  - intros Hall. destruct (nth_error kvs i) as [[k v]|] eqn:Hn; [|discriminate].
    intros H; injection H as <-. apply nth_error_In in Hn.
    unfold total_length in Hall. rewrite Forall_forall in Hall.
    apply (Hall _ Hn).
  - intros -> H; injection H as <-. auto.
Qed.

Lemma run_layers_lengths n (layers : list DecoderBlock) :
  forall i x past_kvs y c,
  cache_lengths n past_kvs ->
  run_layers layers i x past_kvs true = Some (y, c) ->
  length c = length layers /\ total_length (n + length x) c.
Proof.
  induction layers as [|l ls IH]; intros i x past_kvs y c Hinv; cbn [run_layers].
  - intros H; injection H as _ <-. split; [reflexivity | constructor].
  - destruct (past_kv_at past_kvs i) as [pkv|] eqn:Hat; cbn [bind]; [|discriminate].
    destruct (DecoderBlock_forward l x pkv true) as [[x' e]|] eqn:Hb;
      cbn [bind]; [|discriminate].
    apply DecoderBlock_shape in Hb as [Hlen ->].
    destruct (run_layers ls (S i) x' past_kvs true) as [[z c']|] eqn:Hr;
      cbn [bind]; [|discriminate].
    intros H; injection H as _ <-.
    apply IH in Hr as [Hc Hall]; [|exact Hinv]. rewrite Hlen in Hall.
    pose proof (@past_kv_at_lengths n past_kvs i pkv Hinv Hat) as [Hk Hv].
    split; [simpl; congruence|].
    constructor; [|exact Hall]. cbn [fst snd].
    rewrite !length_app, k_rows_length, v_rows_length.
    unfold LayerNorm_forward. rewrite length_map. lia.
Qed.

Lemma Transformer_forward_lengths n (m : Transformer) x past_kvs logits c :
  cache_lengths n past_kvs ->
  Transformer_forward m x past_kvs true = Some (logits, c) ->
  exists kvs, c = Some kvs /\ length kvs = length (hidden_layers m)
              /\ total_length (n + length x) kvs.
Proof.
  intros Hinv. rewrite Transformer_forward_at_eq. unfold Transformer_forward_at.
  destruct (embedding (token_embed m) x) as [tok|] eqn:Ht; cbn [bind]; [|discriminate].
  destruct (embedding (position_embed m) _) as [pos|] eqn:Hp; cbn [bind]; [|discriminate].
  apply embedding_length in Ht, Hp. rewrite length_seq in Hp.
  destruct (run_layers _ _ _ _ _) as [[y c']|] eqn:Hr; cbn [bind]; [|discriminate].
  intros H; injection H as _ <-.
  apply run_layers_lengths with (n := n) in Hr as [Hc Hall]; [|exact Hinv].
  rewrite tensor_add_length in Hall by congruence. rewrite Ht in Hall. eauto.
Qed.

Lemma incremental_app (m : Transformer) (cs1 cs2 : list (list nat)) :
  forall past_kvs,
  incremental m (cs1 ++ cs2) past_kvs
  = ('(l1, c1) <- incremental m cs1 past_kvs ;;
     '(l2, c2) <- incremental m cs2 c1 ;;
     Some (l1 ++ l2, c2)).
Proof.
  induction cs1 as [|c cs1 IH]; intros past_kvs; cbn [app incremental bind].
  - destruct (incremental m cs2 past_kvs) as [[l2 c2]|]; reflexivity.
  - destruct (Transformer_forward m c past_kvs true) as [[l p]|]; cbn [bind];
      [|reflexivity].
    rewrite IH. destruct (incremental m cs1 p) as [[l1 c1]|]; cbn [bind]; [|reflexivity].
    destruct (incremental m cs2 c1) as [[l2 c2]|]; cbn [bind]; [|reflexivity].
    rewrite app_assoc. reflexivity.
Qed.

Lemma cache_inv_lengths m n past_kvs : cache_inv m n past_kvs -> cache_lengths n past_kvs.
Proof. destruct past_kvs; simpl; tauto. Qed.

Lemma incremental_lengths (m : Transformer) (chunks : list (list nat)) :
  forall n past_kvs logits c,
  cache_inv m n past_kvs ->
  incremental m chunks past_kvs = Some (logits, c) ->
  cache_inv m (n + length (concat chunks)) c.
Proof.
  induction chunks as [|ch chunks IH]; intros n past_kvs logits c Hinv;
    cbn [incremental concat].
  - intros H; injection H as _ <-. rewrite Nat.add_0_r. assumption.
  - destruct (Transformer_forward m ch past_kvs true) as [[l p]|] eqn:Hf;
      cbn [bind]; [|discriminate].
    destruct (incremental m chunks p) as [[lr pr]|] eqn:Hi; cbn [bind]; [|discriminate].
    intros H; injection H as _ <-.
    apply Transformer_forward_lengths with (n := n) in Hf as (kvs & -> & Hn & Hall);
      [|apply cache_inv_lengths with (m := m); assumption].
    apply (IH (n + length ch) (Some kvs)) in Hi; [|split; assumption].
    rewrite length_app, Nat.add_assoc. exact Hi.
Qed.

End Shapes.

Section Decoding.

Context {Sc : Scalar}.

(** One row of logits per input token. *)
Lemma Transformer_forward_rows (m : Transformer) x past_kvs logits c :
  Transformer_forward m x past_kvs true = Some (logits, c) ->
  length logits = length x.
Proof.
  rewrite Transformer_forward_at_eq. unfold Transformer_forward_at.
  destruct (embedding (token_embed m) x) as [tok|] eqn:Ht; cbn [bind]; [|discriminate].
  destruct (embedding (position_embed m) _) as [pos|] eqn:Hp; cbn [bind]; [|discriminate].
  apply embedding_length in Ht, Hp. rewrite length_seq in Hp.
  destruct (run_layers _ _ _ _ _) as [[y c']|] eqn:Hr; cbn [bind]; [|discriminate].
  apply run_layers_rows in Hr. rewrite tensor_add_length in Hr by congruence.
  intros H; injection H as <- _.
  unfold nn_LayerNorm_forward. rewrite !length_map. congruence.
Qed.

Lemma next_token_app (l1 l2 : list (list scalar)) :
  l2 <> [] -> next_token (l1 ++ l2) = next_token l2.
Proof.
  intros H. unfold next_token. rewrite rev_app_distr.
  destruct (rev l2) as [|a r] eqn:E; [|reflexivity].
  apply (f_equal (@rev _)) in E. rewrite rev_involutive in E. simpl in E. congruence.
Qed.

Context {Laws : ScalarLaws Sc}.

Variables (cfg : Config) (m : Transformer).
Hypothesis wf : wf_Transformer cfg m = true.

(** The logits of a prefix do not depend on what follows it. *)
Lemma prefix_logits (p s : list nat) logits c :
  p <> [] ->
  Transformer_forward m (p ++ s) None false = Some (logits, c) ->
  exists lp cp, Transformer_forward m p None true = Some (lp, cp)
                /\ firstn (length p) logits = lp.
Proof.
  intros Hp. rewrite Transformer_forward_stateless.
  destruct (Transformer_forward m (p ++ s) None true) as [[L c']|] eqn:Hf;
    cbn [bind]; [|discriminate].
  intros H; injection H as <- _.
  destruct s as [|t s].
  - rewrite app_nil_r in Hf. exists L, c'. split; [assumption|].
    apply Transformer_forward_rows in Hf. rewrite <- Hf. apply firstn_all.
  - rewrite Transformer_forward_at_eq in Hf. cbn [past_length] in Hf.
    rewrite Transformer_forward_at_split with (cfg := cfg) in Hf
      by (assumption || discriminate).
    destruct (Transformer_forward_at 0 m p None true) as [[l1 c1]|] eqn:H1;
      cbn [bind] in Hf; [|discriminate].
    destruct (Transformer_forward_at _ m (t :: s) c1 true) as [[l2 c2]|];
      cbn [bind] in Hf; [|discriminate].
    injection Hf as <- _. exists l1, c1.
    change 0 with (past_length (@None cache)) in H1.
    rewrite <- Transformer_forward_at_eq in H1. split; [exact H1|].
    apply Transformer_forward_rows in H1. rewrite <- H1.
    rewrite firstn_app, Nat.sub_diag, firstn_all. simpl. apply app_nil_r.
Qed.

Hypothesis layers : hidden_layers m <> [].

Lemma synced_forward input_ids past_kvs generated :
  synced m input_ids past_kvs generated ->
  exists lp,
    Transformer_forward m generated None true
    = ('(l, c) <- Transformer_forward m input_ids past_kvs true ;; Some (lp ++ l, c)).
Proof.
  intros (Hin & pre & -> & [[-> ->] | (Hpre & lp & Hf)]).
  - exists []. cbn [app].
    destruct (Transformer_forward m input_ids None true) as [[l c]|]; reflexivity.
  - exists lp. rewrite Transformer_forward_split with (cfg := cfg) by assumption.
    rewrite Hf. reflexivity.
Qed.

Lemma loops_agree (n : nat) :
  forall input_ids past_kvs generated,
  synced m input_ids past_kvs generated ->
  greedy_decode_with_kv_cache_loop n m input_ids past_kvs generated
  = greedy_decode_loop n m generated.
Proof.
  induction n as [|n IH]; intros input_ids past_kvs generated Hs; [reflexivity|].
  cbn [greedy_decode_with_kv_cache_loop greedy_decode_loop].
  rewrite Transformer_forward_stateless.
  destruct (synced_forward Hs) as (lp & E). rewrite E.
  destruct (Transformer_forward m input_ids past_kvs true) as [[l c]|] eqn:Hf;
    cbn [bind]; [|reflexivity].
  destruct Hs as (Hin & pre & Hgen & Hpre).
  assert (Hl : l <> []).
  { apply nonempty_length with (l := input_ids); [assumption|].
    apply Transformer_forward_rows in Hf. assumption. }
  rewrite next_token_app by assumption.
  destruct (next_token l) as [t|]; cbn [bind]; [|reflexivity].
  apply IH. split; [discriminate|].
  exists generated. split; [reflexivity|]. right. split.
  - subst generated. destruct pre, input_ids; simpl; congruence.
  - exists (lp ++ l). exact E.
Qed.

Lemma greedy_decode_agree (input_ids : list nat) (max_len : nat) :
  greedy_decode_with_kv_cache m input_ids max_len = greedy_decode m input_ids max_len.
Proof.
  unfold greedy_decode_with_kv_cache, greedy_decode.
  destruct input_ids as [|t ids].
  - (* an empty prompt: no last position to read in either loop *)
    destruct (max_len - length (@nil nat)) as [|n]; [reflexivity|].
    cbn [greedy_decode_with_kv_cache_loop greedy_decode_loop].
    rewrite Transformer_forward_stateless.
    destruct (Transformer_forward m [] None true) as [[l c]|] eqn:Hf;
      cbn [bind]; [|reflexivity].
    apply Transformer_forward_rows in Hf. destruct l; [reflexivity|discriminate].
  - apply loops_agree. split; [discriminate|].
    exists []. split; [reflexivity|]. left. auto.
Qed.

End Decoding.

(** ** Calls that cannot raise *)

Section Success.

Context {Sc : Scalar}.

Lemma has_width_forall w (x : list (list scalar)) :
  has_width w x = true <-> (forall r, In r x -> length r = w).
Proof.
  unfold has_width. rewrite forallb_forall.
  split; intros H r Hr; [apply Nat.eqb_eq | apply Nat.eqb_eq]; auto.
Qed.

Lemma embedding_succeeds w (table : list (list scalar)) (ids : list nat) :
  has_width w table = true ->
  Forall (fun t => t < length table) ids ->
  exists x, embedding table ids = Some x /\ has_width w x = true.
Proof.
  intros Hw. unfold embedding.
  induction ids as [|t ids IH]; intros Hall.
  - exists []. auto.
  - inversion Hall as [|? ? Ht Hids]; subst.
    destruct (IH Hids) as (x & E & Hx).
    destruct (nth_error table t) as [r|] eqn:Hn.
    + exists (r :: x). cbn [traverse bind]. rewrite Hn, E. cbn [bind].
      split; [reflexivity|].
      simpl. rewrite Hx, andb_true_r. apply Nat.eqb_eq.
      apply nth_error_In in Hn. rewrite has_width_forall in Hw. auto.
    + apply nth_error_None in Hn. lia.
Qed.

Lemma tensor_add_width w (a b : list (list scalar)) :
  has_width w a = true -> has_width w b = true -> has_width w (tensor_add a b) = true.
Proof.
  unfold tensor_add. revert b; induction a as [|r a IH]; intros [|s b]; simpl; auto.
  rewrite !andb_true_iff, !Nat.eqb_eq. intros [Hr Ha] [Hs Hb].
  split; [|apply IH; assumption].
  rewrite zip_with_length, Hr, Hs. apply Nat.min_id.
Qed.

Lemma LayerNorm_forward_width w (ln : LayerNorm) (x : list (list scalar)) :
  wf_LayerNorm w ln = true -> has_width w x = true ->
  has_width w (LayerNorm_forward ln x) = true.
Proof.
  unfold wf_LayerNorm. rewrite andb_true_iff, !Nat.eqb_eq. intros [Hg Hb] Hx.
  rewrite has_width_forall in *. intros r Hr.
  apply in_map_iff in Hr as (a & <- & Ha). unfold LayerNorm_row.
  rewrite !zip_with_length, length_map, (Hx _ Ha), Hg, Hb, !Nat.min_id. reflexivity.
Qed.

Lemma MLP_forward_width h ff (m : MLP) (x : list (list scalar)) :
  wf_MLP h ff m = true -> has_width h (MLP_forward m x) = true.
Proof.
  unfold wf_MLP. rewrite andb_true_iff. intros [_ Hp].
  unfold MLP_forward. apply has_width_map. intros a.
  apply wf_Linear_length with (n_in := ff). assumption.
Qed.

Variables (h ff : nat).

Lemma DecoderBlock_succeeds (self : DecoderBlock) (x : list (list scalar)) :
  wf_DecoderBlock h ff self = true -> x <> [] -> has_width h x = true ->
  exists y e, DecoderBlock_forward self x None true = Some (y, Some e)
              /\ has_width h y = true.
Proof.
  unfold wf_DecoderBlock. rewrite !andb_true_iff. intros [[[wf1 wfa] wf2] wfm] Hx Hw.
  rewrite DecoderBlock_forward_cached.
  pose proof (wf_hidden_size h (attn self) wfa) as Hh.
  rewrite attention_char
    by (apply nonempty_length with (l := x); [assumption | apply length_map]).
  rewrite Hh, LayerNorm_forward_width by assumption. cbn [past_ok andb bind].
  eexists _, _. split; [reflexivity|].
  unfold block_post. apply tensor_add_width.
  - apply LayerNorm_forward_width; [assumption|].
    apply tensor_add_width; [apply LayerNorm_forward_width; assumption|].
    unfold attend. apply has_width_map. intros a. rewrite <- Hh.
    apply wf_c_proj with (h := h). assumption.
  - apply MLP_forward_width with (ff := ff). assumption.
Qed.

Lemma run_layers_succeeds (layers : list DecoderBlock) :
  forallb (wf_DecoderBlock h ff) layers = true ->
  forall i x, x <> [] -> has_width h x = true ->
  exists y c, run_layers layers i x None true = Some (y, c).
Proof.
  induction layers as [|l ls IH]; intros wf i x Hx Hw; cbn [run_layers].
  - eauto.
  - simpl in wf. apply andb_true_iff in wf as [wfl wfls].
    cbn [past_kv_at bind].
    destruct (DecoderBlock_succeeds l wfl Hx Hw) as (y & e & Hb & Hy).
    rewrite Hb. cbn [bind].
    destruct (IH wfls (S i) y) as (z & c & Hr); [|assumption|].
    + apply DecoderBlock_shape in Hb as [Hlen _].
      apply nonempty_length with (l := x); assumption.
    + rewrite Hr. cbn [bind]. eauto.
Qed.

End Success.

Section SuccessTransformer.

Context {Sc : Scalar}.
Variables (cfg : Config) (m : Transformer).
Hypothesis wf : wf_Transformer cfg m = true.

(** Within the vocabulary and within [max_seq_len], a call without a past
    returns. *)
Lemma Transformer_forward_succeeds (input_ids : list nat) :
  input_ids <> [] ->
  Forall (fun t => t < cfg_vocab_size cfg) input_ids ->
  length input_ids <= cfg_max_seq_len cfg ->
  exists logits kvs,
    Transformer_forward m input_ids None true = Some (logits, Some kvs)
    /\ has_width (cfg_vocab_size cfg) logits = true.
Proof.
  intros Hne Hids Hlen.
  pose proof wf as wf'. unfold wf_Transformer in wf'. cbv zeta in wf'.
  rewrite !andb_true_iff, !Nat.eqb_eq in wf'.
  destruct wf' as [[[[[[[Hv Hvw] Hp] Hpw] Hn] Hl] Hf] Hh].
  rewrite Transformer_forward_at_eq. unfold Transformer_forward_at. cbn [past_length].
  destruct embedding_succeeds
    with (w := cfg_hidden_size cfg) (table := token_embed m) (ids := input_ids)
    as (tok & Ht & Htw); [assumption | rewrite Hv; assumption |].
  destruct embedding_succeeds
    with (w := cfg_hidden_size cfg) (table := position_embed m)
         (ids := seq 0 (length input_ids))
    as (pos & Hpos & Hposw); [assumption | |].
  { rewrite Forall_forall. intros t Hin. apply in_seq in Hin. lia. }
  rewrite Ht, Hpos. cbn [bind].
  pose proof (embedding_length _ _ Ht) as Lt.
  pose proof (embedding_length _ _ Hpos) as Lp. rewrite length_seq in Lp.
  destruct run_layers_succeeds
    with (h := cfg_hidden_size cfg) (ff := cfg_ff_hidden_size cfg)
         (layers := hidden_layers m) (i := 0) (x := tensor_add tok pos)
    as (y & c & Hr); [assumption | | |].
  { apply nonempty_length with (l := input_ids); [assumption|].
    rewrite tensor_add_length; congruence. }
  { apply tensor_add_width; assumption. }
  rewrite Hr. cbn [bind]. eexists _, _. split; [reflexivity|].
  apply has_width_map. intros a.
  apply wf_Linear_length with (n_in := cfg_hidden_size cfg). assumption.
Qed.

End SuccessTransformer.

Section DecodeSuccess.

Context {Sc : Scalar}.

Lemma argmax_from_lt (l : list scalar) :
  forall best bv i, best < i -> argmax_from best bv i l < i + length l.
Proof.
  induction l as [|a l IH]; intros best bv i Hb; cbn [argmax_from length].
  - lia.
  - destruct (ltb bv a).
    + specialize (IH i a (S i)). lia.
    + specialize (IH best bv (S i)). lia.
Qed.

Lemma argmax_lt (l : list scalar) t : argmax l = Some t -> t < length l.
Proof.
  destruct l as [|a l]; [discriminate|]. cbn [argmax]. intros H; injection H as <-.
  pose proof (argmax_from_lt l a (best := 0) (i := 1)). simpl. lia.
Qed.

Lemma next_token_succeeds v (logits : list (list scalar)) :
  logits <> [] -> has_width v logits = true -> 1 <= v ->
  exists t, next_token logits = Some t /\ t < v.
Proof.
  intros Hne Hw Hv. unfold next_token.
  destruct (rev logits) as [|last r] eqn:E.
  - apply (f_equal (@rev _)) in E. rewrite rev_involutive in E. contradiction.
  - assert (Hin : In last logits) by (apply in_rev; rewrite E; left; reflexivity).
    rewrite has_width_forall in Hw. specialize (Hw _ Hin).
    destruct last as [|a last]; [simpl in Hw; lia|].
    eexists. split; [reflexivity|]. rewrite <- Hw.
    apply argmax_lt. reflexivity.
Qed.

Variables (cfg : Config) (m : Transformer).
Hypothesis wf : wf_Transformer cfg m = true.

Lemma greedy_decode_loop_succeeds (n : nat) :
  forall input_ids,
  input_ids <> [] ->
  Forall (fun t => t < cfg_vocab_size cfg) input_ids ->
  n = 0 \/ length input_ids + n <= S (cfg_max_seq_len cfg) ->
  exists out, greedy_decode_loop n m input_ids = Some out
              /\ length out = length input_ids + n
              /\ firstn (length input_ids) out = input_ids.
Proof.
  induction n as [|n IH]; intros ids Hne Hids Hlen; cbn [greedy_decode_loop].
  - exists ids. rewrite Nat.add_0_r, firstn_all. auto.
  - destruct Hlen as [Hlen|Hlen]; [discriminate|].
    rewrite Transformer_forward_stateless.
    destruct (Transformer_forward_succeeds cfg m wf Hne Hids) as (logits & kvs & Hf & Hw);
      [lia|].
    rewrite Hf. cbn [bind].
    assert (Hv : 1 <= cfg_vocab_size cfg).
    { destruct ids as [|t ids]; [congruence|]. inversion Hids; subst. lia. }
    destruct (next_token_succeeds (logits := logits) (v := cfg_vocab_size cfg))
      as (t & Ht & Htv); [|assumption|assumption|].
    { apply nonempty_length with (l := ids); [assumption|].
      apply Transformer_forward_rows in Hf. assumption. }
    rewrite Ht. cbn [bind].
    destruct (IH (ids ++ [t])) as (out & Ho & Hlo & Hfo).
    + destruct ids; discriminate.
    + apply Forall_app. split; [assumption | repeat constructor; assumption].
    + right. rewrite length_app. simpl. lia.
    + exists out. rewrite length_app in *. simpl in *.
      split; [assumption|]. split; [lia|].
      apply (f_equal (firstn (length ids))) in Hfo.
      rewrite firstn_firstn in Hfo.
      replace (Nat.min (length ids) (length ids + 1)) with (length ids) in Hfo by lia.
      rewrite Hfo, firstn_app, Nat.sub_diag, firstn_all. simpl. apply app_nil_r.
Qed.

End DecodeSuccess.

Section RealFacts.

Local Open Scope R_scope.

#[export] Instance RLaws : ScalarLaws RScalar.
Proof.
  split; simpl; intros x; [lra | lra | unfold Rdiv; lra].
Qed.

Lemma sqrt_quarter_eps : 0 < R_sqrt.sqrt (1 / 4 + eps_default) < 6 / 10.
Proof.
  unfold eps_default. split.
  - apply sqrt_lt_R0. lra.
  - replace (6 / 10) with (R_sqrt.sqrt ((6 / 10) * (6 / 10)))
      by (apply sqrt_square; lra).
    apply sqrt_lt_1_alt. lra.
Qed.

Lemma zl_d_bound : 1 / 2 < zl_d.
Proof.
  unfold zl_d. pose proof sqrt_quarter_eps as [H0 H1].
  set (s := R_sqrt.sqrt (1 / 4 + eps_default)) in *.
  assert (Hi : 1 < / s).
  { rewrite <- Rinv_1. apply Rinv_lt_contravar; lra. }
  unfold Rdiv. lra.
Qed.


Lemma zero_layer_logits_0 :
  Transformer_forward zero_layer_model [0%nat] None true
  = Some ([[zl_d; - zl_d]], Some []).
Proof.
  cbn. norm_sqrt. rows_eq.
Qed.

Lemma zero_layer_logits_01 :
  Transformer_forward zero_layer_model [0%nat; 0%nat] None true
  = Some ([[zl_d; - zl_d]; [- zl_d; zl_d]], Some []).
Proof.
  cbn. norm_sqrt. rows_eq.
Qed.

(** With no layer the returned cache is the empty list, which the next
    call reads as "no past": the position ids start again at 0. *)
Lemma zero_layer_restart (ids : list nat) :
  Transformer_forward zero_layer_model ids (Some []) true
  = Transformer_forward zero_layer_model ids None true.
Proof. reflexivity. Qed.

Lemma next_token_pos : next_token (Sc := RScalar) [[zl_d; - zl_d]] = Some 0%nat.
Proof.
  pose proof zl_d_bound. cbn. unfold Rltb.
  destruct (Rlt_dec zl_d (- zl_d)); [lra | reflexivity].
Qed.

Lemma next_token_neg :
  next_token (Sc := RScalar) [[zl_d; - zl_d]; [- zl_d; zl_d]] = Some 1%nat.
Proof.
  pose proof zl_d_bound. cbn. unfold Rltb.
  destruct (Rlt_dec (- zl_d) zl_d); [reflexivity | lra].
Qed.

Lemma zero_layer_greedy_decode :
  greedy_decode zero_layer_model [0%nat] 3 = Some [0; 0; 1]%nat.
Proof.
  unfold greedy_decode. change (3 - length [0%nat])%nat with 2%nat.
  cbn [greedy_decode_loop].
  rewrite Transformer_forward_stateless, zero_layer_logits_0. cbn [bind].
  rewrite next_token_pos. cbn [bind app].
  rewrite Transformer_forward_stateless, zero_layer_logits_01. cbn [bind].
  rewrite next_token_neg. reflexivity.
Qed.

Lemma zero_layer_greedy_decode_with_kv_cache :
  greedy_decode_with_kv_cache zero_layer_model [0%nat] 3 = Some [0; 0; 0]%nat.
Proof.
  unfold greedy_decode_with_kv_cache. change (3 - length [0%nat])%nat with 2%nat.
  cbn [greedy_decode_with_kv_cache_loop].
  rewrite zero_layer_logits_0. cbn [bind].
  rewrite next_token_pos. cbn [bind app].
  rewrite zero_layer_restart, zero_layer_logits_0. cbn [bind].
  rewrite next_token_pos. reflexivity.
Qed.

Lemma zero_layer_incremental :
  incremental zero_layer_model [[0%nat]; [0%nat]] None
  = Some ([[zl_d; - zl_d]; [zl_d; - zl_d]], Some []).
Proof.
  cbn [incremental]. rewrite zero_layer_logits_0. cbn [bind].
  rewrite zero_layer_restart, zero_layer_logits_0. reflexivity.
Qed.

End RealFacts.

Section Failures.

Context {Sc : Scalar}.







End Failures.

Section Claims.

Context {Sc : Scalar}.

Lemma wf_has_layers cfg (m : Transformer) :
  wf_Transformer cfg m = true -> 1 <= cfg_num_hidden_layers cfg -> hidden_layers m <> [].
Proof.
  unfold wf_Transformer. cbv zeta. rewrite !andb_true_iff, !Nat.eqb_eq.
  intros [[[[[[[_ _] _] _] Hn] _] _] _] H1.
  destruct (hidden_layers m); [simpl in Hn; lia | discriminate].
Qed.

Lemma nth_zip_with (A B C : Type) (f : A -> B -> C) (l1 : list A) (l2 : list B) :
  forall i da db dc,
  i < length l1 -> i < length l2 ->
  nth i (zip_with f l1 l2) dc = f (nth i l1 da) (nth i l2 db).
Proof.
  revert l2; induction l1 as [|a l1 IH]; intros [|b l2] i da db dc H1 H2;
    simpl in *; try lia.
  destruct i; [reflexivity|]. apply IH; lia.
Qed.

Lemma nth_map_in (A B : Type) (f : A -> B) (l : list A) i da db :
  i < length l -> nth i (map f l) db = f (nth i l da).
Proof.
  revert i; induction l as [|a l IH]; intros i H; simpl in *; [lia|].
  destruct i; [reflexivity|]. apply IH; lia.
Qed.

(** Claim C3, as amended: the two normalizations of every decoder block
    ([ln_1], [ln_2], the notebook's [LayerNorm]) compute
    [(x - mean) / (std + eps) * gamma + beta] over the hidden dimension, with
    [eps] added to the standard deviation; the final normalization [ln_f] is
    [torch.nn.LayerNorm] and computes
    [(x - mean) / sqrt(var + eps) * weight + bias], with [eps] added to the
    variance under the square root. *)
Theorem normalizers_formula :
  (forall (block : DecoderBlock) (ln : LayerNorm) (x : list scalar) (i : nat),
      ln = ln_1 block \/ ln = ln_2 block ->
      length (gamma ln) = length x -> length (beta ln) = length x -> i < length x ->
      nth i (LayerNorm_row ln x) zero
      = Normalizer_spec (gamma ln) (beta ln) (eps ln) x i)
  /\ (forall (m : Transformer) (x : list scalar) (i : nat),
      length (nn_weight (ln_f m)) = length x -> length (nn_bias (ln_f m)) = length x ->
      i < length x ->
      nth i (nn_LayerNorm_row (ln_f m) x) zero
      = nn_LayerNorm_spec (nn_weight (ln_f m)) (nn_bias (ln_f m)) (nn_eps (ln_f m)) x i).
Proof.
  split.
  - intros block ln x i _ Hg Hb Hi.
    unfold LayerNorm_row, Normalizer_spec.
    rewrite nth_zip_with with (da := zero) (db := zero)
      by (rewrite ?zip_with_length, ?length_map; lia).
    rewrite nth_zip_with with (da := zero) (db := zero)
      by (rewrite ?length_map; lia).
    rewrite nth_map_in with (da := zero) by assumption. reflexivity.
  - intros m x i Hg Hb Hi.
    unfold nn_LayerNorm_row, nn_LayerNorm_spec.
    rewrite nth_zip_with with (da := zero) (db := zero)
      by (rewrite ?zip_with_length, ?length_map; lia).
    rewrite nth_zip_with with (da := zero) (db := zero)
      by (rewrite ?length_map; lia).
    rewrite nth_map_in with (da := zero) by assumption. reflexivity.
Qed.

(** Claim C5: [DecoderBlock.forward] computes [x1 = Normalize(x)],
    [a = Attention(x1, cache)], [x2 = x1 + a], [x3 = Normalize(x2)] and
    [out = x3 + FeedForward(x3)]: both residuals are added to the normalized
    value; the stateless call returns the same [out] without the entry. *)
Theorem DecoderBlock_forward_spec (self : DecoderBlock) (x : list (list scalar))
    (past_kv : option kv) :
  DecoderBlock_forward self x past_kv true = DecoderLayer_spec self x past_kv
  /\ DecoderBlock_forward self x None false
     = ('(out, _) <- DecoderLayer_spec self x None ;; Some (out, None)).
Proof.
  split.
  - unfold DecoderBlock_forward, DecoderLayer_spec.
    destruct (SingleHeadSelfAttention_forward _ _ _ _) as [[a e]|]; reflexivity.
  - rewrite DecoderBlock_use_cache.
    unfold DecoderBlock_forward, DecoderLayer_spec.
    destruct (SingleHeadSelfAttention_forward _ _ _ _) as [[a e]|]; reflexivity.
Qed.

(** Property X23.  The positions a call embeds its tokens at.
    [Transformer_forward_at p] is the forward pass that looks the tokens up
    at the positions [p, p + 1, ..].  A call without a cache is the pass at
    0; a call with a cache whose entries hold [n] positions each is the pass
    at [n]; and in an incremental run of a model with at least one layer,
    the call that follows the chunks [done] is the pass at the number of
    tokens processed so far. *)
Theorem forward_positions_continue (m : Transformer) (input_ids : list nat)
    (use_cache : bool) :
  Transformer_forward m input_ids None use_cache
  = Transformer_forward_at 0 m input_ids None use_cache
  /\ (forall (n : nat) (entry : kv) (kvs : cache),
        total_length n (entry :: kvs) ->
        Transformer_forward m input_ids (Some (entry :: kvs)) use_cache
        = Transformer_forward_at n m input_ids (Some (entry :: kvs)) use_cache)
  /\ (hidden_layers m <> [] ->
      forall (done : list (list nat)) logits c,
        incremental m done None = Some (logits, c) ->
        Transformer_forward m input_ids c use_cache
        = Transformer_forward_at (length (concat done)) m input_ids c use_cache).
Proof.
  split; [|split].
  - apply Transformer_forward_at_eq.
  - intros n [k v] kvs Hall. rewrite Transformer_forward_at_eq.
    inversion Hall as [|? ? [Hk _] _]; subst. reflexivity.
  - intros Hl done logits c Hi. rewrite Transformer_forward_at_eq. f_equal.
    apply incremental_lengths with (n := 0) in Hi; [|reflexivity].
    cbn [plus] in Hi. destruct c as [kvs|]; cbn [cache_inv past_length] in *.
    + destruct Hi as [Hn Hall].
      destruct kvs as [|[k v] kvs].
      * destruct (hidden_layers m); [congruence | discriminate].
      * inversion Hall as [|? ? [Hk _] _]; subst. cbn [fst] in Hk. congruence.
    + symmetry. exact Hi.
Qed.

(** Claim C8: cache length invariant.  At every point of an incremental
    run (after the chunks [done], whatever chunks [rest] follow), the cache
    holds one entry per layer and the keys and the values of every entry
    have exactly as many positions as tokens were processed. *)
Theorem cache_length_invariant (m : Transformer) (done rest : list (list nat))
    logits c :
  incremental m (done ++ rest) None = Some (logits, c) ->
  exists logits1 c1,
    incremental m done None = Some (logits1, c1)
    /\ cache_inv m (length (concat done)) c1.
Proof.
  rewrite incremental_app.
  destruct (incremental m done None) as [[l1 c1]|] eqn:H1; cbn [bind]; [|discriminate].
  intros _. exists l1, c1. split; [reflexivity|].
  apply incremental_lengths with (n := 0) (past_kvs := None) (logits := l1);
    [reflexivity | assumption].
Qed.


(** Claim C10: cache-prefix preservation.  Whenever the attention layer
    returns for a supplied entry [(past_k, past_v)], the returned keys and
    values start with [past_k] and [past_v] unchanged and continue with one
    row per input row; and the call does return for a non-empty input and an
    entry of the layer's width with as many keys as values. *)
Theorem cache_prefix_preserved (self : SingleHeadSelfAttention)
    (x past_k past_v : list (list scalar)) :
  (forall out entry,
      SingleHeadSelfAttention_forward self x (Some (past_k, past_v)) true
      = Some (out, entry) ->
      exists k v, entry = Some (k, v)
        /\ firstn (length past_k) k = past_k /\ firstn (length past_v) v = past_v
        /\ length k = length past_k + length x
        /\ length v = length past_v + length x)
  /\ (x <> [] -> has_width (hidden_size self) x = true ->
      has_width (hidden_size self) past_k = true ->
      has_width (hidden_size self) past_v = true ->
      length past_k = length past_v ->
      exists out entry,
        SingleHeadSelfAttention_forward self x (Some (past_k, past_v)) true
        = Some (out, entry)).
Proof.
  split.
  - intros out entry H. apply attention_shape in H as [_ ->].
    cbn [past_keys past_values]. eexists _, _. split; [reflexivity|].
    rewrite !firstn_app, !Nat.sub_diag, !firstn_all, !length_app.
    cbn [firstn]. rewrite !app_nil_r, k_rows_length, v_rows_length. auto.
  - intros Hx Hw Hk Hv Hlen. rewrite attention_char by assumption.
    cbn [past_ok]. rewrite Hw, Hk, Hv, Hlen, Nat.eqb_refl. cbn [andb].
    eexists _, _. reflexivity.
Qed.

(** The attention layer up to the mask, for an input of at least one row:
    the scores of the queries against the cached and the new keys, masked
    by the last [seq_len] rows of the lower-triangular matrix of size
    [total_len], then softmax, [attn @ v] and the projection. *)
Lemma attention_masked (self : SingleHeadSelfAttention) (x : list (list scalar))
    (past_kv : option kv) (use_cache : bool) :
  x <> [] ->
  has_width (hidden_size self) x = true ->
  past_ok (hidden_size self) past_kv = true ->
  SingleHeadSelfAttention_forward self x past_kv use_cache
  = (attn <- masked_fill
               (scores (hidden_size self) (q_rows self x)
                  (past_keys past_kv ++ k_rows self x))
               (causal_mask (length (past_keys past_kv) + length x) (length x)) ;;
     attn_output <- matmul (length (past_keys past_kv) + length x) (map softmax attn)
                      (hidden_size self) (past_values past_kv ++ v_rows self x) ;;
     Some (map (Linear_forward (c_proj self)) attn_output,
           if use_cache
           then Some (past_keys past_kv ++ k_rows self x,
                      past_values past_kv ++ v_rows self x)
           else None)).
Proof.
  intros Hx Hw Hok.
  unfold SingleHeadSelfAttention_forward. fold (has_width (hidden_size self) x).
  rewrite Hw. cbn [negb].
  fold (k_rows self x) (v_rows self x) (q_rows self x).
  destruct past_kv as [[pk pv]|]; cbn [past_ok past_keys past_values app] in *.
  - apply andb_true_iff in Hok as [Hwd Hl]. apply andb_true_iff in Hwd as [Hk Hv].
    unfold cat_rows. fold (has_width (hidden_size self) pk) (has_width (hidden_size self) pv).
    rewrite Hk, Hv. cbn [bind].
    rewrite length_app, k_rows_length.
    destruct (masked_fill _ _) as [a|]; cbn [bind]; [|reflexivity].
    destruct (matmul _ _ _ _) as [o|]; cbn [bind]; [|reflexivity].
    destruct use_cache; reflexivity.
  - cbn [bind length plus]. rewrite k_rows_length.
    destruct (masked_fill _ _) as [a|]; cbn [bind]; [|reflexivity].
    destruct (matmul _ _ _ _) as [o|]; cbn [bind]; [|reflexivity].
    destruct use_cache; reflexivity.
Qed.

Lemma tril_row_entry n r c : c < n -> nth c (tril_row n r) false = (c <=? r).
Proof.
  intros Hc. unfold tril_row.
  rewrite nth_map_in with (da := 0) by (rewrite length_seq; assumption).
  rewrite seq_nth by assumption. reflexivity.
Qed.

Lemma scores_entry h (Q K : list (list scalar)) j c :
  j < length Q -> c < length K ->
  nth c (nth j (scores h Q K) []) zero
  = div (dot (nth j Q []) (nth c K [])) (sqrt (of_nat h)).
Proof.
  intros Hj Hc. unfold scores.
  rewrite nth_map_in with (da := []) by assumption.
  rewrite nth_map_in with (da := []) by assumption. reflexivity.
Qed.

Lemma scores_row_length h (Q K : list (list scalar)) j :
  j < length Q -> length (nth j (scores h Q K) []) = length K.
Proof.
  intros Hj. unfold scores.
  rewrite nth_map_in with (da := []) by assumption. apply length_map.
Qed.

Lemma fill_row_entry (a : list scalar) (m : list bool) c :
  c < length a -> c < length m ->
  nth c (fill_row a m) None = if nth c m false then Some (nth c a zero) else None.
Proof.
  intros Ha Hm. unfold fill_row.
  rewrite nth_zip_with with (da := zero) (db := false) by assumption. reflexivity.
Qed.

Lemma softmax_entry (row : list (option scalar)) c :
  c < length row ->
  nth c (softmax row) zero = div (exp_ext (nth c row None)) (sum (map exp_ext row)).
Proof.
  intros Hc. unfold softmax.
  rewrite nth_map_in with (da := zero) by (rewrite length_map; assumption).
  rewrite nth_map_in with (da := None) by assumption. reflexivity.
Qed.

(** Claim C4: in a call of the attention layer with [P] cached positions
    and [S >= 1] new tokens, the mask is built for [total_len = P + S] and is
    the bottom [S] rows of the lower-triangular matrix of that size: it has
    [S] rows, and row [j] allows exactly the columns [c <= P + j].  It is
    applied to the scores: the masked score of query [j] at position [c] is
    the score itself for the [P] prior positions and the new positions
    [0..j], and [-inf] for every later position.  The call returns what
    these masked scores give through softmax, [attn @ v] and the projection
    (with the extended keys and values when [use_cache] is set), and the
    softmax weight of query [j] at position [c] has the numerator
    [exp(score)] up to position [P + j] and [exp(-inf) = 0] after it. *)
Theorem causal_mask_bottom_rows (self : SingleHeadSelfAttention)
    (x : list (list scalar)) (past_kv : option kv) (use_cache : bool) :
  x <> [] ->
  has_width (hidden_size self) x = true ->
  past_ok (hidden_size self) past_kv = true ->
  let P := length (past_keys past_kv) in
  let S := length x in
  let Q := q_rows self x in
  let K := past_keys past_kv ++ k_rows self x in
  let V := past_values past_kv ++ v_rows self x in
  let score j c := div (dot (nth j Q []) (nth c K [])) (sqrt (of_nat (hidden_size self))) in
  exists (mask : list (list bool)) (attn : list (list (option scalar))),
    mask = skipn P (tril (P + S))
    /\ length mask = S
    /\ (forall j c, j < S -> c < P + S -> nth c (nth j mask []) false = (c <=? P + j))
    /\ masked_fill (scores (hidden_size self) Q K) mask = Some attn
    /\ (forall j c, j < S -> c < P + S ->
          nth c (nth j attn []) None = if c <=? P + j then Some (score j c) else None)
    /\ SingleHeadSelfAttention_forward self x past_kv use_cache
       = (attn_output <- matmul (P + S) (map softmax attn) (hidden_size self) V ;;
          Some (map (Linear_forward (c_proj self)) attn_output,
                if use_cache then Some (K, V) else None))
    /\ (forall j c, j < S -> c < P + S ->
          nth c (nth j (map softmax attn) []) zero
          = div (if c <=? P + j then exp (score j c) else zero)
                (sum (map exp_ext (nth j attn [])))).
Proof.
  intros Hx Hw Hok P S Q K V score.
  assert (HS : 1 <= S) by (subst S; destruct x; simpl; [congruence | lia]).
  assert (LQ : length Q = S) by apply q_rows_length.
  assert (LK : length K = P + S)
    by (subst K P S; rewrite length_app, k_rows_length; reflexivity).
  assert (Hmask : causal_mask (P + S) S = map (tril_row (P + S)) (seq P S))
    by (apply causal_mask_rows; assumption).
  assert (Hfill : masked_fill (scores (hidden_size self) Q K) (causal_mask (P + S) S)
                  = Some (zip_with fill_row (scores (hidden_size self) Q K)
                            (causal_mask (P + S) S))).
  { rewrite Hmask. apply masked_fill_rows.
    rewrite length_map, length_seq, scores_length. congruence. }
  assert (Hbit : forall j c, j < S -> c < P + S ->
            nth c (nth j (causal_mask (P + S) S) []) false = (c <=? P + j)).
  { intros j c Hj Hc. rewrite Hmask.
    rewrite nth_map_in with (da := 0) by (rewrite length_seq; assumption).
    rewrite seq_nth by assumption. apply tril_row_entry. assumption. }
  assert (Hrow : forall j, j < S ->
            nth j (zip_with fill_row (scores (hidden_size self) Q K)
                     (causal_mask (P + S) S)) []
            = fill_row (nth j (scores (hidden_size self) Q K) [])
                       (nth j (causal_mask (P + S) S) [])).
  { intros j Hj. apply nth_zip_with.
    - rewrite scores_length. lia.
    - rewrite Hmask, length_map, length_seq. assumption. }
  assert (Lmrow : forall j, j < S -> length (nth j (causal_mask (P + S) S) []) = P + S).
  { intros j Hj. rewrite Hmask.
    rewrite nth_map_in with (da := 0) by (rewrite length_seq; assumption).
    apply tril_row_length. }
  assert (Hentry : forall j c, j < S -> c < P + S ->
            nth c (nth j (zip_with fill_row (scores (hidden_size self) Q K)
                            (causal_mask (P + S) S)) []) None
            = if c <=? P + j then Some (score j c) else None).
  { intros j c Hj Hc. rewrite Hrow by assumption.
    rewrite fill_row_entry
      by (rewrite ?scores_row_length, ?Lmrow; lia).
    rewrite Hbit by assumption.
    rewrite scores_entry by lia. reflexivity. }
  exists (causal_mask (P + S) S),
         (zip_with fill_row (scores (hidden_size self) Q K) (causal_mask (P + S) S)).
  split; [|split; [|split; [|split; [|split; [|split]]]]].
  - unfold causal_mask, last_rows, tril.
    destruct (Nat.eqb_spec S 0); [lia|].
    rewrite length_map, length_seq. f_equal. lia.
  - rewrite Hmask, length_map, length_seq. reflexivity.
  - exact Hbit.
  - exact Hfill.
  - exact Hentry.
  - rewrite attention_masked by assumption. fold P S Q K V.
    rewrite Hfill. reflexivity.
  - intros j c Hj Hc.
    rewrite nth_map_in with (da := [])
      by (rewrite zip_with_length, scores_length, Hmask, length_map, length_seq; lia).
    rewrite softmax_entry.
    + rewrite Hentry by assumption. destruct (c <=? P + j); reflexivity.
    + rewrite Hrow by assumption. unfold fill_row.
      rewrite zip_with_length, scores_row_length, Lmrow by lia. lia.
Qed.

Context {Laws : ScalarLaws Sc}.

(** Property X21.  Cache/no-cache equivalence in ideal arithmetic (an
    arithmetic with [x + 0 = x], [0 * x = 0] and [0 / x = 0], as the reals;
    no rounding, overflow or nan).  For a well-shaped model with at least
    one decoder layer, in inference mode: feeding a token sequence in one or
    more non-empty chunks, each call given the cache the previous call
    returned, returns exactly the logits of the single stateless call on the
    whole sequence and, for every layer, exactly the keys and values that
    the single call computes on that sequence.  The chunk list is arbitrary,
    so the same holds after every prefix of the chunks.  Within the
    vocabulary and within [max_seq_len] the calls return, with one row of
    logits per token. *)
Theorem cache_equivalence (cfg : Config) (m : Transformer) (chunks : list (list nat)) :
  wf_Transformer cfg m = true ->
  1 <= cfg_num_hidden_layers cfg ->
  chunks <> [] -> Forall (fun chunk => chunk <> []) chunks ->
  incremental m chunks None = Transformer_forward m (concat chunks) None true
  /\ Transformer_forward m (concat chunks) None false
     = ('(logits, _) <- Transformer_forward m (concat chunks) None true ;;
        Some (logits, None))
  /\ (Forall (fun t => t < cfg_vocab_size cfg) (concat chunks) ->
      length (concat chunks) <= cfg_max_seq_len cfg ->
      exists logits kvs,
        Transformer_forward m (concat chunks) None true = Some (logits, Some kvs)
        /\ length logits = length (concat chunks)
        /\ cache_inv m (length (concat chunks)) (Some kvs)).
Proof.
  intros wf Hlayers Hne Hall. pose proof (wf_has_layers cfg m wf Hlayers) as Hl.
  split; [|split].
  - apply incremental_forward with (cfg := cfg); assumption.
  - apply Transformer_forward_stateless.
  - intros Hids Hlen.
    assert (Hc : concat chunks <> []).
    { destruct chunks as [|c cs]; [congruence|]. inversion Hall; subst.
      simpl. destruct c; [congruence | discriminate]. }
    destruct (Transformer_forward_succeeds cfg m wf Hc Hids Hlen)
      as (logits & kvs & Hf & _).
    exists logits, kvs. split; [assumption|]. split.
    + apply Transformer_forward_rows in Hf. assumption.
    + apply Transformer_forward_lengths with (n := 0) in Hf as (kvs' & E & Hn & Ht);
        [|reflexivity].
      injection E as <-. split; assumption.
Qed.

(** Property X22.  In ideal arithmetic (as for the cache/no-cache
    equivalence above), for a well-shaped model with at least one decoder
    layer, [greedy_decode] and [greedy_decode_with_kv_cache] return the same
    token sequence for the same prompt and target length (and raise
    together).  For a non-empty prompt within the vocabulary and a target
    length of at most [max_seq_len + 1] they return: the prompt followed by
    the generated tokens, of the target length. *)
Theorem greedy_decode_equivalence (cfg : Config) (m : Transformer)
    (input_ids : list nat) (max_len : nat) :
  wf_Transformer cfg m = true ->
  1 <= cfg_num_hidden_layers cfg ->
  greedy_decode_with_kv_cache m input_ids max_len = greedy_decode m input_ids max_len
  /\ (input_ids <> [] ->
      Forall (fun t => t < cfg_vocab_size cfg) input_ids ->
      max_len <= S (cfg_max_seq_len cfg) ->
      exists out, greedy_decode m input_ids max_len = Some out
        /\ length out = Nat.max (length input_ids) max_len
        /\ firstn (length input_ids) out = input_ids).
Proof.
  intros wf Hn. pose proof (wf_has_layers cfg m wf Hn) as Hl. split.
  - apply greedy_decode_agree with (cfg := cfg); assumption.
  - intros Hne Hids Hmax. unfold greedy_decode.
    destruct greedy_decode_loop_succeeds
      with (cfg := cfg) (m := m) (n := max_len - length input_ids)
           (input_ids := input_ids)
      as (out & Ho & Hlen & Hpre); [assumption | assumption | assumption | lia |].
    exists out. split; [assumption|]. split; [lia | assumption].
Qed.

(** Claim C7, as amended: causality in ideal arithmetic (an arithmetic
    with [x + 0 = x], [0 * x = 0] and [0 / x = 0], as the reals; no overflow
    or nan).  For a well-shaped model, two stateless forward passes whose
    inputs agree on the first [i] positions return the same logits at the
    first [i] positions, whatever follows in either input. *)
Theorem causality (cfg : Config) (m : Transformer) (i : nat) (ids1 ids2 : list nat)
    logits1 c1 logits2 c2 :
  wf_Transformer cfg m = true ->
  firstn i ids1 = firstn i ids2 ->
  Transformer_forward m ids1 None false = Some (logits1, c1) ->
  Transformer_forward m ids2 None false = Some (logits2, c2) ->
  firstn i logits1 = firstn i logits2.
Proof.
  intros wf Hpre H1 H2.
  destruct (Nat.le_gt_cases (length ids1) i) as [L1|L1],
           (Nat.le_gt_cases (length ids2) i) as [L2|L2].
  - (* both inputs lie within the prefix: they are the same input *)
    rewrite !firstn_all2 in Hpre by assumption. subst ids2. congruence.
  - assert (Hi : length (firstn i ids1) = i)
      by (rewrite Hpre, length_firstn; lia).
    rewrite length_firstn in Hi.
    assert (length ids1 = i) by lia.
    assert (E : ids1 = firstn i ids2) by (rewrite <- Hpre; symmetry; apply firstn_all2; lia).
    destruct i as [|i]; [reflexivity|].
    rewrite <- (firstn_skipn (S i) ids2), <- E in H2.
    rewrite <- (app_nil_r ids1) in H1.
    assert (N : ids1 <> []) by (destruct ids1; simpl in *; [lia | discriminate]).
    destruct (prefix_logits cfg m wf _ N H1) as (lp & cp & Hp & F1).
    destruct (prefix_logits cfg m wf _ N H2) as (lp' & cp' & Hp' & F2).
    replace (S i) with (length ids1) by assumption. congruence.
  - assert (Hi : length (firstn i ids2) = i)
      by (rewrite <- Hpre, length_firstn; lia).
    rewrite length_firstn in Hi.
    assert (length ids2 = i) by lia.
    assert (E : ids2 = firstn i ids1) by (rewrite Hpre; symmetry; apply firstn_all2; lia).
    destruct i as [|i]; [reflexivity|].
    rewrite <- (firstn_skipn (S i) ids1), <- E in H1.
    rewrite <- (app_nil_r ids2) in H2.
    assert (N : ids2 <> []) by (destruct ids2; simpl in *; [lia | discriminate]).
    destruct (prefix_logits cfg m wf _ N H1) as (lp & cp & Hp & F1).
    destruct (prefix_logits cfg m wf _ N H2) as (lp' & cp' & Hp' & F2).
    replace (S i) with (length ids2) by assumption. congruence.
  - destruct i as [|i]; [reflexivity|].
    assert (Hlen : length (firstn (S i) ids1) = S i) by (rewrite length_firstn; lia).
    assert (N : firstn (S i) ids1 <> [])
      by (destruct (firstn (S i) ids1); simpl in *; [lia | discriminate]).
    rewrite <- (firstn_skipn (S i) ids1) in H1.
    rewrite <- (firstn_skipn (S i) ids2), <- Hpre in H2.
    destruct (prefix_logits cfg m wf _ N H1) as (lp & cp & Hp & F1).
    destruct (prefix_logits cfg m wf _ N H2) as (lp' & cp' & Hp' & F2).
    rewrite Hlen in F1, F2. congruence.
Qed.

End Claims.

Section RealClaims.

Local Open Scope R_scope.

(** Claim C1 fails on the code, by a defect of [Transformer.forward].  With
    [num_hidden_layers = 0] the returned cache is the empty list; the next
    call reads it as no cache ([if past_kvs:]) and restarts the position ids
    at 0, where the code means to continue from the length of the cache.
    On the two-token sequence [0, 0] the logit of the second position
    differs by more than 1e-5 between the stateless call and the
    token-by-token run, on a well-shaped model and within [max_seq_len]:
    the comparison that the notebook's own test asserts fails. *)
Lemma cache_equivalence_fails_without_layers :
  wf_Transformer zero_layer_cfg zero_layer_model = true
  /\ exists logits_full logits_cached past_kvs,
       Transformer_forward zero_layer_model [0; 0]%nat None false
       = Some (logits_full, None)
       /\ incremental zero_layer_model [[0%nat]; [0%nat]] None
          = Some (logits_cached, past_kvs)
       /\ 1 / 100000
          < Rabs (nth 0 (nth 1 logits_full []) 0 - nth 0 (nth 1 logits_cached []) 0).
Proof.
  split; [reflexivity|].
  exists [[zl_d; - zl_d]; [- zl_d; zl_d]], [[zl_d; - zl_d]; [zl_d; - zl_d]], (Some []).
  split; [|split].
  - rewrite Transformer_forward_stateless, zero_layer_logits_01. reflexivity.
  - apply zero_layer_incremental.
  - cbn [nth]. pose proof zl_d_bound.
    unfold Rabs. destruct (Rcase_abs (- zl_d - zl_d)); lra.
Qed.

(** Claim C2 fails on the code, by the same defect: on the model without
    layers, from the prompt [0] and for the target length 3, [greedy_decode]
    returns [0, 0, 1] and [greedy_decode_with_kv_cache], which feeds every
    new token at position 0, returns [0, 0, 0]. *)
Lemma greedy_decode_differs_without_layers :
  greedy_decode zero_layer_model [0%nat] 3 = Some [0; 0; 1]%nat
  /\ greedy_decode_with_kv_cache zero_layer_model [0%nat] 3 = Some [0; 0; 0]%nat
  /\ greedy_decode_with_kv_cache zero_layer_model [0%nat] 3
     <> greedy_decode zero_layer_model [0%nat] 3.
Proof.
  rewrite zero_layer_greedy_decode, zero_layer_greedy_decode_with_kv_cache.
  split; [reflexivity|]. split; [reflexivity | discriminate].
Qed.

Lemma sqrt_half : 7 / 10 < R_sqrt.sqrt (1 / 2).
Proof.
  replace (7 / 10) with (R_sqrt.sqrt ((7 / 10) * (7 / 10)))
    by (apply sqrt_square; lra).
  apply sqrt_lt_1_alt. lra.
Qed.

(** Claim C3 fails as stated: on the row [1, 0] the final normalization
    [ln_f] (weight 1, bias 0, eps 1e-5) does not return the value of
    [(x - mean) / (std + eps) * scale + shift]. *)
Lemma final_norm_is_not_the_Normalizer :
  nth 0 (nn_LayerNorm_row (ln_f zero_layer_model) [1; 0]) 0
  <> Normalizer_spec (nn_weight (ln_f zero_layer_model))
       (nn_bias (ln_f zero_layer_model)) (nn_eps (ln_f zero_layer_model)) [1; 0] 0.
Proof.
  cbn. 
  replace ((1 - (1 + (0 + 0)) / (1 + 1)) * (1 - (1 + (0 + 0)) / (1 + 1)) +
       ((0 - (1 + (0 + 0)) / (1 + 1)) * (0 - (1 + (0 + 0)) / (1 + 1)) + 0))
    with (1 / 2) by lra.
  replace (1 / 2 / (1 + 1) + eps_default) with (1 / 4 + eps_default) by lra.
  replace (1 / 2 / 1) with (1 / 2) by lra.
  pose proof sqrt_quarter_eps as [Ha Hb]. pose proof sqrt_half as Hc.
  set (a := R_sqrt.sqrt (1 / 4 + eps_default)) in *.
  set (b := R_sqrt.sqrt (1 / 2)) in *.
  replace (1 - (1 + (0 + 0)) / (1 + 1)) with (1 / 2) by lra.
  intros E.
  assert (E' : / a = / (b + eps_default)) by (unfold Rdiv in E; lra).
  apply (f_equal Rinv) in E'. rewrite !Rinv_inv in E'.
  unfold eps_default in *. lra.
Qed.


Lemma zero_layer_logits_at_1 :
  Transformer_forward_at 1 zero_layer_model [0%nat] (Some []) true
  = Some ([[- zl_d; zl_d]], Some []).
Proof.
  cbn. norm_sqrt. rows_eq.
Qed.

(** Claim C6 fails on the code, by the defect behind C1 and C2.  A model
    with [num_hidden_layers = 0] returns the empty list as its cache; the
    next call of an incremental run is given that list, [if past_kvs:] reads
    it as no cache, and the position id of the new token is 0 and not 1, the
    number of tokens processed so far: the call returns the logits of the
    pass at position 0, which are not those of the pass at position 1. *)
Lemma position_ids_restart_without_layers :
  (exists logits,
     Transformer_forward zero_layer_model [0%nat] None true = Some (logits, Some []))
  /\ position_ids (Sc := RScalar) (Some []) 1 = [0%nat]
  /\ Transformer_forward zero_layer_model [0%nat] (Some []) true
     = Transformer_forward_at 0 zero_layer_model [0%nat] (Some []) true
  /\ Transformer_forward zero_layer_model [0%nat] (Some []) true
     <> Transformer_forward_at 1 zero_layer_model [0%nat] (Some []) true.
Proof.
  split; [|split; [|split]].
  - eexists. apply zero_layer_logits_0.
  - reflexivity.
  - reflexivity.
  - rewrite zero_layer_restart, zero_layer_logits_0, zero_layer_logits_at_1.
    intros H. injection H as H _. pose proof zl_d_bound. lra.
Qed.

End RealClaims.

(** ** Floating point: what an overflow changes *)

Section FloatFacts.

Local Open Scope float_scope.

Variables fexp gelu : PrimFloat.float -> PrimFloat.float.
Hypothesis exp_0 : fexp 0 = 1.
Hypothesis gelu_0 : gelu 0 = 0.
Hypothesis gelu_nan : gelu PrimFloat.nan = PrimFloat.nan.

Lemma overflow_logits_00 :
  Transformer_forward (Sc := FloatScalar fexp) (overflow_model fexp gelu) [0; 0]%nat
    None false
  = Some ([[0; 1]; [0; 1]], None).
Proof using exp_0 gelu_0 gelu_nan.
  pose proof gelu_nan as Hn. vm_compute in Hn.
  repeat (progress (vm_compute; rewrite ?exp_0, ?gelu_0, ?Hn)). reflexivity.
Qed.

Lemma overflow_logits_01 :
  Transformer_forward (Sc := FloatScalar fexp) (overflow_model fexp gelu) [0; 1]%nat
    None false
  = Some ([[PrimFloat.nan; PrimFloat.nan]; [PrimFloat.nan; PrimFloat.nan]], None).
Proof using exp_0 gelu_0 gelu_nan.
  pose proof gelu_nan as Hn. vm_compute in Hn.
  repeat (progress (vm_compute; rewrite ?exp_0, ?gelu_0, ?Hn)). reflexivity.
Qed.

End FloatFacts.

Lemma float_zero_is_not_nan : 0%float <> PrimFloat.nan.
Proof.
  intros H. apply (f_equal (fun a => PrimFloat.eqb a a)) in H.
  vm_compute in H. discriminate.
Qed.

(** Claim C7 fails as stated, in floating point.  On a well-shaped
    one-layer model with finite parameters, the inputs [0, 0] and [0, 1]
    agree on the first position and the logits of that position differ,
    [0, 1] against [nan, nan]: the value row of the later token 1 overflows
    to [inf], and [attn @ v] multiplies it by the masked weight 0
    ([0 * inf = nan]).  This holds for every exponential with [exp(0) = 1]
    and every activation with [gelu(0) = 0] and [gelu(nan) = nan]. *)
Lemma causality_fails_on_overflow :
  ~ (exists fexp gelu : PrimFloat.float -> PrimFloat.float,
       fexp 0%float = 1%float /\ gelu 0%float = 0%float
       /\ gelu PrimFloat.nan = PrimFloat.nan
       /\ (wf_Transformer (Sc := FloatScalar fexp) overflow_cfg
             (overflow_model fexp gelu) = true ->
           firstn 1 [0; 0] = firstn 1 [0; 1] ->
           forall logits1 c1 logits2 c2,
           Transformer_forward (Sc := FloatScalar fexp) (overflow_model fexp gelu)
             [0; 0] None false = Some (logits1, c1) ->
           Transformer_forward (Sc := FloatScalar fexp) (overflow_model fexp gelu)
             [0; 1] None false = Some (logits2, c2) ->
           firstn 1 logits1 = firstn 1 logits2)).
Proof.
  intros (fexp & gelu & He & H0 & Hn & Hclaim).
  specialize (Hclaim eq_refl eq_refl _ _ _ _
                (@overflow_logits_00 fexp gelu He H0 Hn)
                (@overflow_logits_01 fexp gelu He H0 Hn)).
  apply (f_equal (fun l => nth 0 (nth 0 l []) 0%float)) in Hclaim.
  exact (float_zero_is_not_nan Hclaim).
Qed.

(** ** The theorems at concrete inputs

    Each claim's theorem applied to a model over the reals, its hypotheses
    checked by evaluation. *)

Section Witnesses.

Local Open Scope R_scope.

(** A one-layer model fed the sequence [0, 1, 0] as the chunks [0] and
    [1, 0]. *)
Lemma cache_equivalence_witness :
  incremental (small_model 1 gelu_sigmoid) [[0%nat]; [1; 0]%nat] None
  = Transformer_forward (small_model 1 gelu_sigmoid) [0; 1; 0]%nat None true
  /\ exists logits kvs,
       Transformer_forward (small_model 1 gelu_sigmoid) [0; 1; 0]%nat None true
       = Some (logits, Some kvs).
Proof.
  destruct (@cache_equivalence RScalar RLaws (small_cfg 1) (small_model 1 gelu_sigmoid)
              [[0%nat]; [1; 0]%nat]) as (H1 & _ & H3).
  - reflexivity.
  - simpl. lia.
  - discriminate.
  - repeat constructor; discriminate.
  - split; [exact H1|].
    destruct H3 as (logits & kvs & H & _).
    + simpl. repeat constructor.
    + simpl. lia.
    + exists logits, kvs. exact H.
Defined.

(** Decoding four tokens from the prompt [0] with a one-layer model. *)
Lemma greedy_decode_equivalence_witness :
  greedy_decode_with_kv_cache (small_model 1 gelu_sigmoid) [0%nat] 4
  = greedy_decode (small_model 1 gelu_sigmoid) [0%nat] 4.
Proof.
  apply (proj1 (@greedy_decode_equivalence RScalar RLaws (small_cfg 1)
                  (small_model 1 gelu_sigmoid) [0%nat] 4%nat
                  eq_refl ltac:(simpl; lia))).
Defined.

(** The first normalization of a block on the row [1, 0]. *)
Lemma normalizers_formula_witness :
  nth 0 (LayerNorm_row (ln_1 (small_block gelu_sigmoid)) [1; 0]) 0
  = Normalizer_spec [1; 1] [0; 0] eps_default [1; 0] 0.
Proof.
  apply (proj1 (@normalizers_formula RScalar) (small_block gelu_sigmoid)
           (ln_1 (small_block gelu_sigmoid)) [1; 0] 0%nat);
    [left; reflexivity | reflexivity | reflexivity | simpl; lia].
Defined.

(** Two new rows behind an entry of one position, on a layer of hidden
    size 2. *)
Lemma causal_mask_bottom_rows_witness :
  exists (mask : list (list bool)) (attn : list (list (option R))),
    mask = skipn 1 (tril 3)
    /\ masked_fill (scores 2 (q_rows small_attn [[1; 0]; [0; 1]])
                      ([[0; 1]] ++ k_rows small_attn [[1; 0]; [0; 1]])) mask = Some attn
    /\ nth 2 (nth 0 attn []) None = None.
Proof.
  destruct (@causal_mask_bottom_rows RScalar small_attn [[1; 0]; [0; 1]]
              (Some ([[0; 1]], [[1; 1]])) true ltac:(discriminate) eq_refl eq_refl)
    as (mask & attn & Hm & _ & _ & Hf & He & _).
  exists mask, attn. split; [exact Hm|]. split; [exact Hf|].
  apply (He 0%nat 2%nat); simpl; lia.
Defined.

(** A cache of one layer holding one position, and two new tokens. *)
Lemma forward_positions_continue_witness :
  Transformer_forward (small_model 1 gelu_sigmoid) [0; 1]%nat
    (Some [([[1; 0]], [[0; 1]])]) true
  = Transformer_forward_at 1 (small_model 1 gelu_sigmoid) [0; 1]%nat
      (Some [([[1; 0]], [[0; 1]])]) true.
Proof.
  apply (proj1 (proj2 (@forward_positions_continue RScalar (small_model 1 gelu_sigmoid)
                         [0; 1]%nat true)) 1%nat ([[1; 0]], [[0; 1]]) []).
  repeat constructor.
Defined.

(** The inputs [0, 1, 0] and [0, 1, 1] agree on two positions. *)
Lemma causality_witness :
  exists logits1 logits2,
    Transformer_forward (small_model 1 gelu_sigmoid) [0; 1; 0]%nat None false
    = Some (logits1, None)
    /\ Transformer_forward (small_model 1 gelu_sigmoid) [0; 1; 1]%nat None false
       = Some (logits2, None)
    /\ firstn 2 logits1 = firstn 2 logits2.
Proof.
  eexists. eexists. split; [reflexivity|]. split; [reflexivity|].
  apply (@causality RScalar RLaws (small_cfg 1) (small_model 1 gelu_sigmoid) 2
           [0; 1; 0]%nat [0; 1; 1]%nat _ None _ None); reflexivity.
Defined.

(** The cache after the chunks [0] and [1] of a run that goes on with [0]. *)
Lemma cache_length_invariant_witness :
  exists logits1 c1,
    incremental (small_model 1 gelu_sigmoid) [[0%nat]; [1%nat]] None
    = Some (logits1, c1)
    /\ cache_inv (small_model 1 gelu_sigmoid) 2 c1.
Proof.
  eapply (@cache_length_invariant RScalar (small_model 1 gelu_sigmoid)
            [[0%nat]; [1%nat]] [[0%nat]]).
  reflexivity.
Defined.


(** One new row behind an entry of one position. *)
Lemma cache_prefix_preserved_witness :
  exists out k v,
    SingleHeadSelfAttention_forward small_attn [[1; 0]]
      (Some ([[0; 1]], [[1; 1]])) true = Some (out, Some (k, v))
    /\ firstn 1 k = [[0; 1]] /\ firstn 1 v = [[1; 1]]
    /\ length k = 2%nat /\ length v = 2%nat.
Proof.
  destruct (@cache_prefix_preserved RScalar small_attn [[1; 0]] [[0; 1]] [[1; 1]])
    as [Hframe Hruns].
  destruct Hruns as (out & entry & Hf);
    [discriminate | reflexivity | reflexivity | reflexivity | reflexivity |].
  destruct (Hframe out entry Hf) as (k & v & -> & Hk & Hv & Lk & Lv).
  exists out, k, v. auto.
Defined.

End Witnesses.

(** * Further properties of the code *)

(** ** The cache tests of the notebook *)

Section SliceFacts.

Variable A : Type.

Lemma firstn_succ_slice (l : list A) :
  forall i, firstn (S i) l = firstn i l ++ slice i (i + 1) l.
Proof.
  unfold slice. intros i. replace (i + 1 - i) with 1 by lia. revert i.
  induction l as [|a l IH]; intros [|i]; simpl; try reflexivity.
  f_equal. apply (IH i).
Qed.

Lemma slice_nonempty (l : list A) i : i < length l -> slice i (i + 1) l <> [].
Proof.
  unfold slice. replace (i + 1 - i) with 1 by lia. revert i.
  induction l as [|a l IH]; intros i Hi; simpl in *; [lia|].
  destruct i as [|i]; [discriminate|]. apply IH. lia.
Qed.

End SliceFacts.

Section Stepwise.

Context {Sc : Scalar}.

Lemma has_width_concat w (ts : list (list (list scalar))) :
  Forall (fun t => has_width w t = true) ts -> has_width w (concat ts) = true.
Proof.
  induction 1 as [|t ts Ht _ IH]; [reflexivity|].
  simpl. rewrite has_width_app, Ht, IH. reflexivity.
Qed.

Lemma torch_cat_same_width w (outputs : list (list (list scalar))) :
  outputs <> [] -> Forall (fun t => has_width w t = true) outputs ->
  torch_cat outputs = Some (concat outputs).
Proof.
  intros Hne Hall. apply has_width_concat in Hall.
  destruct outputs as [|t ts]; [congruence|]. unfold torch_cat.
  destruct (concat (t :: ts)) as [|r rows] eqn:E; [reflexivity|].
  assert (Hr : length r = w).
  { simpl in Hall. apply andb_true_iff in Hall as [Hr _]. apply Nat.eqb_eq. exact Hr. }
  rewrite Hr, Hall. reflexivity.
Qed.

Variable f : list (list scalar) -> option kv -> option (list (list scalar) * option kv).
Variable w : nat.

Hypothesis f_split : forall x1 x2 past_kv, x1 <> [] -> x2 <> [] ->
  f (x1 ++ x2) past_kv
  = ('(o1, kv1) <- f x1 past_kv ;; '(o2, kv2) <- f x2 kv1 ;; Some (o1 ++ o2, kv2)).

Hypothesis f_width : forall x past_kv o e,
  x <> [] -> f x past_kv = Some (o, e) -> has_width w o = true.

(** A failure on a prefix is a failure on the whole input. *)
Lemma prefix_fails (x : list (list scalar)) i past_kv :
  1 <= i -> f (firstn i x) past_kv = None -> f x past_kv = None.
Proof.
  intros Hi Hf. destruct (skipn i x) as [|r rs] eqn:E.
  - rewrite <- (firstn_skipn i x), E, app_nil_r. exact Hf.
  - assert (N : firstn i x <> []).
    { destruct x as [|a x]; [destruct i; discriminate|]. destruct i; [lia | discriminate]. }
    rewrite <- (firstn_skipn i x), E, f_split, Hf by (assumption || discriminate).
    reflexivity.
Qed.

Lemma stepwise_from (x : list (list scalar)) (n : nat) :
  forall i outputs past_kv o,
  i + n = length x -> 1 <= i ->
  f (firstn i x) None = Some (o, past_kv) ->
  concat outputs = o -> outputs <> [] ->
  Forall (fun t => has_width w t = true) outputs ->
  ('(outs, _) <- stepwise f x (seq i n) past_kv outputs ;; torch_cat outs)
  = ('(o', _) <- f x None ;; Some o').
Proof.
  induction n as [|n IH]; intros i outputs past_kv o Hlen Hi Hf Hcat Hne Hall.
  - cbn [seq stepwise bind]. rewrite firstn_all2 in Hf by lia. rewrite Hf. cbn [bind].
    rewrite torch_cat_same_width with (w := w) by assumption. congruence.
  - cbn [seq stepwise].
    assert (Ns : slice i (i + 1) x <> []) by (apply slice_nonempty; lia).
    assert (Nf : firstn i x <> []).
    { destruct x as [|a x]; [simpl in Hlen; lia|]. destruct i; [lia | discriminate]. }
    pose proof (f_split None Nf Ns) as Hsplit.
    rewrite <- firstn_succ_slice, Hf in Hsplit. cbn [bind] in Hsplit.
    destruct (f (slice i (i + 1) x) past_kv) as [[o2 kv2]|] eqn:H2; cbn [bind] in *.
    + apply IH with (o := o ++ o2); try assumption; try lia.
      * rewrite concat_app. simpl. rewrite app_nil_r. congruence.
      * destruct outputs; discriminate.
      * apply Forall_app. split; [assumption|]. constructor; [|constructor].
        apply f_width with (x := slice i (i + 1) x) (past_kv := past_kv) (e := kv2);
          assumption.
    + rewrite prefix_fails with (i := S i) by (lia || assumption). reflexivity.
Qed.

(** The row-by-row run with the cache returns what one call on the whole
    input returns. *)
Lemma stepwise_whole (x : list (list scalar)) :
  x <> [] ->
  ('(outs, _) <- stepwise f x (seq 0 (length x)) None [] ;; torch_cat outs)
  = ('(o', _) <- f x None ;; Some o').
Proof.
  intros Hx. destruct x as [|r x]; [congruence|].
  cbn [length seq stepwise].
  assert (Ns : slice 0 (0 + 1) (r :: x) = firstn 1 (r :: x)) by reflexivity.
  rewrite Ns.
  destruct (f (firstn 1 (r :: x)) None) as [[o kv1]|] eqn:Hf; cbn [bind app].
  - apply stepwise_from with (o := o); try assumption.
    + simpl. lia.
    + lia.
    + simpl. apply app_nil_r.
    + discriminate.
    + constructor; [|constructor].
      apply f_width with (x := firstn 1 (r :: x)) (past_kv := @None kv) (e := kv1);
        [discriminate | assumption].
  - rewrite prefix_fails with (i := 1) by (lia || assumption). reflexivity.
Qed.

End Stepwise.

Section ModuleTests.

Context {Sc : Scalar}.

Lemma attention_cache_loop_stepwise (self : SingleHeadSelfAttention) x idx :
  forall past_kv outputs,
  attention_cache_loop self x idx past_kv outputs
  = stepwise (fun t p => SingleHeadSelfAttention_forward self t p true) x idx past_kv outputs.
Proof.
  induction idx as [|i idx IH]; intros past_kv outputs; [reflexivity|].
  cbn [attention_cache_loop stepwise].
  destruct (SingleHeadSelfAttention_forward self _ past_kv true) as [[o e]|];
    cbn [bind]; [apply IH | reflexivity].
Qed.

Lemma decoder_cache_loop_stepwise (self : DecoderBlock) x idx :
  forall past_kv outputs,
  decoder_cache_loop self x idx past_kv outputs
  = stepwise (fun t p => DecoderBlock_forward self t p true) x idx past_kv outputs.
Proof.
  induction idx as [|i idx IH]; intros past_kv outputs; [reflexivity|].
  cbn [decoder_cache_loop stepwise].
  destruct (DecoderBlock_forward self _ past_kv true) as [[o e]|];
    cbn [bind]; [apply IH | reflexivity].
Qed.

Lemma attention_width h (self : SingleHeadSelfAttention) x past_kv use_cache o e :
  wf_SingleHeadSelfAttention h self = true -> x <> [] ->
  SingleHeadSelfAttention_forward self x past_kv use_cache = Some (o, e) ->
  has_width h o = true /\ has_width h x = true.
Proof.
  intros wf Hx. rewrite attention_char by assumption.
  pose proof (wf_hidden_size h self wf) as Hh. rewrite Hh.
  destruct (has_width h x); cbn [andb]; [|discriminate].
  destruct (past_ok h past_kv); [|discriminate].
  intros H; injection H as <- _. split; [|reflexivity].
  unfold attend. apply has_width_map. intros a. rewrite <- Hh.
  apply wf_c_proj with (h := h). assumption.
Qed.

Lemma DecoderBlock_width h ff (self : DecoderBlock) x past_kv y e :
  wf_DecoderBlock h ff self = true -> x <> [] ->
  DecoderBlock_forward self x past_kv true = Some (y, e) ->
  has_width h y = true.
Proof.
  unfold wf_DecoderBlock. rewrite !andb_true_iff. intros [[[wf1 wfa] wf2] wfm] Hx.
  rewrite DecoderBlock_forward_cached.
  destruct (SingleHeadSelfAttention_forward _ _ _ _) as [[o e']|] eqn:Ha;
    cbn [bind]; [|discriminate].
  intros H; injection H as <- _.
  apply attention_width with (h := h) in Ha as [Ho Hx1]; [|assumption|].
  2:{ apply nonempty_length with (l := x); [assumption | apply length_map]. }
  unfold block_post. apply tensor_add_width.
  - apply LayerNorm_forward_width; [assumption|].
    apply tensor_add_width; assumption.
  - apply MLP_forward_width with (ff := ff). assumption.
Qed.

Context {Laws : ScalarLaws Sc}.

(** Property X1.  The test that follows the class [SingleHeadSelfAttention]: for an
    attention layer of hidden size [h] and an input of at least one row,
    the outputs of the row-by-row run with the cache, concatenated, are the
    output of the single call without cache (the two raise together); on an
    input of width [h] both return, one output row per input row. *)
Theorem attention_cache_test (h : nat) (self_attention : SingleHeadSelfAttention)
    (x : list (list scalar)) :
  wf_SingleHeadSelfAttention h self_attention = true -> x <> [] ->
  attention_out_with_cache self_attention x = attention_out_no_cache self_attention x
  /\ (has_width h x = true ->
      exists out, attention_out_no_cache self_attention x = Some out
                  /\ length out = length x).
Proof.
  intros wf Hx. split.
  - unfold attention_out_with_cache, attention_out_no_cache.
    rewrite attention_cache_loop_stepwise.
    rewrite stepwise_whole with (w := h); try assumption.
    + rewrite attention_use_cache.
      destruct (SingleHeadSelfAttention_forward self_attention x None true) as [[o e]|];
        reflexivity.
    + intros x1 x2 past_kv H1 H2. apply attention_split with (h := h); assumption.
    + intros x0 past_kv o e H0 Hf.
      eapply proj1, attention_width; eassumption.
  - intros Hw. unfold attention_out_no_cache.
    rewrite attention_char by assumption.
    rewrite (wf_hidden_size h self_attention wf), Hw. cbn [past_ok andb bind].
    eexists. split; [reflexivity|]. apply attend_length.
Qed.

(** Property X2.  The test that follows the class [DecoderBlock]: for a decoder block of
    hidden size [h] and an input of at least one row, the outputs of the
    row-by-row run with the cache, concatenated, are the output of the
    single call without cache (the two raise together); on an input of
    width [h] both return, one output row per input row. *)
Theorem decoder_cache_test (h ff : nat) (decoder : DecoderBlock)
    (x : list (list scalar)) :
  wf_DecoderBlock h ff decoder = true -> x <> [] ->
  decoder_out_cached decoder x = decoder_out_full decoder x
  /\ (has_width h x = true ->
      exists out, decoder_out_full decoder x = Some out /\ length out = length x).
Proof.
  intros wf Hx. split.
  - unfold decoder_out_cached, decoder_out_full.
    rewrite decoder_cache_loop_stepwise.
    rewrite stepwise_whole with (w := h); try assumption.
    + rewrite DecoderBlock_use_cache.
      destruct (DecoderBlock_forward decoder x None true) as [[o e]|]; reflexivity.
    + intros x1 x2 past_kv H1 H2.
      eapply DecoderBlock_split; eassumption.
    + intros x0 past_kv o e H0 Hf.
      eapply DecoderBlock_width; eassumption.
  - intros Hw. unfold decoder_out_full. rewrite DecoderBlock_use_cache.
    destruct (@DecoderBlock_succeeds _ h ff decoder x wf Hx Hw)
      as (y & e & Hb & _).
    rewrite Hb. cbn [bind]. exists y. split; [reflexivity|].
    apply DecoderBlock_shape in Hb as [Hlen _]. exact Hlen.
Qed.

End ModuleTests.

(** ** The index errors of the embeddings and the length of a generation *)

Section Bounds.

Context {Sc : Scalar}.

Lemma embedding_returns_iff (table : list (list scalar)) (ids : list nat) :
  (exists x, embedding table ids = Some x) <-> Forall (fun t => t < length table) ids.
Proof.
  unfold embedding. induction ids as [|t ids IH]; cbn [traverse].
  - split; [constructor | eauto].
  - destruct (nth_error table t) as [r|] eqn:Hn; cbn [bind].
    + assert (Ht : t < length table) by (apply nth_error_Some; congruence).
      destruct (traverse (nth_error table) ids) as [x|]; cbn [bind].
      * split; [|eauto]. intros _. constructor; [assumption|]. apply IH. eauto.
      * split; [intros [x H]; discriminate|].
        intros H. inversion H; subst. apply IH. assumption.
    + apply nth_error_None in Hn.
      split; [intros [x H]; discriminate|].
      intros H. inversion H; subst. lia.
Qed.

Lemma embedding_none (table : list (list scalar)) (ids : list nat) :
  ~ Forall (fun t => t < length table) ids -> embedding table ids = None.
Proof.
  intros H. destruct (embedding table ids) as [x|] eqn:E; [|reflexivity].
  exfalso. apply H. apply embedding_returns_iff. eauto.
Qed.

Lemma seq_within (p n b : nat) : Forall (fun t => t < b) (seq p n) <-> n = 0 \/ p + n <= b.
Proof.
  rewrite Forall_forall. split.
  - intros H. destruct n as [|n]; [auto|]. right.
    specialize (H (p + n)). rewrite in_seq in H. lia.
  - intros H t Ht. apply in_seq in Ht. lia.
Qed.

(** What a call that returns tells about its input: the tokens index the
    token table and the positions index the position table. *)
Lemma Transformer_forward_indices (m : Transformer) ids past_kvs use_cache r :
  Transformer_forward m ids past_kvs use_cache = Some r ->
  Forall (fun t => t < length (token_embed m)) ids
  /\ (ids = [] \/ past_length past_kvs + length ids <= length (position_embed m)).
Proof.
  rewrite Transformer_forward_at_eq. unfold Transformer_forward_at.
  destruct (embedding (token_embed m) ids) as [tok|] eqn:Ht; cbn [bind]; [|discriminate].
  destruct (embedding (position_embed m) _) as [pos|] eqn:Hp; cbn [bind]; [|discriminate].
  intros _. split.
  - apply embedding_returns_iff. eauto.
  - assert (H : exists x, embedding (position_embed m)
                            (seq (past_length past_kvs) (length ids)) = Some x) by eauto.
    apply embedding_returns_iff, seq_within in H.
    destruct H as [H|H]; [left; destruct ids; [reflexivity | discriminate] | right; exact H].
Qed.

Lemma DecoderBlock_forward_nil (self : DecoderBlock) :
  DecoderBlock_forward self [] None true = Some ([], Some ([], [])).
Proof. reflexivity. Qed.

Lemma run_layers_nil (layers : list DecoderBlock) :
  forall i, exists c, run_layers layers i [] None true = Some ([], c).
Proof.
  induction layers as [|l ls IH]; intros i; cbn [run_layers]; [eauto|].
  cbn [past_kv_at bind]. rewrite DecoderBlock_forward_nil. cbn [bind].
  destruct (IH (S i)) as [c Hc]. rewrite Hc. cbn [bind]. eauto.
Qed.

(** An empty input gives empty logits. *)
Lemma Transformer_forward_nil (m : Transformer) :
  exists c, Transformer_forward m [] None true = Some ([], c).
Proof.
  unfold Transformer_forward. cbn.
  destruct (run_layers_nil (hidden_layers m) 0) as [c Hc].
  unfold tensor_add. cbn. rewrite Hc. cbn. eauto.
Qed.

Lemma Transformer_forward_rows_any (m : Transformer) x past_kvs use_cache logits c :
  Transformer_forward m x past_kvs use_cache = Some (logits, c) ->
  length logits = length x.
Proof.
  destruct use_cache; [apply Transformer_forward_rows|].
  rewrite Transformer_forward_at_eq. unfold Transformer_forward_at.
  destruct (embedding (token_embed m) x) as [tok|] eqn:Ht; cbn [bind]; [|discriminate].
  destruct (embedding (position_embed m) _) as [pos|] eqn:Hp; cbn [bind]; [|discriminate].
  apply embedding_length in Ht, Hp. rewrite length_seq in Hp.
  assert (La : length (tensor_add tok pos) = length x)
    by (rewrite tensor_add_length; congruence).
  revert La. generalize (tensor_add tok pos) as a. generalize 0 as i.
  induction (hidden_layers m) as [|l ls IH]; intros i a La; cbn [run_layers bind].
  - intros H; injection H as <- _.
    unfold nn_LayerNorm_forward. rewrite !length_map. exact La.
  - destruct (past_kv_at past_kvs i) as [pkv|]; cbn [bind]; [|discriminate].
    rewrite DecoderBlock_use_cache.
    destruct (DecoderBlock_forward l a None true) as [[y e]|] eqn:Hb;
      cbn [bind]; [|discriminate].
    apply DecoderBlock_shape in Hb as [Hy _].
    specialize (IH (S i) y ltac:(congruence)).
    destruct (run_layers ls (S i) y past_kvs false) as [[z c']|]; cbn [bind] in *;
      [|discriminate].
    exact IH.
Qed.

Variables (cfg : Config) (m : Transformer).
Hypothesis wf : wf_Transformer cfg m = true.

Lemma wf_tables :
  length (token_embed m) = cfg_vocab_size cfg
  /\ length (position_embed m) = cfg_max_seq_len cfg.
Proof.
  pose proof wf as wf'. unfold wf_Transformer in wf'. cbv zeta in wf'.
  rewrite !andb_true_iff, !Nat.eqb_eq in wf'. tauto.
Qed.

Lemma wf_logits_width ids past_kvs use_cache logits c :
  Transformer_forward m ids past_kvs use_cache = Some (logits, c) ->
  has_width (cfg_vocab_size cfg) logits = true.
Proof.
  pose proof wf as wf'. unfold wf_Transformer in wf'. cbv zeta in wf'.
  rewrite !andb_true_iff in wf'. destruct wf' as [_ Hh].
  unfold Transformer_forward.
  destruct (embedding (token_embed m) ids); cbn [bind]; [|discriminate].
  destruct (embedding (position_embed m) _); cbn [bind]; [|discriminate].
  destruct (run_layers _ _ _ _ _) as [[y c']|]; cbn [bind]; [|discriminate].
  intros H. assert (E : logits = map (Linear_forward (language_head m))
                                     (nn_LayerNorm_forward (ln_f m) y))
    by (destruct use_cache; injection H as <- _; reflexivity).
  rewrite E. apply has_width_map. intros a.
  apply wf_Linear_length with (n_in := cfg_hidden_size cfg). assumption.
Qed.

(** Property X3.  For a well-shaped model of hidden size at least 1 and
    token ids that are natural numbers (a negative id is outside the
    embedding), a call without a cache returns exactly when every id is
    below [vocab_size] and the input is no longer than [max_seq_len]: for
    such ids the two embedding lookups are the only places where it can
    raise. *)
Theorem forward_returns_iff (input_ids : list nat) (use_cache : bool) :
  1 <= cfg_hidden_size cfg ->
  ((exists r, Transformer_forward m input_ids None use_cache = Some r)
   <-> (Forall (fun t => t < cfg_vocab_size cfg) input_ids
        /\ length input_ids <= cfg_max_seq_len cfg)).
Proof.
  intros _. destruct wf_tables as [Hv Hp]. split.
  - intros [r H]. apply Transformer_forward_indices in H as [Ht Hpos].
    rewrite Hv in Ht. rewrite Hp in Hpos. cbn [past_length] in Hpos.
    split; [assumption|]. destruct Hpos as [-> | Hpos]; simpl; lia.
  - intros [Ht Hlen].
    assert (H : exists logits c, Transformer_forward m input_ids None true = Some (logits, c)).
    { destruct input_ids as [|t ids].
      - destruct (Transformer_forward_nil m) as [c Hc]. eauto.
      - destruct (@Transformer_forward_succeeds _ cfg m wf (t :: ids))
          as (logits & kvs & Hf & _); [discriminate | assumption | assumption |].
        eauto. }
    destruct H as (logits & c & Hf). destruct use_cache; [eauto|].
    rewrite Transformer_forward_stateless, Hf. cbn [bind]. eauto.
Qed.

(** Property X4.  With a cache the positions go on from the length of the cache: a call
    raises when a token is not below [vocab_size], and when the cached
    positions and the new ones together exceed [max_seq_len]. *)
Theorem forward_index_errors (input_ids : list nat) (past_kvs : option cache)
    (use_cache : bool) :
  ((exists t, In t input_ids /\ cfg_vocab_size cfg <= t) ->
   Transformer_forward m input_ids past_kvs use_cache = None)
  /\ (input_ids <> [] ->
      cfg_max_seq_len cfg < past_length past_kvs + length input_ids ->
      Transformer_forward m input_ids past_kvs use_cache = None).
Proof.
  destruct wf_tables as [Hv Hp].
  split.
  - intros (t & Hin & Ht).
    destruct (Transformer_forward m input_ids past_kvs use_cache) as [r|] eqn:E;
      [|reflexivity].
    apply Transformer_forward_indices in E as [Hall _].
    rewrite Forall_forall in Hall. specialize (Hall _ Hin). lia.
  - intros Hne Hlen.
    destruct (Transformer_forward m input_ids past_kvs use_cache) as [r|] eqn:E;
      [|reflexivity].
    apply Transformer_forward_indices in E as [_ [H|H]]; [contradiction | lia].
Qed.

End Bounds.

Section DecodeShape.

Context {Sc : Scalar}.

Lemma firstn_app_exact (A : Type) (l1 l2 : list A) : firstn (length l1) (l1 ++ l2) = l1.
Proof. rewrite firstn_app, Nat.sub_diag, firstn_all. simpl. apply app_nil_r. Qed.

Lemma firstn_prefix (A : Type) (l out : list A) (t : A) :
  firstn (length (l ++ [t])) out = l ++ [t] -> firstn (length l) out = l.
Proof.
  intros H. apply (f_equal (firstn (length l))) in H.
  rewrite firstn_firstn, length_app in H.
  replace (Nat.min (length l) (length l + length [t])) with (length l) in H by lia.
  rewrite H. apply firstn_app_exact.
Qed.

Lemma greedy_decode_loop_shape (m : Transformer) (n : nat) :
  forall ids out,
  greedy_decode_loop n m ids = Some out ->
  firstn (length ids) out = ids /\ length out = length ids + n.
Proof.
  induction n as [|n IH]; intros ids out; cbn [greedy_decode_loop].
  - intros H; injection H as <-. rewrite firstn_all. split; [reflexivity | lia].
  - destruct (Transformer_forward m ids None false) as [[logits c]|]; cbn [bind];
      [|discriminate].
    destruct (next_token logits) as [t|]; cbn [bind]; [|discriminate].
    intros H. apply IH in H as [Hpre Hlen].
    split; [apply firstn_prefix with (t := t); assumption|].
    rewrite Hlen, length_app. simpl. lia.
Qed.

Lemma greedy_decode_with_kv_cache_loop_shape (m : Transformer) (n : nat) :
  forall input_ids past_kvs generated out,
  greedy_decode_with_kv_cache_loop n m input_ids past_kvs generated = Some out ->
  firstn (length generated) out = generated /\ length out = length generated + n.
Proof.
  induction n as [|n IH]; intros ids past_kvs generated out;
    cbn [greedy_decode_with_kv_cache_loop].
  - intros H; injection H as <-. rewrite firstn_all. split; [reflexivity | lia].
  - destruct (Transformer_forward m ids past_kvs true) as [[logits c]|]; cbn [bind];
      [|discriminate].
    destruct (next_token logits) as [t|]; cbn [bind]; [|discriminate].
    intros H. apply IH in H as [Hpre Hlen].
    split; [apply firstn_prefix with (t := t); assumption|].
    rewrite Hlen, length_app. simpl. lia.
Qed.

(** Property X7.  Whatever the model, a sequence returned by either decoding function
    starts with the prompt, unchanged, and has the length [max_len], or the
    length of the prompt when that is larger; a prompt that is already
    [max_len] long is returned as it is, without a call of the model. *)
Theorem decode_extends_prompt (model : Transformer) (input_ids : list nat)
    (max_len : nat) :
  (forall out,
     greedy_decode model input_ids max_len = Some out
     \/ greedy_decode_with_kv_cache model input_ids max_len = Some out ->
     firstn (length input_ids) out = input_ids
     /\ length out = Nat.max (length input_ids) max_len)
  /\ (max_len <= length input_ids ->
      greedy_decode model input_ids max_len = Some input_ids
      /\ greedy_decode_with_kv_cache model input_ids max_len = Some input_ids).
Proof.
  split.
  - intros out [H|H].
    + apply greedy_decode_loop_shape in H as [Hpre Hlen]. split; [assumption | lia].
    + apply greedy_decode_with_kv_cache_loop_shape in H as [Hpre Hlen].
      split; [assumption | lia].
  - intros Hle. unfold greedy_decode, greedy_decode_with_kv_cache.
    replace (max_len - length input_ids) with 0 by lia. split; reflexivity.
Qed.

Lemma empty_prompt_loops (model : Transformer) (n : nat) :
  greedy_decode_loop (S n) model [] = None
  /\ greedy_decode_with_kv_cache_loop (S n) model [] None [] = None.
Proof.
  cbn [greedy_decode_loop greedy_decode_with_kv_cache_loop].
  rewrite Transformer_forward_stateless.
  destruct (Transformer_forward model [] None true) as [[l c]|] eqn:Hf;
    cbn [bind]; [|split; reflexivity].
  apply Transformer_forward_rows in Hf. destruct l; [|discriminate].
  split; reflexivity.
Qed.

(** Property X8.  An empty prompt makes both decoding functions raise as soon as one
    token is asked for: the model returns logits without a position, and
    there is no last position to read. *)
Theorem decode_empty_prompt_raises (model : Transformer) (max_len : nat) :
  1 <= max_len ->
  greedy_decode model [] max_len = None
  /\ greedy_decode_with_kv_cache model [] max_len = None.
Proof.
  intros Hmax. unfold greedy_decode, greedy_decode_with_kv_cache.
  destruct (max_len - length (@nil nat)) as [|n] eqn:E; [simpl in E; lia|].
  apply empty_prompt_loops.
Qed.

Lemma next_token_lt v (logits : list (list scalar)) t :
  has_width v logits = true -> next_token logits = Some t -> t < v.
Proof.
  intros Hw. unfold next_token.
  destruct (rev logits) as [|last r] eqn:E; [discriminate|].
  assert (Hin : In last logits) by (apply in_rev; rewrite E; left; reflexivity).
  rewrite has_width_forall in Hw. specialize (Hw _ Hin).
  intros H. apply argmax_lt in H. lia.
Qed.

Variables (cfg : Config) (m : Transformer).
Hypothesis wf : wf_Transformer cfg m = true.

Lemma greedy_decode_loop_vocab (n : nat) :
  forall ids out,
  Forall (fun t => t < cfg_vocab_size cfg) ids ->
  greedy_decode_loop n m ids = Some out ->
  Forall (fun t => t < cfg_vocab_size cfg) out.
Proof.
  induction n as [|n IH]; intros ids out Hids; cbn [greedy_decode_loop].
  - intros H; injection H as <-. assumption.
  - destruct (Transformer_forward m ids None false) as [[logits c]|] eqn:Hf;
      cbn [bind]; [|discriminate].
    destruct (next_token logits) as [t|] eqn:Ht; cbn [bind]; [|discriminate].
    apply IH. apply Forall_app. split; [assumption|]. constructor; [|constructor].
    apply next_token_lt with (logits := logits); [|assumption].
    apply (wf_logits_width cfg m wf _ _ _ Hf).
Qed.

Lemma greedy_decode_with_kv_cache_loop_vocab (n : nat) :
  forall input_ids past_kvs generated out,
  Forall (fun t => t < cfg_vocab_size cfg) generated ->
  greedy_decode_with_kv_cache_loop n m input_ids past_kvs generated = Some out ->
  Forall (fun t => t < cfg_vocab_size cfg) out.
Proof.
  induction n as [|n IH]; intros ids past_kvs generated out Hgen;
    cbn [greedy_decode_with_kv_cache_loop].
  - intros H; injection H as <-. assumption.
  - destruct (Transformer_forward m ids past_kvs true) as [[logits c]|] eqn:Hf;
      cbn [bind]; [|discriminate].
    destruct (next_token logits) as [t|] eqn:Ht; cbn [bind]; [|discriminate].
    apply IH. apply Forall_app. split; [assumption|]. constructor; [|constructor].
    apply next_token_lt with (logits := logits); [|assumption].
    apply (wf_logits_width cfg m wf _ _ _ Hf).
Qed.

(** Property X9.  When at least one token is generated, every token of the returned
    sequence is below [vocab_size], the prompt's tokens included: the
    sequence can be fed to the model again. *)
Theorem decode_stays_in_vocabulary (input_ids : list nat) (max_len : nat)
    (out : list nat) :
  length input_ids < max_len ->
  greedy_decode m input_ids max_len = Some out
  \/ greedy_decode_with_kv_cache m input_ids max_len = Some out ->
  Forall (fun t => t < cfg_vocab_size cfg) out.
Proof.
  intros Hlen H. destruct (wf_tables cfg m wf) as [Hv _].
  unfold greedy_decode, greedy_decode_with_kv_cache in H.
  destruct (max_len - length input_ids) as [|n] eqn:E; [lia|].
  destruct H as [H|H].
  - apply greedy_decode_loop_vocab with (n := S n) (ids := input_ids); [|assumption].
    cbn [greedy_decode_loop] in H.
    destruct (Transformer_forward m input_ids None false) as [r|] eqn:Hf;
      [|discriminate].
    apply Transformer_forward_indices in Hf as [Ht _]. rewrite Hv in Ht. exact Ht.
  - apply greedy_decode_with_kv_cache_loop_vocab
      with (n := S n) (input_ids := input_ids) (past_kvs := @None cache)
           (generated := input_ids); [|assumption].
    cbn [greedy_decode_with_kv_cache_loop] in H.
    destruct (Transformer_forward m input_ids None true) as [r|] eqn:Hf;
      [|discriminate].
    apply Transformer_forward_indices in Hf as [Ht _]. rewrite Hv in Ht. exact Ht.
Qed.



End DecodeShape.

Section Resume.

Context {Sc : Scalar}.

Lemma greedy_decode_loop_add (m : Transformer) (a b : nat) :
  forall ids,
  greedy_decode_loop (a + b) m ids
  = (out <- greedy_decode_loop a m ids ;; greedy_decode_loop b m out).
Proof.
  induction a as [|a IH]; intros ids; [reflexivity|].
  cbn [plus greedy_decode_loop].
  destruct (Transformer_forward m ids None false) as [[logits c]|]; cbn [bind];
    [|reflexivity].
  destruct (next_token logits) as [t|]; cbn [bind]; [|reflexivity].
  apply IH.
Qed.

(** Property X10.  Decoding can be resumed: generating up to [len1] and then, from that
    result, up to [len2 >= len1] is generating up to [len2] at once; the
    result of the shorter run is what the longer run starts with. *)
Theorem greedy_decode_resume (model : Transformer) (input_ids : list nat)
    (len1 len2 : nat) :
  len1 <= len2 ->
  greedy_decode model input_ids len2
  = (out1 <- greedy_decode model input_ids len1 ;; greedy_decode model out1 len2)
  /\ (forall out1 out2,
        greedy_decode model input_ids len1 = Some out1 ->
        greedy_decode model input_ids len2 = Some out2 ->
        firstn (length out1) out2 = out1).
Proof.
  intros Hle.
  assert (E : greedy_decode model input_ids len2
              = (out1 <- greedy_decode model input_ids len1 ;;
                 greedy_decode model out1 len2)).
  { unfold greedy_decode.
    replace (len2 - length input_ids)
      with ((len1 - length input_ids) + (len2 - Nat.max len1 (length input_ids))) by lia.
    rewrite greedy_decode_loop_add.
    destruct (greedy_decode_loop (len1 - length input_ids) model input_ids) as [out1|] eqn:H1;
      cbn [bind]; [|reflexivity].
    apply greedy_decode_loop_shape in H1 as [_ Hlen].
    f_equal. lia. }
  split; [exact E|].
  intros out1 out2 H1 H2. rewrite E, H1 in H2. cbn [bind] in H2.
  apply greedy_decode_loop_shape in H2 as [Hpre _]. exact Hpre.
Qed.

End Resume.

(** ** The cache across calls *)

Section CachedDecode.

Context {Sc : Scalar}.

Variables (cfg : Config) (m : Transformer).
Hypothesis wf : wf_Transformer cfg m = true.
Hypothesis layers : hidden_layers m <> [].

Lemma greedy_decode_with_kv_cache_loop_overflow (n : nat) :
  forall input_ids past_kvs generated,
  input_ids <> [] ->
  past_length past_kvs + length input_ids = length generated ->
  cfg_max_seq_len cfg + 1 < length generated + S n ->
  greedy_decode_with_kv_cache_loop (S n) m input_ids past_kvs generated = None.
Proof.
  destruct (wf_tables cfg m wf) as [_ Hp].
  induction n as [|n IH]; intros ids past_kvs generated Hne Hinv Hlen;
    cbn [greedy_decode_with_kv_cache_loop].
  - destruct (Transformer_forward m ids past_kvs true) as [[logits c]|] eqn:Hf;
      cbn [bind]; [|reflexivity].
    apply Transformer_forward_indices in Hf as [_ [-> | H]]; [congruence | lia].
  - destruct (Transformer_forward m ids past_kvs true) as [[logits c]|] eqn:Hf;
      cbn [bind]; [|reflexivity].
    destruct (next_token logits) as [t|]; cbn [bind]; [|reflexivity].
    rewrite Transformer_forward_at_eq in Hf.
    apply past_length_next in Hf; [|assumption|assumption].
    apply IH; [discriminate | | ].
    + rewrite length_app. simpl. lia.
    + rewrite length_app. simpl. lia.
Qed.

(** Property X6.  With at least one layer the cached decoding has the same limit: the
    position of each new token is the length of the cache, so asking for
    more than [max_seq_len + 1] tokens raises on a position index. *)
Theorem cached_decode_beyond_context (input_ids : list nat) (max_len : nat) :
  length input_ids < max_len ->
  cfg_max_seq_len cfg + 1 < max_len ->
  greedy_decode_with_kv_cache m input_ids max_len = None.
Proof.
  intros Hlen Hmax. destruct input_ids as [|t ids].
  - unfold greedy_decode_with_kv_cache.
    destruct (max_len - length (@nil nat)) as [|n] eqn:E; [simpl in E; lia|].
    apply empty_prompt_loops.
  - unfold greedy_decode_with_kv_cache.
    destruct (max_len - length (t :: ids)) as [|n] eqn:E; [lia|].
    apply greedy_decode_with_kv_cache_loop_overflow; [discriminate | reflexivity | lia].
Qed.

End CachedDecode.

Section StatelessCache.

Context {Sc : Scalar}.

Lemma run_layers_stateless_cache (layers : list DecoderBlock) :
  forall i x kvs,
  i + length layers <= length kvs ->
  run_layers layers i x (Some kvs) false = run_layers layers i x None false.
Proof.
  induction layers as [|l ls IH]; intros i x kvs Hlen; [reflexivity|].
  cbn [run_layers past_kv_at]. simpl in Hlen.
  destruct (nth_error kvs i) as [e|] eqn:Hn.
  - cbn [bind].
    destruct (DecoderBlock_forward l x None false) as [[y e']|]; cbn [bind];
      [|reflexivity].
    rewrite IH by lia. reflexivity.
  - apply nth_error_None in Hn. lia.
Qed.

Lemma run_layers_stateless_short (layers : list DecoderBlock) :
  forall i x kvs,
  i <= length kvs -> length kvs < i + length layers ->
  run_layers layers i x (Some kvs) false = None.
Proof.
  induction layers as [|l ls IH]; intros i x kvs Hi0 Hlen; [simpl in Hlen; lia|].
  cbn [run_layers past_kv_at]. simpl in Hlen.
  destruct (nth_error kvs i) as [e|] eqn:Hn; cbn [bind]; [|reflexivity].
  assert (Hi : i < length kvs) by (apply nth_error_Some; congruence).
  destruct (DecoderBlock_forward l x None false) as [[y e']|]; cbn [bind];
    [|reflexivity].
  rewrite IH by lia. reflexivity.
Qed.

(** Property X12.  A call with [use_cache = False] that is given a cache never reads the
    cached keys and values: two caches with an entry for every layer and
    the same past length give the same result, a cache without past
    positions gives the result of the call without cache, and no cache is
    returned.  The entries are still indexed: a cache with fewer entries
    than layers makes the call raise. *)
Theorem stateless_call_ignores_cache (m : Transformer) (input_ids : list nat)
    (kvs : cache) :
  (forall kvs' : cache,
     length (hidden_layers m) <= length kvs ->
     length (hidden_layers m) <= length kvs' ->
     past_length (Some kvs) = past_length (Some kvs') ->
     Transformer_forward m input_ids (Some kvs) false
     = Transformer_forward m input_ids (Some kvs') false)
  /\ (length (hidden_layers m) <= length kvs ->
      past_length (Some kvs) = 0 ->
      Transformer_forward m input_ids (Some kvs) false
      = Transformer_forward m input_ids None false)
  /\ (forall logits c,
        Transformer_forward m input_ids (Some kvs) false = Some (logits, c) -> c = None)
  /\ (length kvs < length (hidden_layers m) ->
      Transformer_forward m input_ids (Some kvs) false = None).
Proof.
  split; [|split; [|split]].
  - intros kvs' H1 H2 Hp. rewrite !Transformer_forward_at_eq, Hp.
    unfold Transformer_forward_at.
    destruct (embedding (token_embed m) input_ids); cbn [bind]; [|reflexivity].
    destruct (embedding (position_embed m) _); cbn [bind]; [|reflexivity].
    rewrite !run_layers_stateless_cache by (simpl; assumption). reflexivity.
  - intros H1 Hp. rewrite !Transformer_forward_at_eq, Hp.
    unfold Transformer_forward_at. cbn [past_length].
    destruct (embedding (token_embed m) input_ids); cbn [bind]; [|reflexivity].
    destruct (embedding (position_embed m) _); cbn [bind]; [|reflexivity].
    rewrite !run_layers_stateless_cache by (simpl; assumption). reflexivity.
  - intros logits c. unfold Transformer_forward.
    destruct (embedding (token_embed m) input_ids); cbn [bind]; [|discriminate].
    destruct (embedding (position_embed m) _); cbn [bind]; [|discriminate].
    destruct (run_layers _ _ _ _ _) as [[y c']|]; cbn [bind]; [|discriminate].
    intros H; injection H as _ <-. reflexivity.
  - intros Hlen. unfold Transformer_forward.
    destruct (embedding (token_embed m) input_ids); cbn [bind]; [|reflexivity].
    destruct (embedding (position_embed m) _); cbn [bind]; [|reflexivity].
    rewrite run_layers_stateless_short by (simpl; lia). reflexivity.
Qed.

End StatelessCache.

Section ReturnedCache.

Context {Sc : Scalar}.

Lemma attention_entry_ok h (self : SingleHeadSelfAttention) x past_kv o e :
  wf_SingleHeadSelfAttention h self = true ->
  SingleHeadSelfAttention_forward self x past_kv true = Some (o, e) ->
  exists k v, e = Some (k, v) /\ past_ok h (Some (k, v)) = true.
Proof.
  intros wf. pose proof (wf_hidden_size h self wf) as Hh.
  unfold SingleHeadSelfAttention_forward.
  destruct (negb _); [discriminate|].
  fold (k_rows self x) (v_rows self x) (q_rows self x).
  pose proof (k_rows_width h self wf x) as Wk.
  pose proof (v_rows_width h self wf x) as Wv.
  rewrite Hh in *.
  assert (E : forall K V,
             (attn0 <- masked_fill (scores h (q_rows self x) K)
                         (causal_mask (length K) (length x)) ;;
              attn_output <- matmul (length K) (map softmax attn0) h V ;;
              Some (map (Linear_forward (c_proj self)) attn_output, Some (K, V)))
             = Some (o, e) ->
             has_width h K = true -> has_width h V = true ->
             exists k v, e = Some (k, v) /\ past_ok h (Some (k, v)) = true).
  { intros K V. destruct (masked_fill _ _) as [a|]; cbn [bind]; [|discriminate].
    unfold matmul. destruct (length K =? length V) eqn:EL; cbn [bind]; [|discriminate].
    intros H HK HV; injection H as _ <-. exists K, V. split; [reflexivity|].
    cbn [past_ok]. rewrite HK, HV, EL. reflexivity. }
  destruct past_kv as [[pk pv]|]; cbn [bind].
  - unfold cat_rows. fold (has_width h pk) (has_width h pv).
    destruct (has_width h pk) eqn:Hpk; cbn [bind]; [|discriminate].
    destruct (has_width h pv) eqn:Hpv; cbn [bind]; [|discriminate].
    intros H. apply E in H; [assumption| |]; rewrite has_width_app.
    + rewrite Hpk, Wk. reflexivity.
    + rewrite Hpv, Wv. reflexivity.
  - intros H. apply E in H; assumption.
Qed.

Lemma run_layers_entries_ok h ff (layers : list DecoderBlock) :
  forallb (wf_DecoderBlock h ff) layers = true ->
  forall i x past_kvs y c,
  run_layers layers i x past_kvs true = Some (y, c) ->
  length c = length layers
  /\ Forall (fun e : kv => past_ok h (Some e) = true) c.
Proof.
  induction layers as [|l ls IH]; intros wf i x past_kvs y c; cbn [run_layers].
  - intros H; injection H as _ <-. split; [reflexivity | constructor].
  - simpl in wf. apply andb_true_iff in wf as [wfl wfls].
    assert (wfa : wf_SingleHeadSelfAttention h (attn l) = true)
      by (unfold wf_DecoderBlock in wfl; rewrite !andb_true_iff in wfl; tauto).
    destruct (past_kv_at past_kvs i) as [pkv|]; cbn [bind]; [|discriminate].
    rewrite DecoderBlock_forward_cached.
    destruct (SingleHeadSelfAttention_forward (attn l) _ pkv true) as [[o e]|] eqn:Ha;
      cbn [bind]; [|discriminate].
    apply attention_entry_ok with (h := h) in Ha as (k & v & -> & Hok); [|assumption].
    destruct (run_layers ls (S i) _ past_kvs true) as [[z c']|] eqn:Hr;
      cbn [bind]; [|discriminate].
    intros H; injection H as _ <-.
    apply (IH wfls) in Hr as [Hc Hall].
    split; [simpl; congruence | constructor; assumption].
Qed.

(** Property X11.  What a cached call returns, whatever cache it was given: one row of
    logits per input token, each of width [vocab_size], and a cache with one
    entry per layer, every entry consistent in itself (keys and values of
    width [hidden_size], as many keys as values); such an entry is what the
    attention layer accepts on the next call. *)
Theorem returned_cache_is_consistent (cfg : Config) (m : Transformer)
    (input_ids : list nat) (past_kvs : option cache) logits c :
  wf_Transformer cfg m = true ->
  Transformer_forward m input_ids past_kvs true = Some (logits, c) ->
  length logits = length input_ids
  /\ has_width (cfg_vocab_size cfg) logits = true
  /\ exists kvs, c = Some kvs
       /\ length kvs = cfg_num_hidden_layers cfg
       /\ Forall (fun e : kv => past_ok (cfg_hidden_size cfg) (Some e) = true) kvs.
Proof.
  intros wf Hf. split; [|split].
  - apply Transformer_forward_rows in Hf. exact Hf.
  - apply (wf_logits_width cfg m wf _ _ _ Hf).
  - pose proof (wf_layers cfg m wf) as wfl.
    assert (Hn : length (hidden_layers m) = cfg_num_hidden_layers cfg).
    { pose proof wf as wf'. unfold wf_Transformer in wf'. cbv zeta in wf'.
      rewrite !andb_true_iff, !Nat.eqb_eq in wf'. tauto. }
    unfold Transformer_forward in Hf.
    destruct (embedding (token_embed m) input_ids); cbn [bind] in Hf; [|discriminate].
    destruct (embedding (position_embed m) _); cbn [bind] in Hf; [|discriminate].
    destruct (run_layers _ _ _ _ _) as [[y c']|] eqn:Hr; cbn [bind] in Hf; [|discriminate].
    injection Hf as _ <-.
    apply (run_layers_entries_ok _ _ _ wfl) in Hr as [Hc Hall].
    exists c'. split; [reflexivity|]. split; [congruence | assumption].
Qed.

End ReturnedCache.

Section EmptyInput.

Context {Sc : Scalar}.

Lemma tril_two_rows n : exists r0 r1 rest, tril (S (S n)) = r0 :: r1 :: rest.
Proof. unfold tril. cbn [seq map]. eauto. Qed.

(** Property X13.  The attention layer on an input without rows.  Without an entry it
    returns no row (and empty keys and values).  With an entry the slice
    [[-seq_len:]] of the mask is [[-0:]], the whole lower-triangular matrix
    and not its last 0 rows: the call raises as soon as the entry holds two
    or more positions, and returns the entry unchanged when it holds one
    position or none. *)
Theorem attention_on_empty_input (self : SingleHeadSelfAttention)
    (past_k past_v : list (list scalar)) (use_cache : bool) :
  SingleHeadSelfAttention_forward self [] None use_cache
  = Some ([], if use_cache then Some ([], []) else None)
  /\ (2 <= length past_k ->
      SingleHeadSelfAttention_forward self [] (Some (past_k, past_v)) use_cache = None)
  /\ (length past_k <= 1 ->
      past_ok (hidden_size self) (Some (past_k, past_v)) = true ->
      SingleHeadSelfAttention_forward self [] (Some (past_k, past_v)) use_cache
      = Some ([], if use_cache then Some (past_k, past_v) else None)).
Proof.
  split; [|split].
  - destruct use_cache; reflexivity.
  - intros Hk. unfold SingleHeadSelfAttention_forward.
    cbn [forallb negb map length]. unfold cat_rows.
    destruct (forallb _ past_k); cbn [bind]; [|reflexivity].
    destruct (forallb _ past_v); cbn [bind]; [|reflexivity].
    rewrite !app_nil_r. unfold causal_mask, last_rows. cbn [Nat.eqb scores map].
    destruct (length past_k) as [|[|n]] eqn:E; [lia | lia |].
    destruct (tril_two_rows n) as (r0 & r1 & rest & ->).
    reflexivity.
  - intros Hk Hok. cbn [past_ok] in Hok.
    apply andb_true_iff in Hok as [Hw Hl]. apply andb_true_iff in Hw as [Hwk Hwv].
    apply Nat.eqb_eq in Hl.
    unfold SingleHeadSelfAttention_forward.
    cbn [forallb negb map length]. unfold cat_rows.
    unfold has_width in Hwk, Hwv. rewrite Hwk, Hwv. cbn [bind].
    rewrite !app_nil_r. unfold causal_mask, last_rows. cbn [Nat.eqb scores map].
    unfold matmul. rewrite Hl, Nat.eqb_refl.
    destruct (length past_v) as [|[|n]] eqn:E; [| |lia];
      destruct use_cache; reflexivity.
Qed.

End EmptyInput.

(** ** Shapes and the assertion of the attention layer *)

Section ModuleShapes.

Context {Sc : Scalar}.

Lemma empty_of_length (A B : Type) (l : list A) (l' : list B) :
  l = [] -> length l' = length l -> l' = [].
Proof. intros -> H. destruct l'; [reflexivity | discriminate]. Qed.

Lemma attention_output_shape h (self : SingleHeadSelfAttention) x past_kv use_cache o e :
  wf_SingleHeadSelfAttention h self = true ->
  SingleHeadSelfAttention_forward self x past_kv use_cache = Some (o, e) ->
  length o = length x /\ has_width h o = true.
Proof.
  intros wf Hf.
  assert (Hlen : length o = length x).
  { destruct use_cache.
    - apply attention_shape in Hf. tauto.
    - rewrite attention_use_cache in Hf.
      destruct (SingleHeadSelfAttention_forward self x past_kv true) as [[o' e']|] eqn:Ht;
        cbn [bind] in Hf; [|discriminate].
      injection Hf as <- _. apply attention_shape in Ht. tauto. }
  split; [exact Hlen|].
  destruct x as [|r x].
  - destruct o; [reflexivity | discriminate].
  - eapply proj1, attention_width; [exact wf | | exact Hf]. discriminate.
Qed.

Lemma DecoderBlock_output_shape h ff (self : DecoderBlock) x past_kv use_cache y e :
  wf_DecoderBlock h ff self = true ->
  DecoderBlock_forward self x past_kv use_cache = Some (y, e) ->
  length y = length x /\ has_width h y = true.
Proof.
  intros wf Hf.
  assert (Ht : exists e', DecoderBlock_forward self x
                            (if use_cache then past_kv else None) true = Some (y, e')).
  { destruct use_cache; [eauto|].
    change (DecoderBlock_forward self x past_kv false)
      with (DecoderBlock_forward self x None false) in Hf.
    rewrite DecoderBlock_use_cache in Hf.
    destruct (DecoderBlock_forward self x None true) as [[y' e']|]; cbn [bind] in Hf;
      [|discriminate].
    injection Hf as <- _. eauto. }
  destruct Ht as [e' Ht].
  pose proof (DecoderBlock_shape _ _ _ Ht) as [Hlen _].
  split; [exact Hlen|].
  destruct x as [|r x].
  - destruct y; [reflexivity | discriminate].
  - eapply DecoderBlock_width; [exact wf | | exact Ht]. discriminate.
Qed.

(** Property X15.  Every module maps a tensor of shape (seq_len, hidden_size) to a tensor
    of the same shape, as the notebook's tests print: the layer norm and
    the MLP always, the attention layer and the decoder block whenever they
    return, with or without cache. *)
Theorem module_output_shapes (h ff : nat) (x : list (list scalar)) :
  has_width h x = true ->
  (forall ln : LayerNorm, wf_LayerNorm h ln = true ->
     length (LayerNorm_forward ln x) = length x
     /\ has_width h (LayerNorm_forward ln x) = true)
  /\ (forall m : MLP, wf_MLP h ff m = true ->
        length (MLP_forward m x) = length x
        /\ has_width h (MLP_forward m x) = true)
  /\ (forall (a : SingleHeadSelfAttention) past_kv use_cache out e,
        wf_SingleHeadSelfAttention h a = true ->
        SingleHeadSelfAttention_forward a x past_kv use_cache = Some (out, e) ->
        length out = length x /\ has_width h out = true)
  /\ (forall (b : DecoderBlock) past_kv use_cache out e,
        wf_DecoderBlock h ff b = true ->
        DecoderBlock_forward b x past_kv use_cache = Some (out, e) ->
        length out = length x /\ has_width h out = true).
Proof.
  intros Hx. split; [|split; [|split]].
  - intros ln wf. split; [apply length_map | apply LayerNorm_forward_width; assumption].
  - intros m wf. split; [apply MLP_forward_length|].
    apply MLP_forward_width with (ff := ff). assumption.
  - intros a past_kv use_cache out e wf Hf.
    eapply attention_output_shape; eassumption.
  - intros b past_kv use_cache out e wf Hf.
    eapply DecoderBlock_output_shape; eassumption.
Qed.

(** Property X14.  For a layer with the constructor's shapes and a
    hidden size of at least 1, on a non-empty input and, when an entry is
    supplied, cached keys that hold at least one position (a tensor without
    rows carries no width here), the attention layer raises in exactly these
    cases: a row of the input whose width is not [hidden_size] (the
    assertion), a cached key or value row whose width is not [hidden_size]
    ([torch.cat]), or an entry with a different number of keys and values
    ([attn @ v]). *)
Theorem attention_raises_iff (self : SingleHeadSelfAttention)
    (x : list (list scalar)) (past_kv : option kv) (use_cache : bool) :
  wf_SingleHeadSelfAttention (hidden_size self) self = true ->
  1 <= hidden_size self ->
  x <> [] ->
  (forall past_k past_v, past_kv = Some (past_k, past_v) -> past_k <> []) ->
  (SingleHeadSelfAttention_forward self x past_kv use_cache = None
   <-> (has_width (hidden_size self) x = false
        \/ exists past_k past_v,
             past_kv = Some (past_k, past_v)
             /\ (has_width (hidden_size self) past_k = false
                 \/ has_width (hidden_size self) past_v = false
                 \/ length past_k <> length past_v))).
Proof.
  intros _ _ Hx _. rewrite attention_char by assumption.
  destruct (has_width (hidden_size self) x) eqn:Hw; cbn [andb].
  2:{ split; [auto | reflexivity]. }
  destruct past_kv as [[pk pv]|]; cbn [past_ok].
  - destruct (has_width (hidden_size self) pk) eqn:Hk; cbn [andb].
    2:{ split; [|reflexivity]. intros _. right. exists pk, pv. auto. }
    destruct (has_width (hidden_size self) pv) eqn:Hv; cbn [andb].
    2:{ split; [|reflexivity]. intros _. right. exists pk, pv. auto. }
    destruct (Nat.eqb_spec (length pk) (length pv)) as [E|E].
    + split; [discriminate|].
      intros [H | (k & v & H & H')]; [discriminate|].
      injection H as <- <-. destruct H' as [H' | [H' | H']]; congruence.
    + split; [|reflexivity]. intros _. right. exists pk, pv. auto.
  - split; [discriminate|].
    intros [H | (k & v & H & _)]; discriminate.
Qed.

End ModuleShapes.

(** ** The arithmetic of the modules, over the reals *)

Section RealArithmetic.

Local Open Scope R_scope.

Lemma Rsum_map_div (l : list R) (s : R) :
  fold_right Rplus 0 (map (fun a => a / s) l) = fold_right Rplus 0 l / s.
Proof.
  induction l as [|a l IH]; cbn [map fold_right].
  - unfold Rdiv. ring.
  - rewrite IH. unfold Rdiv. ring.
Qed.

Lemma Rsum_nonneg (l : list R) :
  Forall (fun a => 0 <= a) l -> 0 <= fold_right Rplus 0 l.
Proof.
  induction 1 as [|a l Ha _ IH]; cbn [fold_right]; lra.
Qed.

Lemma Rsum_pos (l : list R) (c : nat) :
  Forall (fun a => 0 <= a) l -> (c < length l)%nat -> 0 < nth c l 0 ->
  0 < fold_right Rplus 0 l.
Proof.
  intros Hall. revert c. induction Hall as [|a l Ha Hl IH]; intros c Hc Hpos;
    cbn [length nth fold_right] in *; [lia|].
  destruct c as [|c].
  - pose proof (Rsum_nonneg Hl) as H. lra.
  - specialize (IH c ltac:(lia) Hpos). lra.
Qed.

Lemma exp_ext_nonneg (o : option R) : 0 <= exp_ext (Sc := RScalar) o.
Proof. destruct o as [a|]; cbn [exp_ext]; reals; [left; apply exp_pos | lra]. Qed.

Lemma fill_row_tril_nth (a : list R) n r c :
  length a = n -> (c < n)%nat ->
  nth c (fill_row (Sc := RScalar) a (tril_row n r)) None
  = if (c <=? r)%nat then Some (nth c a 0) else None.
Proof.
  intros Ha Hc. unfold fill_row.
  rewrite nth_zip_with with (da := 0) (db := false)
    by (rewrite ?tril_row_length; lia).
  rewrite tril_row_entry by assumption. reflexivity.
Qed.

Lemma softmax_nth (row : list (option R)) c :
  (c < length row)%nat ->
  nth c (softmax (Sc := RScalar) row) 0
  = exp_ext (Sc := RScalar) (nth c row None)
    / fold_right Rplus 0 (map (exp_ext (Sc := RScalar)) row).
Proof.
  intros Hc. unfold softmax.
  rewrite nth_map_in with (da := 0) by (rewrite length_map; assumption).
  rewrite nth_map_in with (da := None) by assumption. reflexivity.
Qed.

(** Property X16.  The attention weights of a query are a probability distribution over
    the positions it may see.  For the new token [j] of [s], behind [p]
    cached positions, and whatever its scores: the weights are as many as
    the keys, none is negative, they sum to 1, and every position up to the
    query's own has a positive weight. *)
Theorem attention_weights_distribution (p s j : nat) (scores_j : list R) :
  (j < s)%nat -> length scores_j = (p + s)%nat ->
  forall w : list R,
  w = softmax (Sc := RScalar)
        (fill_row (Sc := RScalar) scores_j (nth j (causal_mask (p + s) s) [])) ->
  length w = (p + s)%nat
  /\ sum (Sc := RScalar) w = 1
  /\ (forall c, 0 <= nth c w 0)
  /\ (forall c, (c <= p + j)%nat -> 0 < nth c w 0).
Proof.
  intros Hj Hlen w ->.
  rewrite causal_mask_rows by lia.
  rewrite nth_map_in with (da := 0%nat) by (rewrite length_seq; assumption).
  rewrite seq_nth by assumption.
  set (row := fill_row (Sc := RScalar) scores_j (tril_row (p + s) (p + j))).
  assert (Lrow : length row = (p + s)%nat).
  { unfold row, fill_row. rewrite zip_with_length, tril_row_length.
    cbn [scalar RScalar] in *. lia. }
  set (e := map (exp_ext (Sc := RScalar)) row).
  assert (He : Forall (fun a => 0 <= a) e).
  { unfold e. rewrite Forall_forall. intros a Ha.
    apply in_map_iff in Ha as (o & <- & _). apply exp_ext_nonneg. }
  assert (Hvis : forall c, (c <= p + j)%nat -> 0 < nth c e 0).
  { intros c Hc. unfold e.
    rewrite nth_map_in with (da := None) by lia.
    unfold row. rewrite fill_row_tril_nth by lia.
    replace (c <=? p + j)%nat with true by (symmetry; apply Nat.leb_le; assumption).
    cbn [exp_ext]. reals. apply exp_pos. }
  assert (Hs : 0 < fold_right Rplus 0 e).
  { apply Rsum_pos with (c := 0%nat); [assumption | | apply Hvis; lia].
    unfold e. rewrite length_map. lia. }
  pose proof (softmax_length (Sc := RScalar) row) as Lsm.
  cbn [scalar RScalar] in *.
  split; [|split; [|split]].
  - lia.
  - unfold softmax. reals. rewrite Rsum_map_div. field.
    fold e. lra.
  - intros c. destruct (Nat.lt_ge_cases c (length row)) as [Hc|Hc].
    + rewrite softmax_nth by assumption. fold e.
      apply Rmult_le_pos; [apply exp_ext_nonneg|].
      left. apply Rinv_0_lt_compat. exact Hs.
    + rewrite nth_overflow by lia. lra.
  - intros c Hc. rewrite softmax_nth by lia. fold e.
    apply Rmult_lt_0_compat; [|apply Rinv_0_lt_compat; exact Hs].
    specialize (Hvis c Hc). unfold e in Hvis.
    rewrite nth_map_in with (da := None) in Hvis by lia. exact Hvis.
Qed.

Lemma softmax_masked_row (p s j : nat) (scores_j : list R) (c : nat) :
  (j < s)%nat -> length scores_j = (p + s)%nat -> (c < p + s)%nat ->
  (0 < nth c (softmax (Sc := RScalar)
                (fill_row (Sc := RScalar) scores_j (tril_row (p + s) (p + j)))) 0
   <-> (c <= p + j)%nat)
  /\ ((p + j < c)%nat ->
      nth c (softmax (Sc := RScalar)
               (fill_row (Sc := RScalar) scores_j (tril_row (p + s) (p + j)))) 0 = 0).
Proof.
  intros Hj Hlen Hc.
  set (row := fill_row (Sc := RScalar) scores_j (tril_row (p + s) (p + j))).
  assert (Lrow : length row = (p + s)%nat).
  { unfold row, fill_row. rewrite zip_with_length, tril_row_length.
    cbn [scalar RScalar] in *. lia. }
  set (e := map (exp_ext (Sc := RScalar)) row).
  assert (He : Forall (fun a => 0 <= a) e).
  { unfold e. rewrite Forall_forall. intros a Ha.
    apply in_map_iff in Ha as (o & <- & _). apply exp_ext_nonneg. }
  assert (Hs : 0 < fold_right Rplus 0 e).
  { apply Rsum_pos with (c := 0%nat); [assumption | unfold e; rewrite length_map; lia |].
    unfold e. rewrite nth_map_in with (da := None) by (cbn [scalar RScalar] in *; lia).
    unfold row. rewrite fill_row_tril_nth by (cbn [scalar RScalar] in *; lia).
    cbn [Nat.leb exp_ext]. reals. apply exp_pos. }
  cbn [scalar RScalar] in *.
  rewrite softmax_nth by lia. subst e row.
  rewrite fill_row_tril_nth by lia.
  destruct (Nat.leb_spec c (p + j)) as [Hle|Hgt]; cbn [exp_ext]; reals.
  - split; [|lia]. split; [intros _; assumption|]. intros _.
    apply Rmult_lt_0_compat; [apply exp_pos | apply Rinv_0_lt_compat; exact Hs].
  - assert (E : forall a, 0 / a = 0) by (intros a; unfold Rdiv; ring).
    rewrite E. split; [|reflexivity]. split; [lra | lia].
Qed.

(** Property X24.  Over the reals, in a call of the attention layer on at
    least one row, with [P] cached positions and [S] new rows: the weights
    that are multiplied with the values are the softmax of the causally
    masked scores, and the weight of query [j] is positive at exactly the
    [P] cached positions and the new positions [0..j]; at every later
    position it is 0. *)
Theorem attention_sees_exactly_the_past (self : SingleHeadSelfAttention (Sc := RScalar))
    (x : list (list R)) (past_kv : option (list (list R) * list (list R))) (use_cache : bool) :
  x <> [] ->
  has_width (hidden_size self) x = true ->
  past_ok (hidden_size self) past_kv = true ->
  let P := length (past_keys past_kv) in
  let S := length x in
  let K := past_keys past_kv ++ k_rows self x in
  let V := past_values past_kv ++ v_rows self x in
  exists attn : list (list (option R)),
    masked_fill (scores (hidden_size self) (q_rows self x) K)
      (skipn P (tril (P + S))) = Some attn
    /\ SingleHeadSelfAttention_forward self x past_kv use_cache
       = (attn_output <- matmul (P + S) (map softmax attn) (hidden_size self) V ;;
          Some (map (Linear_forward (c_proj self)) attn_output,
                if use_cache then Some (K, V) else None))
    /\ (forall j c, (j < S)%nat -> (c < P + S)%nat ->
          (0 < nth c (nth j (map softmax attn) []) 0 <-> (c <= P + j)%nat)
          /\ ((P + j < c)%nat -> nth c (nth j (map softmax attn) []) 0 = 0)).
Proof.
  intros Hx Hw Hok P S K V.
  assert (HS : (1 <= S)%nat) by (subst S; destruct x; simpl; [congruence | lia]).
  assert (LK : length K = (P + S)%nat)
    by (subst K P S; rewrite length_app, k_rows_length; reflexivity).
  assert (Htril : skipn P (tril (P + S)) = causal_mask (P + S) S).
  { unfold causal_mask, last_rows, tril.
    destruct (Nat.eqb_spec S 0); [lia|].
    rewrite length_map, length_seq. f_equal. lia. }
  rewrite Htril.
  assert (Hmask : causal_mask (P + S) S = map (tril_row (P + S)) (seq P S))
    by (apply causal_mask_rows; assumption).
  exists (zip_with fill_row (scores (hidden_size self) (q_rows self x) K)
            (causal_mask (P + S) S)).
  assert (Hfill : masked_fill (scores (hidden_size self) (q_rows self x) K)
                    (causal_mask (P + S) S)
                  = Some (zip_with fill_row (scores (hidden_size self) (q_rows self x) K)
                            (causal_mask (P + S) S))).
  { apply masked_fill_rows.
    rewrite Hmask, length_map, length_seq, scores_length, q_rows_length. reflexivity. }
  split; [exact Hfill|]. split.
  - rewrite attention_masked by assumption.
    unfold P, S, K, V in *. cbn [scalar RScalar] in *.
    rewrite Hfill. reflexivity.
  - intros j c Hj Hc. unfold P, S, K, V in *.
    rewrite nth_map_in with (da := [])
      by (rewrite zip_with_length, scores_length, q_rows_length, Hmask,
            length_map, length_seq; cbn [scalar RScalar] in *; lia).
    rewrite nth_zip_with with (da := []) (db := [])
      by (rewrite ?scores_length, ?q_rows_length, ?Hmask, ?length_map, ?length_seq;
          cbn [scalar RScalar] in *; lia).
    rewrite Hmask.
    rewrite nth_map_in with (da := 0%nat) by (rewrite length_seq; assumption).
    rewrite seq_nth by assumption.
    apply softmax_masked_row; [assumption | | assumption].
    pose proof (@scores_row_length RScalar (hidden_size self) (q_rows self x)
                  (past_keys past_kv ++ k_rows self x) j
                  ltac:(rewrite q_rows_length; assumption)) as Hr.
    cbn [scalar RScalar] in *. lia.
Qed.

Lemma Rsum_repeat (c : R) (n : nat) : fold_right Rplus 0 (repeat c n) = INR n * c.
Proof.
  induction n as [|n IH]; [simpl; ring|].
  rewrite S_INR. cbn [repeat fold_right]. rewrite IH. ring.
Qed.

Lemma Rmean_repeat (c : R) (n : nat) :
  (1 <= n)%nat -> mean (Sc := RScalar) (repeat c n) = c.
Proof.
  intros Hn. reals. rewrite Rsum_repeat, repeat_length.
  field. apply not_0_INR. lia.
Qed.

Lemma zip_mul_zero_row (n : nat) (g : list R) :
  length g = n -> zip_with Rmult (repeat 0 n) g = repeat 0 n.
Proof.
  revert g. induction n as [|n IH]; intros [|a g] H; simpl in *; try discriminate;
    [reflexivity|].
  rewrite IH by lia. f_equal. ring.
Qed.

Lemma zip_add_zero_row (n : nat) (b : list R) :
  length b = n -> zip_with Rplus (repeat 0 n) b = b.
Proof.
  revert b. induction n as [|n IH]; intros [|a b] H; simpl in *; try discriminate;
    [reflexivity|].
  rewrite IH by lia. f_equal. ring.
Qed.

(** Property X17.  A row whose entries are all equal has deviation 0 from its mean: both
    normalizations return their shift on it, [beta] for the notebook's
    [LayerNorm] and [bias] for [ln_f].  With [eps > 0] the denominator is
    positive although the standard deviation is 0; the row has at least two
    entries, as the unbiased standard deviation needs. *)
Theorem layer_norm_of_constant_row (ln : LayerNorm (Sc := RScalar))
    (lnf : nn_LayerNorm (Sc := RScalar)) (c : R) (n : nat) :
  (2 <= n)%nat ->
  (length (gamma ln) = n -> length (beta ln) = n -> 0 < eps ln ->
   LayerNorm_row ln (repeat c n) = beta ln)
  /\ (length (nn_weight lnf) = n -> length (nn_bias lnf) = n -> 0 < nn_eps lnf ->
      nn_LayerNorm_row lnf (repeat c n) = nn_bias lnf).
Proof.
  intros Hn.
  assert (E : forall d : R, @div RScalar (@sub RScalar c c) d = 0)
    by (intros d; reals; unfold Rdiv; ring).
  split.
  - intros Hg Hb _. unfold LayerNorm_row.
    rewrite Rmean_repeat by lia. rewrite map_repeat, E.
    cbn [add mul RScalar].
    rewrite zip_mul_zero_row by assumption. apply zip_add_zero_row. assumption.
  - intros Hg Hb _. unfold nn_LayerNorm_row.
    rewrite Rmean_repeat by lia. rewrite map_repeat, E.
    cbn [add mul RScalar].
    rewrite zip_mul_zero_row by assumption. apply zip_add_zero_row. assumption.
Qed.

Lemma Rsum_map_shift (x : list R) (c : R) :
  fold_right Rplus 0 (map (fun a => a + c) x)
  = fold_right Rplus 0 x + INR (length x) * c.
Proof.
  induction x as [|a x IH]; [simpl; ring|].
  cbn [map length fold_right]. rewrite S_INR, IH. ring.
Qed.

Lemma Rmean_shift (x : list R) (c : R) :
  x <> [] ->
  mean (Sc := RScalar) (map (fun a => a + c) x) = mean (Sc := RScalar) x + c.
Proof.
  intros Hx. reals. rewrite Rsum_map_shift, length_map.
  field. apply not_0_INR. destruct x; simpl; [congruence | lia].
Qed.

Lemma Rsq_dev_shift (x : list R) (c : R) :
  x <> [] ->
  sq_dev (Sc := RScalar) (map (fun a => a + c) x) = sq_dev (Sc := RScalar) x.
Proof.
  intros Hx. unfold sq_dev. rewrite Rmean_shift by assumption.
  rewrite map_map. f_equal. apply map_ext. intros a. reals. ring.
Qed.

(** Property X18.  Both normalizations are invariant under a shift of the row: adding a
    constant [c] to every entry of a non-empty row changes neither the
    deviations from the mean nor the variance, and the output is the same. *)
Theorem layer_norm_shift_invariant (ln : LayerNorm (Sc := RScalar))
    (lnf : nn_LayerNorm (Sc := RScalar)) (x : list R) (c : R) :
  x <> [] ->
  LayerNorm_row ln (map (fun a => a + c) x) = LayerNorm_row ln x
  /\ nn_LayerNorm_row lnf (map (fun a => a + c) x) = nn_LayerNorm_row lnf x.
Proof.
  intros Hx. split.
  - unfold LayerNorm_row, std.
    rewrite Rsq_dev_shift, Rmean_shift, length_map by assumption.
    rewrite map_map. do 2 f_equal. apply map_ext. intros a.
    reals. unfold Rdiv. ring.
  - unfold nn_LayerNorm_row, var_biased.
    rewrite Rsq_dev_shift, Rmean_shift, length_map by assumption.
    rewrite map_map. do 2 f_equal. apply map_ext. intros a.
    reals. unfold Rdiv. ring.
Qed.

Lemma map_nth_seq (v : list R) : map (fun c => nth c v 0) (seq 0 (length v)) = v.
Proof.
  induction v as [|a v IH]; [reflexivity|].
  cbn [length seq map nth]. f_equal.
  rewrite <- seq_shift, map_map. exact IH.
Qed.

(** Property X19.  The first position attends to itself alone: for a single row without a
    cache the softmax weight is 1, and the output of the attention layer is
    the output projection of the row's own value, whatever its query and
    its key. *)
Theorem first_position_attends_to_itself (h : nat)
    (self : SingleHeadSelfAttention (Sc := RScalar)) (x0 : list R) :
  wf_SingleHeadSelfAttention h self = true -> length x0 = h ->
  SingleHeadSelfAttention_forward self [x0] None false
  = Some ([Linear_forward (c_proj self)
             (skipn (2 * h) (Linear_forward (c_attn self) x0))], None).
Proof.
  intros wf Hx. pose proof (wf_hidden_size h self wf) as Hh.
  rewrite attention_char by discriminate.
  assert (Hw : has_width (hidden_size self) [x0] = true).
  { unfold has_width. cbn [forallb scalar RScalar]. rewrite Hh, Hx, Nat.eqb_refl.
    reflexivity. }
  rewrite Hw. cbn [past_ok andb past_keys past_values app length].
  do 2 f_equal. unfold attend, q_rows, k_rows, v_rows.
  cbn [map length seq zip_with]. do 2 f_equal.
  unfold attend_row. cbn [length map]. unfold tril_row. cbn [seq map Nat.leb].
  unfold fill_row. cbn [zip_with]. unfold softmax. cbn [map exp_ext].
  rewrite Hh.
  set (v := skipn (2 * h) (Linear_forward (c_attn self) x0)).
  assert (Lv : length v = h).
  { pose proof (v_rows_width h self wf [x0]) as H.
    unfold v_rows, has_width in H. cbn [map forallb] in H.
    rewrite andb_true_r, Hh in H. apply Nat.eqb_eq in H. exact H. }
  rewrite <- Lv at 1. rewrite <- (map_nth_seq v) at 2.
  apply map_ext. intros c. unfold column. cbn [map zip_with]. reals.
  cbn [zip_with fold_right].
  set (s := Rtrigo_def.exp _). assert (0 < s) by apply exp_pos.
  field. lra.
Qed.

Lemma argmax_from_spec (l : list R) :
  forall (pre : list R) (best : nat) (bv : R),
  (best < length pre)%nat -> bv = nth best pre 0 ->
  (forall j, (j < length pre)%nat -> nth j pre 0 <= bv) ->
  (forall j, (j < best)%nat -> nth j pre 0 < bv) ->
  forall t, t = argmax_from (Sc := RScalar) best bv (length pre) l ->
  (t < length (pre ++ l))%nat
  /\ (forall j, (j < length (pre ++ l))%nat -> nth j (pre ++ l) 0 <= nth t (pre ++ l) 0)
  /\ (forall j, (j < t)%nat -> nth j (pre ++ l) 0 < nth t (pre ++ l) 0).
Proof.
  induction l as [|a l IH]; intros pre best bv Hb Hbv Hle Hlt t ->;
    cbn [argmax_from].
  - rewrite app_nil_r. rewrite <- Hbv. auto.
  - assert (Lp : length (pre ++ [a]) = S (length pre))
      by (rewrite length_app; simpl; lia).
    replace (pre ++ a :: l) with ((pre ++ [a]) ++ l)
      by (rewrite <- app_assoc; reflexivity).
    reals. unfold Rltb. destruct (Rlt_dec bv a) as [Hlt'|Hge].
    + apply IH with (best := length pre) (bv := a); try (rewrite Lp; reflexivity).
      * rewrite Lp. lia.
      * rewrite app_nth2, Nat.sub_diag by lia. reflexivity.
      * intros j Hj. rewrite Lp in Hj.
        destruct (Nat.eq_dec j (length pre)) as [->|Hne].
        -- rewrite app_nth2, Nat.sub_diag by lia. simpl. lra.
        -- rewrite app_nth1 by lia. specialize (Hle j ltac:(lia)). lra.
      * intros j Hj. rewrite app_nth1 by lia. specialize (Hle j Hj). lra.
    + apply IH with (best := best) (bv := bv); try (rewrite Lp; reflexivity).
      * rewrite Lp. lia.
      * rewrite app_nth1 by lia. exact Hbv.
      * intros j Hj. rewrite Lp in Hj.
        destruct (Nat.eq_dec j (length pre)) as [->|Hne].
        -- rewrite app_nth2, Nat.sub_diag by lia. simpl. lra.
        -- rewrite app_nth1 by lia. apply Hle. lia.
      * intros j Hj. rewrite app_nth1 by lia. apply Hlt. exact Hj.
Qed.

(** Property X20.  The token a decoding step appends is the greedy choice: an index into
    the logits of the last position whose logit no other exceeds, and the
    first such index when several logits are maximal. *)
Theorem next_token_is_first_maximum (logits : list (list R)) (t : nat) :
  next_token (Sc := RScalar) logits = Some t ->
  (t < length (last logits []))%nat
  /\ (forall j, (j < length (last logits []))%nat ->
        nth j (last logits []) 0 <= nth t (last logits []) 0)
  /\ (forall j, (j < t)%nat -> nth j (last logits []) 0 < nth t (last logits []) 0).
Proof.
  unfold next_token. cbn [scalar RScalar].
  destruct (rev logits) as [|r rs] eqn:E; [discriminate|].
  assert (Hl : last logits [] = r).
  { apply (f_equal (@rev _)) in E. rewrite rev_involutive in E. rewrite E.
    simpl. apply last_last. }
  rewrite Hl. destruct r as [|a l]; cbn [argmax]; [discriminate|].
  intros H; injection H as <-.
  apply (@argmax_from_spec l [a] 0%nat a); simpl; try reflexivity; try lia.
  intros j Hj. assert (j = 0%nat) by lia. subst j. lra.
Qed.

End RealArithmetic.

(** ** The further theorems at concrete inputs *)

Section MoreWitnesses.

Local Open Scope R_scope.

(** The attention test on three rows, as in the notebook. *)
Lemma attention_cache_test_witness :
  attention_out_with_cache small_attn [[1; 0]; [0; 1]; [1; 1]]
  = attention_out_no_cache small_attn [[1; 0]; [0; 1]; [1; 1]]
  /\ exists out, attention_out_no_cache small_attn [[1; 0]; [0; 1]; [1; 1]] = Some out
                 /\ length out = 3%nat.
Proof.
  destruct (@attention_cache_test RScalar RLaws 2 small_attn [[1; 0]; [0; 1]; [1; 1]]
              eq_refl ltac:(discriminate)) as [H1 H2].
  split; [exact H1 | apply H2; reflexivity].
Defined.

(** The decoder test on three rows. *)
Lemma decoder_cache_test_witness :
  decoder_out_cached (small_block gelu_sigmoid) [[1; 0]; [0; 1]; [1; 1]]
  = decoder_out_full (small_block gelu_sigmoid) [[1; 0]; [0; 1]; [1; 1]]
  /\ exists out, decoder_out_full (small_block gelu_sigmoid) [[1; 0]; [0; 1]; [1; 1]]
                 = Some out
                 /\ length out = 3%nat.
Proof.
  destruct (@decoder_cache_test RScalar RLaws 2 3 (small_block gelu_sigmoid)
              [[1; 0]; [0; 1]; [1; 1]] eq_refl ltac:(discriminate)) as [H1 H2].
  split; [exact H1 | apply H2; reflexivity].
Defined.

(** With [vocab_size = 2] and [max_seq_len = 4]: the input [0, 1] is
    accepted, an input of five tokens is not. *)
Lemma forward_returns_iff_witness :
  (exists r, Transformer_forward (small_model 1 gelu_sigmoid) [0; 1]%nat None false
             = Some r)
  /\ ~ (exists r, Transformer_forward (small_model 1 gelu_sigmoid) [0; 1; 0; 1; 0]%nat
                    None false = Some r).
Proof.
  split.
  - apply (proj2 (@forward_returns_iff RScalar (small_cfg 1) (small_model 1 gelu_sigmoid)
                    eq_refl [0; 1]%nat false ltac:(simpl; lia))).
    split; [repeat constructor | simpl; lia].
  - intros H.
    apply (proj1 (@forward_returns_iff RScalar (small_cfg 1) (small_model 1 gelu_sigmoid)
                    eq_refl [0; 1; 0; 1; 0]%nat false ltac:(simpl; lia))) in H.
    destruct H as [_ H]. simpl in H. lia.
Defined.

(** The token 2 is outside a vocabulary of two tokens; one more token
    behind a cache of four positions is outside [max_seq_len = 4]. *)
Lemma forward_index_errors_witness :
  Transformer_forward (small_model 1 gelu_sigmoid) [2%nat] None true = None
  /\ Transformer_forward (small_model 1 gelu_sigmoid) [0%nat]
       (Some [ ([[0; 0]; [0; 0]; [0; 0]; [0; 0]], [[0; 0]; [0; 0]; [0; 0]; [0; 0]]) ])
       true = None.
Proof.
  split.
  - apply (proj1 (@forward_index_errors RScalar (small_cfg 1) (small_model 1 gelu_sigmoid)
                    eq_refl [2%nat] None true)).
    exists 2%nat. split; [left; reflexivity | simpl; lia].
  - apply (proj2 (@forward_index_errors RScalar (small_cfg 1) (small_model 1 gelu_sigmoid)
                    eq_refl [0%nat] _ true)).
    + discriminate.
    + simpl. lia.
Defined.

(** The empty prompt and the target length 3. *)
Lemma decode_empty_prompt_raises_witness :
  greedy_decode (small_model 1 gelu_sigmoid) [] 3 = None
  /\ greedy_decode_with_kv_cache (small_model 1 gelu_sigmoid) [] 3 = None.
Proof.
  apply (@decode_empty_prompt_raises RScalar (small_model 1 gelu_sigmoid) 3).
  lia.
Defined.

(** One token generated from the prompt [0]. *)
Lemma decode_stays_in_vocabulary_witness :
  exists out,
    greedy_decode (small_model 1 gelu_sigmoid) [0%nat] 2 = Some out
    /\ Forall (fun t => (t < 2)%nat) out.
Proof.
  eexists. split; [reflexivity|].
  apply (@decode_stays_in_vocabulary RScalar (small_cfg 1) (small_model 1 gelu_sigmoid)
           eq_refl [0%nat] 2%nat).
  - simpl. lia.
  - left. reflexivity.
Defined.


(** Decoding to length 4 at once, or to length 2 and then on to 4. *)
Lemma greedy_decode_resume_witness :
  greedy_decode (small_model 1 gelu_sigmoid) [0%nat] 4
  = (out1 <- greedy_decode (small_model 1 gelu_sigmoid) [0%nat] 2 ;;
     greedy_decode (small_model 1 gelu_sigmoid) out1 4).
Proof.
  apply (proj1 (@greedy_decode_resume RScalar (small_model 1 gelu_sigmoid) [0%nat]
                  2%nat 4%nat ltac:(lia))).
Defined.

(** Six tokens asked of a one-layer model with [max_seq_len = 4]. *)
Lemma cached_decode_beyond_context_witness :
  greedy_decode_with_kv_cache (small_model 1 gelu_sigmoid) [0%nat] 6 = None.
Proof.
  apply (@cached_decode_beyond_context RScalar (small_cfg 1) (small_model 1 gelu_sigmoid)
           eq_refl ltac:(simpl; discriminate) [0%nat] 6%nat); simpl; lia.
Defined.

(** The cache returned for the input [0, 1]. *)
Lemma returned_cache_is_consistent_witness :
  exists logits c,
    Transformer_forward (small_model 1 gelu_sigmoid) [0; 1]%nat None true
    = Some (logits, c)
    /\ length logits = 2%nat
    /\ has_width 2 logits = true
    /\ exists kvs, c = Some kvs /\ length kvs = 1%nat
         /\ Forall (fun e : kv => past_ok 2 (Some e) = true) kvs.
Proof.
  eexists. eexists. split; [reflexivity|].
  apply (@returned_cache_is_consistent RScalar (small_cfg 1) (small_model 1 gelu_sigmoid)
           [0; 1]%nat None _ _ eq_refl).
  reflexivity.
Defined.

(** The first of two new tokens behind one cached position, with the
    scores 1, 2, 3. *)
Lemma attention_weights_distribution_witness :
  sum (Sc := RScalar)
    (softmax (Sc := RScalar)
       (fill_row (Sc := RScalar) [1; 2; 3] (nth 0 (causal_mask (1 + 2) 2) []))) = 1.
Proof.
  apply (proj1 (proj2 (@attention_weights_distribution 1 2 0 [1; 2; 3]
                         ltac:(lia) eq_refl _ eq_refl))).
Defined.

(** Two new rows behind an entry of one position: the first new query
    sees the position before it and not the one after it. *)
Lemma attention_sees_exactly_the_past_witness :
  exists attn : list (list (option R)),
    masked_fill (scores 2 (q_rows small_attn [[1; 0]; [0; 1]])
                   ([[0; 1]] ++ k_rows small_attn [[1; 0]; [0; 1]]))
      (skipn 1 (tril 3)) = Some attn
    /\ 0 < nth 1 (nth 0 (map (softmax (Sc := RScalar)) attn) []) 0
    /\ nth 2 (nth 0 (map (softmax (Sc := RScalar)) attn) []) 0 = 0.
Proof.
  destruct (@attention_sees_exactly_the_past small_attn [[1; 0]; [0; 1]]
              (Some ([[0; 1]], [[1; 1]])) true ltac:(discriminate) eq_refl eq_refl)
    as (attn & Hf & _ & Hw).
  exists attn. split; [exact Hf|].
  destruct (Hw 0%nat 1%nat ltac:(simpl; lia) ltac:(simpl; lia)) as [H1 _].
  destruct (Hw 0%nat 2%nat ltac:(simpl; lia) ltac:(simpl; lia)) as [_ H2].
  split; [apply H1; simpl; lia | apply H2; simpl; lia].
Defined.

(** The row [3, 3] under the block's normalization (shift [0, 0]). *)
Lemma layer_norm_of_constant_row_witness :
  LayerNorm_row small_LayerNorm [3; 3] = [0; 0].
Proof.
  apply (proj1 (@layer_norm_of_constant_row small_LayerNorm (ln_f zero_layer_model)
                  3 2 ltac:(lia)) eq_refl eq_refl).
  simpl. unfold eps_default. lra.
Defined.

(** The row [1, 0] shifted by 5. *)
Lemma layer_norm_shift_invariant_witness :
  LayerNorm_row small_LayerNorm (map (fun a => a + 5) [1; 0])
  = LayerNorm_row small_LayerNorm [1; 0].
Proof.
  apply (proj1 (@layer_norm_shift_invariant small_LayerNorm (ln_f zero_layer_model)
                  [1; 0] 5 ltac:(discriminate))).
Defined.

(** The single row [1, 0]. *)
Lemma first_position_attends_to_itself_witness :
  SingleHeadSelfAttention_forward small_attn [[1; 0]] None false
  = Some ([Linear_forward (c_proj small_attn)
             (skipn (2 * 2) (Linear_forward (c_attn small_attn) [1; 0]))], None).
Proof.
  apply (@first_position_attends_to_itself 2 small_attn [1; 0] eq_refl eq_refl).
Defined.

(** The logits [1, 2, 2]: the first of the two maximal entries is taken. *)
Lemma next_token_is_first_maximum_witness :
  next_token (Sc := RScalar) [[1; 2; 2]] = Some 1%nat
  /\ (forall j, (j < 3)%nat -> nth j [1; 2; 2] 0 <= nth 1 [1; 2; 2] 0)
  /\ (forall j, (j < 1)%nat -> nth j [1; 2; 2] 0 < nth 1 [1; 2; 2] 0).
Proof.
  assert (H : next_token (Sc := RScalar) [[1; 2; 2]] = Some 1%nat).
  { cbn. unfold Rltb.
    destruct (Rlt_dec 1 2); [|lra]. destruct (Rlt_dec 2 2); [lra | reflexivity]. }
  split; [exact H|].
  apply (proj2 (@next_token_is_first_maximum [[1; 2; 2]] 1%nat H)).
Defined.

(** The MLP of a block on two rows of width 2. *)
Lemma module_output_shapes_witness :
  length (MLP_forward (mlp (small_block gelu_sigmoid)) [[1; 0]; [0; 1]]) = 2%nat
  /\ has_width 2 (MLP_forward (mlp (small_block gelu_sigmoid)) [[1; 0]; [0; 1]]) = true.
Proof.
  apply (proj1 (proj2 (@module_output_shapes RScalar 2 3 [[1; 0]; [0; 1]] eq_refl))
           (mlp (small_block gelu_sigmoid)) eq_refl).
Defined.

(** A row of width 3 given to a layer of hidden size 2. *)
Lemma attention_raises_iff_witness :
  SingleHeadSelfAttention_forward small_attn [[1; 0; 0]] None true = None.
Proof.
  apply (proj2 (@attention_raises_iff RScalar small_attn [[1; 0; 0]] None true
                  eq_refl ltac:(simpl; lia) ltac:(discriminate)
                  ltac:(intros; discriminate))).
  left. reflexivity.
Defined.

End MoreWitnesses.

